(** * Formula parser and interval solver of the set-membership logic tool

    A shallow embedding of [src/8/formula_parser.py] and [src/8/solver.py].

    Modelling conventions.
    - A Python [str] is a Rocq [string] holding its UTF-8 encoding; the lexer
      walks it code point by code point, so token positions count code points
      as the source does.
    - Numbers are Python floats, binary64 values: a finite one is the
      rational [Q] it stands for, [math.inf] and [-math.inf] are the two
      extra values of [num].  Comparisons are exact; every addition,
      subtraction and division is the exact result rounded to binary64
      ([round64]), to an infinity on overflow; [sum] adds from left to
      right, as CPython up to 3.11 does.  The known sets hold finite
      floats, and no operation of the solver then gives a NaN.  An [int]
      bound of magnitude below 2^51 behaves as the float of the same
      value.
    - A [dict] is a [gmap], a [set] of strings is a [gset].
    - Exceptions are the [Err] results of the [res] monad.  The interpreter's
      recursion limit is not modelled. *)

From Stdlib Require Import Ascii String QArith Qreals Lqa Reals Lra Sorted.
From stdpp Require Import base gmap strings list fin_maps pretty sorting.

Local Open Scope string_scope.
Local Open Scope list_scope.
Local Open Scope nat_scope.

(** ** Exceptions and the error monad *)

Inductive exn : Type :=
  | SyntaxError (msg : string)
  | ValueError (msg : string)
  | IndexError
  | OutOfFuel.

Inductive res (A : Type) : Type :=
  | OK (a : A)
  | Err (e : exn).
Arguments OK {A} a.
Arguments Err {A} e.

Definition res_bind {A B} (m : res A) (k : A → res B) : res B :=
  match m with
  | OK a => k a
  | Err e => Err e
  end.

Notation "'let!' x := m 'in' k" := (res_bind m (λ x, k))
  (at level 10, x name, m at level 100, k at level 200,
   format "'let!'  x  :=  m  'in'  '/' k").
Notation "'let!' ( a , b ) := m 'in' k" :=
  (res_bind m (λ ab, let '(a, b) := ab in k))
  (at level 10, a name, b name, m at level 100, k at level 200,
   format "'let!'  ( a ,  b )  :=  m  'in'  '/' k").

(** ** Tokens and AST nodes (formula_parser.py) *)

Inductive TokenType : Type :=
  | LPAREN | RPAREN | NOT | AND | OR | IMPLIES | EQUIV | XOR | IN
  | IDENTIFIER | EOF.

Global Instance TokenType_eq_dec : EqDecision TokenType.
Proof. solve_decision. Defined.

Definition TokenType_name (t : TokenType) : string :=
  match t with
  | LPAREN => "LPAREN" | RPAREN => "RPAREN" | NOT => "NOT" | AND => "AND"
  | OR => "OR" | IMPLIES => "IMPLIES" | EQUIV => "EQUIV" | XOR => "XOR"
  | IN => "IN" | IDENTIFIER => "IDENTIFIER" | EOF => "EOF"
  end.

Record Token : Type := mkToken {
  type : TokenType;
  value : string;
  position : nat
}.

Inductive ASTNode : Type :=
  | MembershipNode (var set_name : string)
  | NotNode (operand : ASTNode)
  | BinaryNode (op : string) (left right : ASTNode).

(** ** Lexer *)

(** A character of the text: its code point and its UTF-8 spelling. *)
Definition uchar : Type := N * string.

Definition byte_str (b : ascii) : string := String b EmptyString.

(** [pending] continuation bytes are still to be read for the code point
    accumulated in [cp]. *)
Fixpoint utf8_chars_go (s : string) (pending : nat) (cp : N) (sp : string)
  : list uchar :=
  match s with
  | EmptyString => []
  | String b rest =>
    let v := N_of_ascii b in
    match pending with
    | O =>
      if (v <? 128)%N then (v, byte_str b) :: utf8_chars_go rest 0 0%N EmptyString
      else if (v <? 224)%N then utf8_chars_go rest 1 (v - 192)%N (byte_str b)
      else if (v <? 240)%N then utf8_chars_go rest 2 (v - 224)%N (byte_str b)
      else utf8_chars_go rest 3 (v - 240)%N (byte_str b)
    | S k =>
      let cp' := (cp * 64 + v `mod` 64)%N in
      let sp' := sp +:+ byte_str b in
      match k with
      | O => (cp', sp') :: utf8_chars_go rest 0 0%N EmptyString
      | S _ => utf8_chars_go rest k cp' sp'
      end
    end
  end.

Definition utf8_chars (s : string) : list uchar :=
  utf8_chars_go s 0 0%N EmptyString.

Definition spelling (cs : list uchar) : string :=
  foldr (λ c acc, c.2 +:+ acc) EmptyString cs.

(** Unicode whitespace, the characters [\s] matches in a [str] pattern. *)
Definition is_space (c : N) : bool :=
  ((9 <=? c) && (c <=? 13) || (28 <=? c) && (c <=? 32)
   || (c =? 133) || (c =? 160) || (c =? 5760)
   || (8192 <=? c) && (c <=? 8202)
   || (c =? 8232) || (c =? 8233) || (c =? 8239) || (c =? 8287)
   || (c =? 12288))%N.

(** Simple lower-casing used by case-insensitive matching; the only code
    points outside ASCII that lower-case into ASCII are U+0130 and U+212A. *)
Definition lower (c : N) : N :=
  if ((65 <=? c) && (c <=? 90))%N then (c + 32)%N
  else if (c =? 304)%N then 105%N
  else if (c =? 8490)%N then 107%N
  else c.

(** A pattern literal [p] against a text character [x] under [re.IGNORECASE]:
    equal after lower-casing, or one of the two extra equivalences
    i ~ U+0131 and s ~ U+017F. *)
Definition ci_eq (p x : N) : bool :=
  ((lower x =? lower p)
   || (lower p =? 105) && (x =? 305)
   || (lower p =? 115) && (x =? 383))%N.

(** The class [[a-zA-Z]] under [re.IGNORECASE]: the 52 ASCII letters and
    U+0130, U+0131, U+017F, U+212A. *)
Definition is_letter (x : N) : bool :=
  ((97 <=? lower x) && (lower x <=? 122) || (x =? 305) || (x =? 383))%N.

Definition is_ident_start (x : N) : bool := is_letter x || (x =? 95)%N.

Definition is_ident_char (x : N) : bool :=
  is_ident_start x || ((48 <=? x) && (x <=? 57))%N.

(** [\w].  On the characters that some token pattern accepts this is the
    Unicode definition.  Any other character stops the lexer with the same
    [SyntaxError] whatever [\b] answered in front of it (a keyword refused
    by [\b] is matched by the identifier pattern up to the same position),
    so the answer given for those does not show in the result. *)
Definition is_word (x : N) : bool := is_ident_char x.

(** A literal pattern matched at the head of the text; [Some n] is the
    number of characters matched. *)
Fixpoint match_lit (pat : list N) (cs : list uchar) : option nat :=
  match pat with
  | [] => Some O
  | p :: pat' =>
    match cs with
    | [] => None
    | c :: cs' => if ci_eq p c.1 then S <$> match_lit pat' cs' else None
    end
  end.

Definition lit (s : string) : list N := (utf8_chars s).*1.

(** [\b] right after a match that ends in a word character. *)
Definition at_word_end (cs : list uchar) (n : nat) : bool :=
  match drop n cs with
  | [] => true
  | c :: _ => negb (is_word c.1)
  end.

(** [(?!\|)] *)
Definition not_followed_by_bar (cs : list uchar) (n : nat) : bool :=
  match drop n cs with
  | [] => true
  | c :: _ => negb (c.1 =? 124)%N
  end.

(** One alternative of a pattern: a literal with an optional lookahead. *)
Inductive alt : Type :=
  | Lit (s : string)
  | Word (s : string)
  | BarNotBar.

Definition match_alt (a : alt) (cs : list uchar) : option nat :=
  match a with
  | Lit s => match_lit (lit s) cs
  | Word s =>
    n ← match_lit (lit s) cs;
    if at_word_end cs n then Some n else None
  | BarNotBar =>
    n ← match_lit [124%N] cs;
    if not_followed_by_bar cs n then Some n else None
  end.

(** Alternation is ordered: the first alternative that matches wins. *)
Fixpoint match_alts (al : list alt) (cs : list uchar) : option nat :=
  match al with
  | [] => None
  | a :: al' =>
    match match_alt a cs with
    | Some n => Some n
    | None => match_alts al' cs
    end
  end.

Fixpoint count_while (f : N → bool) (cs : list uchar) : nat :=
  match cs with
  | c :: cs' => if f c.1 then S (count_while f cs') else O
  | [] => O
  end.

Inductive pattern : Type :=
  | Spaces
  | Alts (al : list alt)
  | Ident.

Definition match_pattern (p : pattern) (cs : list uchar) : option nat :=
  match p with
  | Spaces =>
    match count_while is_space cs with
    | O => None
    | n => Some n
    end
  | Alts al => match_alts al cs
  | Ident =>
    match cs with
    | c :: cs' =>
      if is_ident_start c.1 then Some (S (count_while is_ident_char cs'))
      else None
    | [] => None
    end
  end.

Definition TOKEN_PATTERNS : list (pattern * option TokenType) :=
  [ (Spaces, None);
    (Alts [Lit "("], Some LPAREN);
    (Alts [Lit ")"], Some RPAREN);
    (Alts [Lit "¬"; Lit "!"; Word "NOT"], Some NOT);
    (Alts [Lit "∧"; Lit "&"; Word "AND"], Some AND);
    (Alts [Lit "∨"; BarNotBar; Word "OR"], Some OR);
    (Alts [Lit "→"; Lit "->"; Word "IMPLIES"], Some IMPLIES);
    (Alts [Lit "≡"; Lit "<->"; Lit "<=>"; Lit "=="; Word "EQUIV"], Some EQUIV);
    (Alts [Lit "⊕"; Lit "^"; Word "XOR"], Some XOR);
    (Alts [Lit "∈"; Word "in"], Some IN);
    (Ident, Some IDENTIFIER) ].

(** The inner [for] loop of [_tokenize]: the first pattern that matches at
    the current position, with the length of its match. *)
Fixpoint first_match (ps : list (pattern * option TokenType)) (cs : list uchar)
  : option (option TokenType * nat) :=
  match ps with
  | [] => None
  | (p, ty) :: ps' =>
    match match_pattern p cs with
    | Some n => Some (ty, n)
    | None => first_match ps' cs
    end
  end.

(** The [while] loop of [_tokenize].  [skip] characters belong to the match
    found last ([self.pos = match.end()]); [pos] is [self.pos]. *)
Fixpoint _tokenize (cs : list uchar) (skip pos : nat) : res (list Token) :=
  match cs with
  | [] => OK [mkToken EOF EmptyString pos]
  | c :: cs' =>
    match skip with
    | S k => _tokenize cs' k (S pos)
    | O =>
      match first_match TOKEN_PATTERNS cs with
      | Some (ty, n) =>
        let! toks := _tokenize cs' (Nat.pred n) (S pos) in
        match ty with
        | Some t => OK (mkToken t (spelling (take n cs)) pos :: toks)
        | None => OK toks
        end
      | None =>
        Err (SyntaxError ("Неизвестный символ '" +:+ c.2 +:+ "' на позиции "
                          +:+ pretty pos))
      end
    end
  end.

Definition Lexer (text : string) : res (list Token) :=
  _tokenize (utf8_chars text) 0 0.

(** ** Parser *)

(** The parser state is the list of tokens from [self.pos] on:
    [self.current] is its head and [_advance] drops it.  Reading past the
    end of the token list is Python's [IndexError]. *)
Definition current (ts : list Token) : res Token :=
  match ts with
  | tok :: _ => OK tok
  | [] => Err IndexError
  end.

Definition _advance (ts : list Token) : list Token := tail ts.

Definition _expect (token_type : TokenType) (ts : list Token)
  : res (Token * list Token) :=
  let! cur := current ts in
  if decide (type cur ≠ token_type) then
    Err (SyntaxError ("Ожидался " +:+ TokenType_name token_type
                      +:+ ", получен " +:+ TokenType_name (type cur)
                      +:+ " на позиции " +:+ pretty (position cur)))
  else OK (cur, _advance ts).

Definition parser : Type := list Token → res (ASTNode * list Token).

Definition _parse_membership : parser := λ ts,
  let! (var_token, ts1) := _expect IDENTIFIER ts in
  let! (_in, ts2) := _expect IN ts1 in
  let! (set_token, ts3) := _expect IDENTIFIER ts2 in
  OK (MembershipNode (value var_token) (value set_token), ts3).

(** [equiv] is the parser used for a parenthesised sub-expression. *)
Definition _parse_atom (equiv : parser) : parser := λ ts,
  let! cur := current ts in
  if decide (type cur = LPAREN) then
    let! (expr, ts1) := equiv (_advance ts) in
    let! (_rp, ts2) := _expect RPAREN ts1 in
    OK (expr, ts2)
  else _parse_membership ts.

(** The recursion of [_parse_not] consumes one NOT token per call. *)
Fixpoint _parse_not (equiv : parser) (ts : list Token)
  : res (ASTNode * list Token) :=
  match ts with
  | [] => Err IndexError
  | cur :: rest =>
    if decide (type cur = NOT) then
      let! (operand, ts1) := _parse_not equiv rest in
      OK (NotNode operand, ts1)
    else _parse_atom equiv ts
  end.

(** The five binary levels are the same loop over a different operator
    token and operand parser:
      left = operand(); while current is the operator: advance;
      right = operand(); left = BinaryNode(op, left, right).
    [fuel] bounds the number of iterations. *)
Fixpoint binary_loop (ty : TokenType) (op : string) (operand : parser)
    (fuel : nat) (left_ : ASTNode) (ts : list Token)
  : res (ASTNode * list Token) :=
  let! cur := current ts in
  if decide (type cur = ty) then
    match fuel with
    | O => Err OutOfFuel
    | S fuel' =>
      let! (right_, ts1) := operand (_advance ts) in
      binary_loop ty op operand fuel' (BinaryNode op left_ right_) ts1
    end
  else OK (left_, ts).

Definition binary_level (ty : TokenType) (op : string) (operand : parser)
    (fuel : nat) : parser := λ ts,
  let! (left_, ts1) := operand ts in
  binary_loop ty op operand fuel left_ ts1.

Definition _parse_and (equiv : parser) (fuel : nat) : parser :=
  binary_level AND "AND" (_parse_not equiv) fuel.

Definition _parse_or (equiv : parser) (fuel : nat) : parser :=
  binary_level OR "OR" (_parse_and equiv fuel) fuel.

Definition _parse_xor (equiv : parser) (fuel : nat) : parser :=
  binary_level XOR "XOR" (_parse_or equiv fuel) fuel.

Definition _parse_implies (equiv : parser) (fuel : nat) : parser :=
  binary_level IMPLIES "IMPLIES" (_parse_xor equiv fuel) fuel.

(** [fuel] bounds both the nesting of parentheses and the iterations of
    each loop; the number of tokens is always enough
    (lemma [parse_fuel_enough] below). *)
Fixpoint _parse_equiv (fuel : nat) (ts : list Token)
  : res (ASTNode * list Token) :=
  match fuel with
  | O => Err OutOfFuel
  | S fuel' =>
    binary_level EQUIV "EQUIV" (_parse_implies (_parse_equiv fuel') fuel')
      fuel' ts
  end.

Definition parse (tokens : list Token) : res ASTNode :=
  let! (result, ts) := _parse_equiv (S (length tokens)) tokens in
  let! cur := current ts in
  if decide (type cur ≠ EOF) then
    Err (SyntaxError ("Неожиданный токен '" +:+ value cur
                      +:+ "' на позиции " +:+ pretty (position cur)))
  else OK result.

Definition parse_formula (formula : string) : res ASTNode :=
  let! tokens := Lexer formula in
  parse tokens.

Fixpoint get_sets_from_ast (node : ASTNode) : gset string :=
  match node with
  | MembershipNode _ set_name => {[ set_name ]}
  | NotNode operand => get_sets_from_ast operand
  | BinaryNode _ left_ right_ =>
    get_sets_from_ast left_ ∪ get_sets_from_ast right_
  end.

(** ** Solver data (solver.py) *)

Inductive Constraint : Type :=
  | MUST_INCLUDE | MUST_EXCLUDE | FREE | IMPOSSIBLE.

Global Instance Constraint_eq_dec : EqDecision Constraint.
Proof. solve_decision. Defined.

Definition Constraint_name (c : Constraint) : string :=
  match c with
  | MUST_INCLUDE => "MUST_INCLUDE" | MUST_EXCLUDE => "MUST_EXCLUDE"
  | FREE => "FREE" | IMPOSSIBLE => "IMPOSSIBLE"
  end.

(** A number of the solver: a finite value or one of the two infinities. *)
Inductive num : Type :=
  | NegInf
  | Fin (q : Q)
  | PosInf.

Definition isinf (x : num) : bool :=
  match x with
  | Fin _ => false
  | _ => true
  end.

Definition num_le (a b : num) : bool :=
  match a, b with
  | NegInf, _ => true
  | _, PosInf => true
  | Fin x, Fin y => Qle_bool x y
  | _, _ => false
  end.

Definition num_lt (a b : num) : bool := negb (num_le b a).

(** Python's [max(a, b)] returns [a] unless [b > a]. *)
Definition num_max (a b : num) : num := if num_lt a b then b else a.

(** ** Binary64 arithmetic *)

(** The integer part of the base-2 logarithm of [n/d]. *)
Definition floor_log2 (n d : positive) : Z :=
  let k := (Z.log2 (Z.pos n) - Z.log2 (Z.pos d))%Z in
  if (Z.pos n * 2 ^ Z.max 0 (- k) <? Z.pos d * 2 ^ Z.max 0 k)%Z
  then (k - 1)%Z else k.

(** [n/d], for [n] not negative and [d] positive, rounded to the nearest
    integer, a tie to the even one. *)
Definition round_half_even (n d : Z) : Z :=
  let q := (n / d)%Z in
  match (2 * (n mod d) ?= d)%Z with
  | Lt => q
  | Gt => (q + 1)%Z
  | Eq => if Z.even q then q else (q + 1)%Z
  end.

(** The binary64 value nearest to [x], ties to the even mantissa: a
    mantissa of at most 53 bits over an exponent from -1074 up (the
    subnormal numbers share the exponent -1074); a result of magnitude
    2^1024 or more is infinite.  The fraction is reduced, so that equal
    values are equal terms. *)
Definition round64 (x : Q) : num :=
  match Qnum x with
  | Z0 => Fin 0
  | Zpos n =>
    let e := Z.max (floor_log2 n (Qden x) - 52) (-1074) in
    let m := round_half_even (Z.pos n * 2 ^ Z.max 0 (- e))
               (Z.pos (Qden x) * 2 ^ Z.max 0 e) in
    if (2 ^ 1024 <=? m * 2 ^ Z.max 0 e)%Z then PosInf
    else Fin (Qred (Qmake (m * 2 ^ Z.max 0 e) (Z.to_pos (2 ^ Z.max 0 (- e)))))
  | Zneg n =>
    let e := Z.max (floor_log2 n (Qden x) - 52) (-1074) in
    let m := round_half_even (Z.pos n * 2 ^ Z.max 0 (- e))
               (Z.pos (Qden x) * 2 ^ Z.max 0 e) in
    if (2 ^ 1024 <=? m * 2 ^ Z.max 0 e)%Z then NegInf
    else Fin (Qred (Qmake (- (m * 2 ^ Z.max 0 e))
                      (Z.to_pos (2 ^ Z.max 0 (- e)))))
  end.

(** [a + b] on floats.  The sum of two infinities of opposite sign is a
    NaN in Python; the solver never forms one (it adds 1.0 to a finite
    number, two finite bounds, and lengths that are not negative), and the
    model gives 0 there. *)
Definition fadd (a b : num) : num :=
  match a, b with
  | Fin x, Fin y => round64 (x + y)
  | Fin _, _ => b
  | _, Fin _ => a
  | PosInf, PosInf => PosInf
  | NegInf, NegInf => NegInf
  | _, _ => Fin 0
  end.

Definition fneg (a : num) : num :=
  match a with
  | NegInf => PosInf
  | Fin x => Fin (- x)
  | PosInf => NegInf
  end.

(** [a - b] on floats. *)
Definition fsub (a b : num) : num :=
  match a, b with
  | Fin x, Fin y => round64 (x - y)
  | _, _ => fadd a (fneg b)
  end.

(** [a / 2] on floats. *)
Definition fhalf (a : num) : num :=
  match a with
  | Fin x => round64 (x / 2)
  | _ => a
  end.

Record Interval : Type := mkInterval {
  left : num;
  right : num;
  left_closed : bool;
  right_closed : bool
}.

(** The [length] property, [self.right - self.left]. *)
Definition Interval_length (i : Interval) : num := fsub (right i) (left i).

Record ConstrainedInterval : Type := mkConstrained {
  interval : Interval;
  constraint : Constraint
}.

Record SolverResult : Type := mkResult {
  success : bool;
  intervals : list Interval;
  total_length : num;
  message : string
}.

Definition is_infinite (r : SolverResult) : bool :=
  existsb (λ i, isinf (left i) || isinf (right i)) (intervals r).

(** ** FormulaEvaluator *)

Fixpoint evaluate (node : ASTNode) (values : gmap string bool) : res bool :=
  match node with
  | MembershipNode _ set_name => OK (default false (values !! set_name))
  | NotNode operand =>
    let! b := evaluate operand values in
    OK (negb b)
  | BinaryNode op left_ right_ =>
    let! l := evaluate left_ values in
    let! r := evaluate right_ values in
    if decide (op = "AND") then OK (l && r)
    else if decide (op = "OR") then OK (l || r)
    else if decide (op = "IMPLIES") then OK (negb l || r)
    else if decide (op = "EQUIV") then OK (eqb l r)
    else if decide (op = "XOR") then OK (negb (eqb l r))
    else Err (ValueError
                "Неизвестный тип узла: <class 'formula_parser.BinaryNode'>")
  end.

(** ** LogicSolver *)

(** [parts_max] and [parts_min] are the two attributes [_format_result]
    assigns; [None] stands for an attribute that is not set yet. *)
Record LogicSolver : Type := mkSolver {
  formula_str : string;
  ast : ASTNode;
  known_sets : gmap string (Q * Q);
  target_set : string;
  maximize : bool;
  formula_true : bool;
  parts_max : option Z;
  parts_min : option Z
}.

(** The [for] loop of [_validate] over the set names of the formula. *)
Fixpoint _validate_loop (self : LogicSolver) (names : list string)
  : res unit :=
  match names with
  | [] => OK ()
  | set_name :: names' =>
    if decide (set_name ≠ target_set self ∧ known_sets self !! set_name = None)
    then Err (ValueError ("Множество '" +:+ set_name +:+ "' не определено"))
    else _validate_loop self names'
  end.

(** The set is visited in the order of [elements]; Python's order is an
    artefact of hashing and only selects which missing name the message
    shows. *)
Definition _validate (self : LogicSolver) : res unit :=
  let all_sets := get_sets_from_ast (ast self) in
  if decide (target_set self ∉ all_sets) then
    Err (ValueError ("Искомое множество '" +:+ target_set self
                     +:+ "' не найдено в формуле"))
  else _validate_loop self (elements all_sets).

(** [LogicSolver.__init__] *)
Definition LogicSolver_init (formula : string)
    (known_sets : gmap string (Q * Q)) (target_set : string)
    (maximize formula_true : bool) : res LogicSolver :=
  let! ast := parse_formula formula in
  let self := mkSolver formula ast known_sets target_set maximize
                formula_true None None in
  let! _u := _validate self in
  OK self.

(** A Python [set] of numbers, as the list of its elements: [add] keeps
    the element already present when an equal one is added. *)
Definition pyset_add (x : Q) (s : list Q) : list Q :=
  if existsb (Qeq_bool x) s then s else s ++ [x].

(** [sorted(xs, key=key)]: the stable ascending sort. *)
Fixpoint sorted_insert {A} (key : A → num) (x : A) (l : list A) : list A :=
  match l with
  | [] => [x]
  | y :: l' =>
    if num_lt (key x) (key y) then x :: y :: l'
    else y :: sorted_insert key x l'
  end.

Definition sorted {A} (key : A → num) (l : list A) : list A :=
  foldl (λ acc x, sorted_insert key x acc) [] l.

(** The loop of [_get_critical_points] over [known_sets.values()]. *)
Definition collect_points (vals : list (Q * Q)) (acc : list Q) : list Q :=
  foldl (λ points lr, pyset_add lr.2 (pyset_add lr.1 points)) acc vals.

Definition _get_critical_points (self : LogicSolver) : list Q :=
  let points := collect_points (map_to_list (known_sets self)).*2 [] in
  sorted Fin points.

(** [points[i]]; every index used below is in range. *)
Definition point_at (points : list Q) (i : nat) : num :=
  Fin (nth i points 0%Q).

Definition _build_intervals (points : list Q) : list Interval :=
  match points with
  | [] => [mkInterval NegInf PosInf true false]
  | _ =>
    [mkInterval NegInf (point_at points 0) false false]
    ++ map (λ i, mkInterval (point_at points i) (point_at points (i + 1))
                   true false)
         (seq 0 (length points - 1))
    ++ [mkInterval (point_at points (length points - 1)) PosInf true false]
  end.

(** [left <= x <= right]; the point [x] is a float and may be infinite. *)
Definition _point_in_set (self : LogicSolver) (x : num) (set_name : string)
  : bool :=
  match known_sets self !! set_name with
  | None => false
  | Some (l, r) => num_le (Fin l) x && num_le x (Fin r)
  end.

(** The representative point chosen by [_get_constraint_for_interval]:
    [0.0], [right - 1.0], [left + 1.0] or [(left + right) / 2], each
    computed on floats. *)
Definition test_point (i : Interval) : num :=
  if isinf (left i) then
    if isinf (right i) then Fin 0
    else fsub (right i) (Fin 1)
  else if isinf (right i) then fadd (left i) (Fin 1)
  else fhalf (fadd (left i) (right i)).

Definition base_values (self : LogicSolver) (x : num) : gmap string bool :=
  map_imap (λ set_name _, Some (_point_in_set self x set_name))
    (known_sets self).

Definition _get_constraint_for_interval (self : LogicSolver) (i : Interval)
  : res Constraint :=
  let x := test_point i in
  let values_a0 := <[target_set self := false]> (base_values self x) in
  let values_a1 := <[target_set self := true]> (base_values self x) in
  let! result_a0 := evaluate (ast self) values_a0 in
  let! result_a1 := evaluate (ast self) values_a1 in
  let target_value := formula_true self in
  let satisfies_a0 := eqb result_a0 target_value in
  let satisfies_a1 := eqb result_a1 target_value in
  if satisfies_a0 && satisfies_a1 then OK FREE
  else if satisfies_a0 && negb satisfies_a1 then OK MUST_EXCLUDE
  else if negb satisfies_a0 && satisfies_a1 then OK MUST_INCLUDE
  else OK IMPOSSIBLE.

Fixpoint _analyze_loop (self : LogicSolver) (l : list Interval)
  : res (list ConstrainedInterval) :=
  match l with
  | [] => OK []
  | i :: l' =>
    let! c := _get_constraint_for_interval self i in
    let! rest := _analyze_loop self l' in
    OK (mkConstrained i c :: rest)
  end.

Definition _analyze_intervals (self : LogicSolver)
  : res (list ConstrainedInterval) :=
  let points := _get_critical_points self in
  _analyze_loop self (_build_intervals points).

(** One iteration of the loop of [_merge_intervals]; the list [merged] is
    kept as its last element [last_] and the elements [front] before it. *)
Definition _merge_step (acc : list Interval * Interval) (cur : Interval)
  : list Interval * Interval :=
  let '(front, last_) := acc in
  if num_le (left cur) (right last_) then
    (front,
     mkInterval (left last_)
       (num_max (right last_) (right cur))
       (left_closed last_)
       (if num_lt (right last_) (right cur) then right_closed cur
        else right_closed last_))
  else (front ++ [last_], cur).

Definition _merge_intervals (l : list Interval) : list Interval :=
  match sorted left l with
  | [] => []
  | first :: rest =>
    let '(front, last_) := foldl _merge_step ([], first) rest in
    front ++ [last_]
  end.

(** The first loop of [_optimize]: the first IMPOSSIBLE region, if any. *)
Fixpoint first_impossible (constrained : list ConstrainedInterval)
  : option ConstrainedInterval :=
  match constrained with
  | [] => None
  | ci :: rest =>
    if decide (constraint ci = IMPOSSIBLE) then Some ci
    else first_impossible rest
  end.

Definition should_include (self : LogicSolver) (ci : ConstrainedInterval)
  : bool :=
  if decide (constraint ci = MUST_INCLUDE) then true
  else if decide (constraint ci = FREE) then maximize self
  else false.

(** The second loop of [_optimize]. *)
Fixpoint collect_included (self : LogicSolver)
    (constrained : list ConstrainedInterval) : list Interval :=
  match constrained with
  | [] => []
  | ci :: rest =>
    if should_include self ci then interval ci :: collect_included self rest
    else collect_included self rest
  end.

Definition is_finite_interval (i : Interval) : bool :=
  negb (isinf (left i)) && negb (isinf (right i)).

(** [sum(i.length for i in merged if ...)]: the lengths are added to 0
    from left to right, each addition rounded, as the built-in [sum] of
    CPython up to 3.11 does.  From 3.12 on [sum] also carries the rounding
    errors of the additions along and adds them at the end, which can
    change the last bits of a sum of three or more lengths. *)
Definition finite_length_sum (merged : list Interval) : num :=
  foldl fadd (Fin 0)
    (Interval_length <$> List.filter is_finite_interval merged).

(** [int(x)] on a finite number truncates toward zero. *)
Definition int_of (x : num) : Z :=
  match x with
  | Fin q => Z.quot (Qnum q) (Z.pos (Qden q))
  | _ => 0%Z
  end.

(** [sep.join(parts)] *)
Fixpoint join (sep : string) (parts : list string) : string :=
  match parts with
  | [] => EmptyString
  | [p] => p
  | p :: rest => p +:+ sep +:+ join sep rest
  end.

Section Formatting.
(** How the interpreter prints a finite number in an f-string. *)
Variable str_float : Q → string.

Definition str_num (x : num) : string :=
  match x with
  | NegInf => "-inf"
  | PosInf => "inf"
  | Fin q => str_float q
  end.

(** [Interval.__repr__] *)
Definition Interval_repr (i : Interval) : string :=
  (if left_closed i then "[" else "(")
  +:+ str_num (left i) +:+ ", " +:+ str_num (right i)
  +:+ (if right_closed i then "]" else ")").

(** The loop of [_format_result]: the accumulator is
    [(parts, parts_max, parts_min)].  The test [self.parts_max != '?']
    compares an integer with a string and always holds. *)
Definition _format_step (acc : list string * Z * Z) (i : Interval)
  : list string * Z * Z :=
  let '(parts, pmax, pmin) := acc in
  if isinf (left i) && isinf (right i) then
    (parts ++ ["(-∞, +∞)"], pmax, pmin)
  else if isinf (left i) then
    (parts ++ ["(-∞, " +:+ str_num (right i) +:+ "]"], pmax, pmin)
  else if isinf (right i) then
    (parts ++ ["[" +:+ str_num (left i) +:+ ", +∞)"], pmax, pmin)
  else
    let l := int_of (left i) in
    let r := int_of (right i) in
    (parts ++ ["[" +:+ str_num (left i) +:+ ", " +:+ str_num (right i)
               +:+ "]"],
     Z.max (r - l) pmax, Z.min (r - l) pmin).

Definition _format_result (self : LogicSolver) (l : list Interval)
    (length : num) : string * LogicSolver :=
  match l with
  | [] => (target_set self +:+ " = ∅", self)
  | _ =>
    let '(parts, pmax, pmin) :=
      foldl _format_step ([], (-1)%Z, 1000000%Z) l in
    let self' :=
      mkSolver (formula_str self) (ast self) (known_sets self)
        (target_set self) (maximize self) (formula_true self)
        (Some pmax) (Some pmin) in
    let result :=
      target_set self +:+ " = " +:+ join " ∪ " parts
      +:+ "  max: " +:+ pretty pmax +:+ " min: " +:+ pretty pmin in
    if negb (existsb (λ i, isinf (left i) || isinf (right i)) l) then
      (result +:+ ", суммарная длина = " +:+ str_num length, self')
    else (result +:+ " (бесконечное решение)", self')
  end.

Definition _optimize (self : LogicSolver)
    (constrained : list ConstrainedInterval) : SolverResult * LogicSolver :=
  match first_impossible constrained with
  | Some ci =>
    (mkResult false [] (Fin 0)
       ("Нет решения: невозможное ограничение на интервале "
        +:+ Interval_repr (interval ci)),
     self)
  | None =>
    let result_intervals := collect_included self constrained in
    let merged := _merge_intervals result_intervals in
    let total := finite_length_sum merged in
    match merged with
    | [] =>
      (mkResult true [] (Fin 0) "Решение: A = ∅ (пустое множество)", self)
    | _ =>
      let '(msg, self') := _format_result self merged total in
      (mkResult true merged total msg, self')
    end
  end.

Definition solve (self : LogicSolver) : res (SolverResult * LogicSolver) :=
  let! constrained := _analyze_intervals self in
  OK (_optimize self constrained).

Definition get_analysis (self : LogicSolver)
  : res (list ConstrainedInterval) :=
  _analyze_intervals self.
End Formatting.

(** * Specification vocabulary *)

(** ** What the parser produces *)

Definition known_op (op : string) : Prop :=
  op ∈ ["AND"; "OR"; "IMPLIES"; "EQUIV"; "XOR"].

(** Every binary node carries one of the five operators the evaluator
    knows. *)
Fixpoint ops_ok (node : ASTNode) : Prop :=
  match node with
  | MembershipNode _ _ => True
  | NotNode operand => ops_ok operand
  | BinaryNode op left_ right_ => known_op op ∧ ops_ok left_ ∧ ops_ok right_
  end.

(** The outcome of running a parser on [ts] with fuel bound [n]: a result
    is a well-formed node and a strictly shorter token list; the only
    exceptions are [SyntaxError], [IndexError], and [OutOfFuel] when the
    input has at least [n] tokens. *)
Definition outcome_ok (n : nat) (ts : list Token)
    (r : res (ASTNode * list Token)) : Prop :=
  match r with
  | OK (a, ts') => ops_ok a ∧ length ts' < length ts
  | Err (ValueError _) => False
  | Err OutOfFuel => n ≤ length ts
  | Err _ => True
  end.

Definition parser_ok (n : nat) (p : parser) : Prop :=
  ∀ ts, outcome_ok n ts (p ts).

(** ** Validation *)

Definition undefined_set (self : LogicSolver) (name : string) : Prop :=
  name ≠ target_set self ∧ known_sets self !! name = None.

(** ** Points of the real line *)

Definition above_left (x : R) (i : Interval) : Prop :=
  match left i with
  | NegInf => True
  | Fin l => if left_closed i then (Q2R l <= x)%R else (Q2R l < x)%R
  | PosInf => False
  end.

Definition below_right (x : R) (i : Interval) : Prop :=
  match right i with
  | NegInf => False
  | Fin r => if right_closed i then (x <= Q2R r)%R else (x < Q2R r)%R
  | PosInf => True
  end.

(** The real number [x] lies in the interval [i]. *)
Definition In_interval (x : R) (i : Interval) : Prop :=
  above_left x i ∧ below_right x i.

Definition In_intervals (x : R) (l : list Interval) : Prop :=
  ∃ i, i ∈ l ∧ In_interval x i.

(** ** Sorting *)

(** Ascending keys: every element is below all the later ones. *)
Definition ascending {A} (key : A → num) (l : list A) : Prop :=
  StronglySorted (λ a b, num_le (key a) (key b) = true) l.

(** ** Critical points *)

(** [q] is, up to numeric equality, an element of [l]. *)
Definition QIn (q : Q) (l : list Q) : Prop := ∃ p, p ∈ l ∧ (p == q)%Q.

Fixpoint distinctQ (l : list Q) : Prop :=
  match l with
  | [] => True
  | x :: l' => ¬ QIn x l' ∧ distinctQ l'
  end.

(** Strictly ascending rationals. *)
Definition strictly_ascending (l : list Q) : Prop := StronglySorted Qlt l.

(** [q] is a boundary of a known set. *)
Definition is_boundary (self : LogicSolver) (q : Q) : Prop :=
  ∃ name l r, known_sets self !! name = Some (l, r)
              ∧ ((l == q)%Q ∨ (r == q)%Q).

(** ** Regions *)

(** The regions as the specification lists them: [p, q), [q, ...), ...,
    closing with the right-infinite region of the last point. *)
Fixpoint regions_from (p : Q) (ps : list Q) : list Interval :=
  match ps with
  | [] => [mkInterval (Fin p) PosInf true false]
  | q :: qs => mkInterval (Fin p) (Fin q) true false :: regions_from q qs
  end.

(** (−∞, p0), [p0, p1), ..., [p(n-1), +∞), or (−∞, +∞) without points. *)
Definition regions_spec (points : list Q) : list Interval :=
  match points with
  | [] => [mkInterval NegInf PosInf false false]
  | p0 :: ps => mkInterval NegInf (Fin p0) false false :: regions_from p0 ps
  end.

(** Two intervals with the same ends and the same real points. *)
Definition same_region (a b : Interval) : Prop :=
  left a = left b ∧ right a = right b
  ∧ ∀ x : R, In_interval x a ↔ In_interval x b.

(** ** Classification of a region *)

(** Shape of the regions the solver builds: right-open, never starting at
    +∞ nor ending at −∞, and left-closed unless they start at −∞. *)
Definition region_like (i : Interval) : Prop :=
  right_closed i = false ∧ left i ≠ PosInf ∧ right i ≠ NegInf
  ∧ (left_closed i = true ∨ left i = NegInf).

(** The representative point as the specification words it. *)
Definition representative_spec (i : Interval) : Q :=
  match left i, right i with
  | Fin l, Fin r => ((l + r) / 2)%Q
  | NegInf, Fin r => (r - 1)%Q
  | Fin l, PosInf => (l + 1)%Q
  | _, _ => 0%Q
  end.

(** Memberships at the point [x]: each known set by its closed interval,
    the target as assumed. *)
Definition memberships_spec (self : LogicSolver) (x : Q) (target_in : bool)
  : gmap string bool :=
  <[target_set self := target_in]>
    ((λ lr : Q * Q, Qle_bool lr.1 x && Qle_bool x lr.2) <$> known_sets self).

(** An evaluation meets the requirement: it is true when the formula must
    hold, false when the formula must fail. *)
Definition meets_requirement (self : LogicSolver) (v : bool) : bool :=
  if formula_true self then v else negb v.

Definition classify_spec (excluded_ok included_ok : bool) : Constraint :=
  match excluded_ok, included_ok with
  | true, true => FREE
  | false, true => MUST_INCLUDE
  | true, false => MUST_EXCLUDE
  | false, false => IMPOSSIBLE
  end.

Definition constraint_spec (self : LogicSolver) (region : Interval)
  : res Constraint :=
  let x := representative_spec region in
  let! excluded := evaluate (ast self) (memberships_spec self x false) in
  let! included := evaluate (ast self) (memberships_spec self x true) in
  OK (classify_spec (meets_requirement self excluded)
        (meets_requirement self included)).

(** ** Length accounting and the report *)

(** Sum of right − left over the intervals with two finite ends. *)
Fixpoint finite_lengths_spec (l : list Interval) : Q :=
  match l with
  | [] => 0%Q
  | i :: l' =>
    match left i, right i with
    | Fin a, Fin b => ((b - a) + finite_lengths_spec l')%Q
    | _, _ => finite_lengths_spec l'
    end
  end.

(** The same sum as floats add it: from 0, left to right, each difference
    and each partial sum rounded to binary64. *)
Fixpoint float_lengths_from (acc : num) (l : list Interval) : num :=
  match l with
  | [] => acc
  | i :: l' =>
    match left i, right i with
    | Fin a, Fin b => float_lengths_from (fadd acc (round64 (b - a))) l'
    | _, _ => float_lengths_from acc l'
    end
  end.

Definition float_lengths_spec (l : list Interval) : num :=
  float_lengths_from (Fin 0) l.

(** The total length is the exact sum of the lengths. *)
Definition exact_total (r : SolverResult) : Prop :=
  ∃ q, total_length r = Fin q ∧ (q == finite_lengths_spec (intervals r))%Q.

(** The part of the report that lists the intervals. *)
Definition result_body (str_float : Q → string) (self : LogicSolver)
    (l : list Interval) : string :=
  let '(parts, pmax, pmin) :=
    foldl (_format_step str_float) ([], (-1)%Z, 1000000%Z) l in
  target_set self +:+ " = " +:+ join " ∪ " parts
  +:+ "  max: " +:+ pretty pmax +:+ " min: " +:+ pretty pmin.

(** ** Solving twice *)

(** Two solver objects that differ at most in [parts_max]/[parts_min]. *)
Definition same_inputs (s1 s2 : LogicSolver) : Prop :=
  formula_str s1 = formula_str s2 ∧ ast s1 = ast s2
  ∧ known_sets s1 = known_sets s2 ∧ target_set s1 = target_set s2
  ∧ maximize s1 = maximize s2 ∧ formula_true s1 = formula_true s2.

(** ** Merging keeps the points *)

Definition merged_with (last_ cur : Interval) : Interval :=
  mkInterval (left last_) (num_max (right last_) (right cur))
    (left_closed last_)
    (if num_lt (right last_) (right cur) then right_closed cur
     else right_closed last_).

(** ** Minimize against maximize *)

(** The tags the optimizer takes into the target set. *)
Definition tag_included (maximize_ : bool) (c : Constraint) : bool :=
  match c with
  | MUST_INCLUDE => true
  | FREE => maximize_
  | _ => false
  end.

(** ** Precedence and associativity *)

(** Binding strength, lowest first: EQUIV < IMPLIES < XOR < OR < AND < NOT,
    then atoms. *)
Definition op_level (op : string) : nat :=
  if decide (op = "EQUIV") then 0
  else if decide (op = "IMPLIES") then 1
  else if decide (op = "XOR") then 2
  else if decide (op = "OR") then 3
  else 4.

Definition op_token (op : string) : TokenType :=
  if decide (op = "EQUIV") then EQUIV
  else if decide (op = "IMPLIES") then IMPLIES
  else if decide (op = "XOR") then XOR
  else if decide (op = "OR") then OR
  else AND.

Definition binding (t : ASTNode) : nat :=
  match t with
  | BinaryNode op _ _ => op_level op
  | NotNode _ => 5
  | MembershipNode _ _ => 6
  end.

Definition tok (ty : TokenType) (v : string) : Token := mkToken ty v 0.

Definition in_parens (b : bool) (ts : list Token) : list Token :=
  if b then tok LPAREN "(" :: ts ++ [tok RPAREN ")"] else ts.

(** The formula written with the fewest parentheses: around an operand
    that binds looser than its operator, and around a right operand that
    binds equally (the operators associate to the left). *)
Fixpoint render (t : ASTNode) : list Token :=
  match t with
  | MembershipNode v s => [tok IDENTIFIER v; tok IN "∈"; tok IDENTIFIER s]
  | NotNode o => tok NOT "¬" :: in_parens (binding o <? 5) (render o)
  | BinaryNode op l r =>
    in_parens (binding l <? op_level op) (render l)
    ++ [tok (op_token op) op]
    ++ in_parens (binding r <=? op_level op) (render r)
  end.

(** [t] written as an operand of an operator of level [k]. *)
Definition render_at (k : nat) (t : ASTNode) : list Token :=
  in_parens (binding t <? k) (render t).

Definition tok_level (ty : TokenType) : option nat :=
  match ty with
  | EQUIV => Some 0 | IMPLIES => Some 1 | XOR => Some 2 | OR => Some 3
  | AND => Some 4
  | _ => None
  end.

Definition level_tok (k : nat) : TokenType :=
  match k with
  | 0 => EQUIV | 1 => IMPLIES | 2 => XOR | 3 => OR | _ => AND
  end.

Definition level_op (k : nat) : string :=
  match k with
  | 0 => "EQUIV" | 1 => "IMPLIES" | 2 => "XOR" | 3 => "OR" | _ => "AND"
  end.

(** What may follow an operand of level [k]: some token that is not a
    binary operator of level [k] or above. *)
Definition stops (k : nat) (rest : list Token) : Prop :=
  match rest with
  | [] => False
  | t :: _ => ∀ j, tok_level (type t) = Some j → j < k
  end.

Fixpoint size (t : ASTNode) : nat :=
  match t with
  | MembershipNode _ _ => 1
  | NotNode o => S (size o)
  | BinaryNode _ l r => S (size l + size r)
  end.

(** The left spine of [t] at level [k]: its head operand and the right
    operands hanging off it. *)
Fixpoint spine (k : nat) (t : ASTNode) : ASTNode * list ASTNode :=
  match t with
  | BinaryNode op l r =>
    if decide (op_level op = k) then ((spine k l).1, (spine k l).2 ++ [r])
    else (t, [])
  | _ => (t, [])
  end.

Definition rights (k : nat) (rs : list ASTNode) : list Token :=
  flat_map (λ r, tok (level_tok k) (level_op k) :: render_at (S k) r) rs.

(** The parser [p] reads [t] back when [t] is written as an operand of
    level [k] and fits the fuel [f]. *)
Definition parses_at (f : nat) (p : parser) (k : nat) (t : ASTNode) : Prop :=
  length (render_at k t) ≤ f → ∀ rest, stops k rest →
  p (render_at k t ++ rest) = OK (t, rest).

(** ** The example of the source's self-test *)

Definition example_formula : string := "((x ∈ P) ≡ (x ∈ Q)) → ¬(x ∈ A)".

Definition example_known_sets : gmap string (Q * Q) :=
  <["P" := (5, 30)%Q]> (<["Q" := (14, 23)%Q]> ∅).

Definition example_result_intervals : list Interval :=
  [mkInterval (Fin 5) (Fin 14) true false;
   mkInterval (Fin 23) (Fin 30) true false].

Definition example_solver : LogicSolver :=
  mkSolver example_formula
    (BinaryNode "IMPLIES"
       (BinaryNode "EQUIV" (MembershipNode "x" "P") (MembershipNode "x" "Q"))
       (NotNode (MembershipNode "x" "A")))
    example_known_sets "A" true true None None.

(** A number printer to run the examples with. *)
Definition example_str_float (q : Q) : string :=
  pretty (Qnum q) +:+ "/" +:+ pretty (Z.pos (Qden q)).

(** A second example: inside P the target is forced, outside it is free. *)
Definition implies_formula : string := "(x ∈ P) → (x ∈ A)".

Definition implies_known_sets : gmap string (Q * Q) := <["P" := (5, 30)%Q]> ∅.

Definition implies_solver (mx : bool) (pmax pmin : option Z) : LogicSolver :=
  mkSolver implies_formula
    (BinaryNode "IMPLIES" (MembershipNode "x" "P") (MembershipNode "x" "A"))
    implies_known_sets "A" mx true pmax pmin.

Definition implies_min_result : SolverResult :=
  mkResult true [mkInterval (Fin 5) (Fin 30) true false] (Fin 25)
    "A = [5/1, 30/1]  max: 25 min: 25, суммарная длина = 25/1".

Definition implies_max_result : SolverResult :=
  mkResult true [mkInterval NegInf PosInf false false] (Fin 0)
    "A = (-∞, +∞)  max: -1 min: 1000000 (бесконечное решение)".

(** ** Bounds of the size of 1e17 *)

(** Next to 1e17 the floats are 16 apart: [1e17 - 1.0] is [1e17]. *)
Definition huge_formula : string := "(x ∈ P) ∨ (x ∈ A)".

Definition huge_known_sets : gmap string (Q * Q) :=
  <["P" := (100000000000000000, 200000000000000000)%Q]> ∅.

Definition huge_solver : LogicSolver :=
  mkSolver huge_formula
    (BinaryNode "OR" (MembershipNode "x" "P") (MembershipNode "x" "A"))
    huge_known_sets "A" false true None None.

Definition huge_region : Interval :=
  mkInterval NegInf (Fin 100000000000000000) false false.

(** ** Bounds that are decimal fractions *)

(** The float a decimal literal denotes. *)
Definition float_literal (x : Q) : Q :=
  match round64 x with
  | Fin q => q
  | _ => x
  end.

Definition tenths_formula : string := "((x ∈ P) ∨ (x ∈ Q)) → (x ∈ A)".

(** P = (0.1, 0.2), Q = (0.3, 0.6) *)
Definition tenths_known_sets : gmap string (Q * Q) :=
  <["P" := (float_literal (1 # 10), float_literal (2 # 10))]>
    (<["Q" := (float_literal (3 # 10), float_literal (6 # 10))]> ∅).

Definition tenths_solver : LogicSolver :=
  mkSolver tenths_formula
    (BinaryNode "IMPLIES"
       (BinaryNode "OR" (MembershipNode "x" "P") (MembershipNode "x" "Q"))
       (MembershipNode "x" "A"))
    tenths_known_sets "A" false true None None.

Definition tenths_result_intervals : list Interval :=
  [mkInterval (Fin (float_literal (1 # 10))) (Fin (float_literal (2 # 10)))
     true false;
   mkInterval (Fin (float_literal (3 # 10))) (Fin (float_literal (6 # 10)))
     true false].

(** * Further vocabulary *)

(** ** Token lists of the lexer *)

(** The token list closes with an EOF token. *)
Definition eof_ended (ts : list Token) : Prop :=
  ∃ pre e, ts = pre ++ [e] ∧ type e = EOF.

(** On a token list that closes with EOF the parser leaves such a list
    and never reads past the end. *)
Definition keeps_eof (p : parser) : Prop :=
  ∀ ts, eof_ended ts →
    match p ts with
    | OK (_, ts') => eof_ended ts'
    | Err IndexError => False
    | Err _ => True
    end.

(** ** What the parser reads of a token *)

(** Two tokens of the same type, with the same text when they are
    identifiers. *)
Definition same_kind (t1 t2 : Token) : Prop :=
  type t1 = type t2 ∧ (type t1 = IDENTIFIER → value t1 = value t2).

Definition same_exn (e1 e2 : exn) : Prop :=
  match e1, e2 with
  | SyntaxError _, SyntaxError _ => True
  | ValueError _, ValueError _ => True
  | IndexError, IndexError => True
  | OutOfFuel, OutOfFuel => True
  | _, _ => False
  end.

Definition same_outcome (r1 r2 : res (ASTNode * list Token)) : Prop :=
  match r1, r2 with
  | OK (a1, ts1), OK (a2, ts2) => a1 = a2 ∧ Forall2 same_kind ts1 ts2
  | Err e1, Err e2 => same_exn e1 e2
  | _, _ => False
  end.

Definition respects_kind (p : parser) : Prop :=
  ∀ ts1 ts2, Forall2 same_kind ts1 ts2 → same_outcome (p ts1) (p ts2).

(** The tokens of [x in P & x in Q] and of [x ∈ P ∧ x ∈ Q]. *)
Definition ascii_tokens : list Token :=
  [mkToken IDENTIFIER "x" 0; mkToken IN "in" 2; mkToken IDENTIFIER "P" 5;
   mkToken AND "&" 7;
   mkToken IDENTIFIER "x" 9; mkToken IN "in" 11; mkToken IDENTIFIER "Q" 14;
   mkToken EOF EmptyString 15].

Definition unicode_tokens : list Token :=
  [mkToken IDENTIFIER "x" 0; mkToken IN "∈" 2; mkToken IDENTIFIER "P" 4;
   mkToken AND "∧" 6;
   mkToken IDENTIFIER "x" 8; mkToken IN "∈" 10; mkToken IDENTIFIER "Q" 12;
   mkToken EOF EmptyString 13].

(** ** Merged intervals *)

(** [a] lies entirely before [b]: it starts no later and ends strictly
    before [b] starts. *)
Definition left_of (a b : Interval) : Prop :=
  num_le (left a) (left b) = true ∧ num_lt (right a) (left b) = true.

(** Every interval of the list lies entirely before all the later ones. *)
Definition separated (l : list Interval) : Prop := StronglySorted left_of l.

(** ** Points and regions *)

(** The rational [x] lies strictly between the ends of [i]. *)
Definition inside (x : Q) (i : Interval) : Prop :=
  num_lt (left i) (Fin x) = true ∧ num_lt (Fin x) (right i) = true.

(** The test point of [i], as the floats give it, lies strictly between
    the ends of [i]. *)
Definition representative_inside (i : Interval) : bool :=
  match test_point i with
  | Fin x => num_lt (left i) (Fin x) && num_lt (Fin x) (right i)
  | _ => false
  end.

(** It does so in every region of the solver. *)
Definition representatives_inside (self : LogicSolver) : bool :=
  forallb representative_inside (_build_intervals (_get_critical_points self)).

(** [q] is an integer of magnitude below 2^51. *)
Definition small_integer (q : Q) : bool :=
  (Z.pos (Qden (Qred q)) =? 1)%Z && (Z.abs (Qnum (Qred q)) <? 2 ^ 51)%Z.

(** Every boundary of a known set is one. *)
Definition small_bounds (self : LogicSolver) : bool :=
  forallb small_integer (_get_critical_points self).

(** The tag of the formula at the point [x]. *)
Definition constraint_at (self : LogicSolver) (x : Q) : res Constraint :=
  let! excluded := evaluate (ast self) (memberships_spec self x false) in
  let! included := evaluate (ast self) (memberships_spec self x true) in
  OK (classify_spec (meets_requirement self excluded)
        (meets_requirement self included)).

(** [i] is a region cut by [points]: it is not empty, no point lies
    strictly between its ends, and its finite ends are points. *)
Definition region_of (points : list Q) (i : Interval) : Prop :=
  num_lt (left i) (right i) = true
  ∧ (∀ q, q ∈ points →
       num_le (Fin q) (left i) = true ∨ num_le (right i) (Fin q) = true)
  ∧ (∀ l, left i = Fin l → l ∈ points)
  ∧ (∀ r, right i = Fin r → r ∈ points).

(** ** Intervals of a result *)

(** [i] is not empty and its finite ends are boundaries of known sets. *)
Definition cut_by (self : LogicSolver) (i : Interval) : Prop :=
  num_lt (left i) (right i) = true
  ∧ (∀ q, left i = Fin q → is_boundary self q)
  ∧ (∀ q, right i = Fin q → is_boundary self q).

(** ** Printing a formula and reading it back *)

(** [op_symbols.get(self.op, self.op)] of [BinaryNode.__repr__]. *)
Definition op_symbol (op : string) : string :=
  if decide (op = "AND") then "∧"
  else if decide (op = "OR") then "∨"
  else if decide (op = "IMPLIES") then "→"
  else if decide (op = "EQUIV") then "≡"
  else if decide (op = "XOR") then "⊕"
  else op.

(** [__repr__] of the three node classes. *)
Fixpoint ASTNode_repr (node : ASTNode) : string :=
  match node with
  | MembershipNode var set_name =>
    "(" +:+ var +:+ " ∈ " +:+ set_name +:+ ")"
  | NotNode operand => "¬" +:+ ASTNode_repr operand
  | BinaryNode op left_ right_ =>
    "(" +:+ ASTNode_repr left_ +:+ " " +:+ op_symbol op +:+ " "
    +:+ ASTNode_repr right_ +:+ ")"
  end.

(** The number of continuation bytes the decoder still expects after [s];
    it is 0 after any text that is a whole number of characters. *)
Fixpoint utf8_state (s : string) (pending : nat) : nat :=
  match s with
  | EmptyString => pending
  | String b rest =>
    let v := N_of_ascii b in
    match pending with
    | O =>
      if (v <? 128)%N then utf8_state rest 0
      else if (v <? 224)%N then utf8_state rest 1
      else if (v <? 240)%N then utf8_state rest 2
      else utf8_state rest 3
    | S k => utf8_state rest k
    end
  end.

(** The operator words of [TOKEN_PATTERNS]. *)
Definition keywords : list string :=
  ["NOT"; "AND"; "OR"; "IMPLIES"; "EQUIV"; "XOR"; "in"].

(** The characters of an identifier: one that the identifier pattern
    accepts first, then any it accepts further. *)
Definition ident_word (w : list uchar) : Prop :=
  match w with
  | [] => False
  | c :: w' =>
    is_ident_start c.1 = true ∧ Forall (λ c, is_ident_char c.1 = true) w'
  end.

(** No operator word matches the whole of [w], letter case aside. *)
Definition not_keyword (w : list uchar) : Prop :=
  Forall (λ kw, match_lit (lit kw) w ≠ Some (length w)) keywords.

(** A name that the lexer reads as one identifier. *)
Definition identifier_name (s : string) : Prop :=
  utf8_state s 0 = 0 ∧ ident_word (utf8_chars s) ∧ not_keyword (utf8_chars s).

Fixpoint names_ok (node : ASTNode) : Prop :=
  match node with
  | MembershipNode var set_name =>
    identifier_name var ∧ identifier_name set_name
  | NotNode operand => names_ok operand
  | BinaryNode _ left_ right_ => names_ok left_ ∧ names_ok right_
  end.

(** The tokens of [ASTNode_repr], positions aside. *)
Fixpoint repr_toks (t : ASTNode) : list Token :=
  match t with
  | MembershipNode v s =>
    [tok LPAREN "("; tok IDENTIFIER v; tok IN "∈"; tok IDENTIFIER s;
     tok RPAREN ")"]
  | NotNode o => tok NOT "¬" :: repr_toks o
  | BinaryNode op l r =>
    tok LPAREN "(" :: repr_toks l ++ [tok (op_token op) op] ++ repr_toks r
    ++ [tok RPAREN ")"]
  end.

(** The parser of binding level [k]. *)
Definition level_parser (equiv : parser) (f : nat) (k : nat) : parser :=
  match k with
  | 0 => binary_level EQUIV "EQUIV" (_parse_implies equiv f) f
  | 1 => _parse_implies equiv f
  | 2 => _parse_xor equiv f
  | 3 => _parse_or equiv f
  | 4 => _parse_and equiv f
  | _ => _parse_not equiv
  end.

(** The tokens [toks] followed by the tokens of the rest of the text. *)
Definition prepend (toks : list Token) (r : res (list Token))
  : res (list Token) :=
  let! rest := r in OK (toks ++ rest).

(** A character whose spelling decodes to itself. *)
Definition self_decoding (c : uchar) : Prop :=
  utf8_chars c.2 = [c] ∧ utf8_state c.2 0 = 0.

(** An identifier token carries a name the lexer reads as an identifier. *)
Definition identifier_token (t : Token) : Prop :=
  type t = IDENTIFIER → identifier_name (value t).

(** The parser builds its names from identifier tokens only. *)
Definition keeps_names (p : parser) : Prop :=
  ∀ ts, Forall identifier_token ts →
    match p ts with
    | OK (a, ts') => names_ok a ∧ Forall identifier_token ts'
    | Err _ => True
    end.

(** ** What [solve] leaves in the solver object *)

(** [r - l] of [_format_result]: the difference of the ends cut to
    integers. *)
Definition int_width (i : Interval) : Z :=
  (int_of (right i) - int_of (left i))%Z.

(** [pmax] and [pmin] are the largest and the smallest [int_width] of the
    bounded intervals of [l], held between the start values -1 and
    1000000 of [_format_result]. *)
Definition parts_spec (l : list Interval) (pmax pmin : Z) : Prop :=
  (-1 ≤ pmax)%Z ∧ (pmin ≤ 1000000)%Z
  ∧ (∀ i, i ∈ l → is_finite_interval i = true →
       (pmin ≤ int_width i ≤ pmax)%Z)
  ∧ (pmax = (-1)%Z
     ∨ ∃ i, i ∈ l ∧ is_finite_interval i = true ∧ pmax = int_width i)
  ∧ (pmin = 1000000%Z
     ∨ ∃ i, i ∈ l ∧ is_finite_interval i = true ∧ pmin = int_width i).

(** ** Formulas inside larger formulas *)

(** The tokens that follow an operand in two token lists are binary
    operators of the same level, or neither is a binary operator. *)
Definition agree (ts rest : list Token) : Prop :=
  match ts, rest with
  | t :: _, r :: _ => tok_level (type t) = tok_level (type r)
  | _, _ => False
  end.

(** The parser reads some tokens, and what it reads does not depend on
    the tokens behind them, as long as the first of those is of the same
    kind. *)
Definition parser_ext (p : parser) : Prop :=
  ∀ ts a ts', p ts = OK (a, ts') →
    ∃ pre, pre ≠ [] ∧ ts = pre ++ ts'
           ∧ ∀ rest, agree ts' rest → p (pre ++ rest) = OK (a, rest).

(** [p'] returns what [p] returns. *)
Definition extends (p p' : parser) : Prop :=
  ∀ ts r, p ts = OK r → p' ts = OK r.

(** With fuel [f0] or more, the tokens [ts] are read as the operand [t]
    of a NOT or of a binary operator, whatever follows. *)
Definition reads (ts : list Token) (t : ASTNode) (f0 : nat) : Prop :=
  ∀ f rest, f0 ≤ f →
    _parse_not (_parse_equiv f) (ts ++ rest) = OK (t, rest).

(** The text is a whole number of characters, as every [str] is. *)
Definition whole (s : string) : Prop := utf8_state s 0 = 0.

(** The text [s] between parentheses. *)
Definition parenthesised (s : string) : string := "(" +:+ s +:+ ")".

(** * Properties *)

(** ** What the parser produces *)

Lemma expect_inv ty ts tok ts' :
  _expect ty ts = OK (tok, ts') → ts = tok :: ts' ∧ type tok = ty.
Proof.
  unfold _expect. destruct ts as [|t ts0]; simpl; [done|].
  case_decide; [done|]. intros [= <- <-]. split; [done|].
  by destruct (decide (type t = ty)).
Qed.

Lemma expect_err ty ts e :
  _expect ty ts = Err e → e = IndexError ∨ ∃ msg, e = SyntaxError msg.
Proof.
  unfold _expect. destruct ts as [|t ts0]; simpl.
  - intros [= <-]. by left.
  - case_decide; [|done]. intros [= <-]. right. eauto.
Qed.

Lemma parse_membership_ok n : parser_ok n _parse_membership.
Proof.
  intros ts. unfold _parse_membership, outcome_ok, res_bind.
  destruct (_expect IDENTIFIER ts) as [[t1 ts1]|e] eqn:E1.
  2:{ apply expect_err in E1 as [->|[? ->]]; done. }
  destruct (_expect IN ts1) as [[t2 ts2]|e] eqn:E2.
  2:{ apply expect_err in E2 as [->|[? ->]]; done. }
  destruct (_expect IDENTIFIER ts2) as [[t3 ts3]|e] eqn:E3.
  2:{ apply expect_err in E3 as [->|[? ->]]; done. }
  apply expect_inv in E1 as [-> _], E2 as [-> _], E3 as [-> _].
  simpl. split; [done|lia].
Qed.

Lemma parse_atom_ok n equiv :
  parser_ok n equiv → parser_ok (S n) (_parse_atom equiv).
Proof.
  intros Hq ts. unfold _parse_atom.
  destruct ts as [|t ts0]; simpl; [done|].
  case_decide.
  - specialize (Hq ts0). unfold _advance; simpl.
    destruct (equiv ts0) as [[a ts1]|e]; simpl in *.
    + destruct Hq as [Ha Hl].
      destruct (_expect RPAREN ts1) as [[t2 ts2]|e] eqn:E2; simpl.
      * apply expect_inv in E2 as [-> _]. simpl in *. split; [done|lia].
      * apply expect_err in E2 as [->|[? ->]]; done.
    + destruct e; try done. lia.
  - pose proof (parse_membership_ok (S n) (t :: ts0)) as Hm.
    exact Hm.
Qed.

Lemma outcome_ok_mono n ts ts' r :
  length ts ≤ length ts' → outcome_ok n ts r → outcome_ok n ts' r.
Proof.
  intros Hl. unfold outcome_ok. destruct r as [[a t]|e].
  - intros [? ?]. split; [done|lia].
  - destruct e; try done. lia.
Qed.

Lemma parse_not_ok n equiv :
  parser_ok n equiv → parser_ok (S n) (_parse_not equiv).
Proof.
  intros Hq ts. induction ts as [|t ts0 IH]; simpl; [done|].
  case_decide.
  - destruct (_parse_not equiv ts0) as [[a ts1]|e]; simpl in *.
    + destruct IH. split; [done|lia].
    + destruct e; try done. lia.
  - apply (parse_atom_ok n equiv Hq (t :: ts0)).
Qed.

Lemma binary_loop_ok m ty op operand :
  known_op op → parser_ok m operand →
  ∀ fuel left_ ts, ops_ok left_ →
    match binary_loop ty op operand fuel left_ ts with
    | OK (a, ts') => ops_ok a ∧ length ts' ≤ length ts
    | Err (ValueError _) => False
    | Err OutOfFuel => fuel < length ts ∨ m ≤ length ts
    | Err _ => True
    end.
Proof.
  intros Hop Hp fuel. induction fuel as [|fuel IH]; intros left_ ts Hl.
  - destruct ts as [|t ts0]; simpl; [done|].
    case_decide; simpl; [left; lia|done].
  - destruct ts as [|t ts0]; simpl; [done|].
    case_decide; simpl; [|done].
    unfold _advance; simpl. specialize (Hp ts0).
    destruct (operand ts0) as [[r ts1]|e]; simpl in *.
    + destruct Hp as [Hr Hlen].
      specialize (IH (BinaryNode op left_ r) ts1).
      destruct (binary_loop ty op operand fuel (BinaryNode op left_ r) ts1)
        as [[a ts2]|e].
      * destruct IH as [? ?]; [done|]. split; [done|lia].
      * destruct e; try (by apply IH).
        destruct IH as [?|?]; [done|left; lia|right; lia].
    + destruct e; try done. right; lia.
Qed.

Lemma binary_level_ok fuel ty op operand :
  known_op op → parser_ok (S fuel) operand →
  parser_ok (S fuel) (binary_level ty op operand fuel).
Proof.
  intros Hop Hp ts. unfold binary_level. pose proof (Hp ts) as Ho.
  destruct (operand ts) as [[l ts1]|e]; simpl in *; [|done].
  destruct Ho as [Hl Hlen].
  pose proof (binary_loop_ok (S fuel) ty op operand Hop Hp fuel l ts1 Hl) as H.
  destruct (binary_loop ty op operand fuel l ts1) as [[a ts2]|e]; simpl.
  - destruct H. split; [done|lia].
  - destruct e; try done. lia.
Qed.

Lemma known_op_cases op :
  op = "AND" ∨ op = "OR" ∨ op = "IMPLIES" ∨ op = "EQUIV" ∨ op = "XOR" →
  known_op op.
Proof. unfold known_op. rewrite !elem_of_cons. tauto. Qed.

Lemma parse_equiv_ok fuel : parser_ok fuel (_parse_equiv fuel).
Proof.
  induction fuel as [|fuel IH]; [intros ts; simpl; lia|].
  change (parser_ok (S fuel)
            (binary_level EQUIV "EQUIV"
               (_parse_implies (_parse_equiv fuel) fuel) fuel)).
  unfold _parse_implies, _parse_xor, _parse_or, _parse_and.
  repeat (apply binary_level_ok; [apply known_op_cases; tauto|]).
  by apply parse_not_ok.
Qed.

(** The fuel [parse] hands to the parser is never used up. *)
Lemma parse_fuel_enough tokens : parse tokens ≠ Err OutOfFuel.
Proof.
  unfold parse. pose proof (parse_equiv_ok (S (length tokens)) tokens) as H.
  destruct (_parse_equiv _ tokens) as [[a ts]|e]; simpl in *.
  - destruct ts; simpl; [done|]. by case_decide.
  - destruct e; try done. lia.
Qed.

Lemma parse_ops_ok tokens a : parse tokens = OK a → ops_ok a.
Proof.
  unfold parse. pose proof (parse_equiv_ok (S (length tokens)) tokens) as H.
  destruct (_parse_equiv _ tokens) as [[a' ts]|e]; simpl in *; [|done].
  destruct ts; simpl; [done|]. case_decide; [done|].
  intros [= <-]. tauto.
Qed.

Lemma parse_not_ValueError tokens msg : parse tokens ≠ Err (ValueError msg).
Proof.
  unfold parse. pose proof (parse_equiv_ok (S (length tokens)) tokens) as H.
  destruct (_parse_equiv _ tokens) as [[a' ts]|e]; simpl in *.
  - destruct ts; simpl; [done|]. by case_decide.
  - by destruct e.
Qed.

Lemma tokenize_err cs skip pos e :
  _tokenize cs skip pos = Err e → ∃ msg, e = SyntaxError msg.
Proof.
  revert skip pos.
  induction cs as [|c cs IH]; intros skip pos; cbn [_tokenize]; [done|].
  destruct skip as [|k]; [|by apply IH].
  destruct (first_match TOKEN_PATTERNS (c :: cs)) as [[ty n]|].
  - destruct (_tokenize cs (Nat.pred n) (S pos)) eqn:E; cbn [res_bind].
    + by destruct ty.
    + intros [= <-]. by eapply IH.
  - intros [= <-]. eauto.
Qed.

Lemma parse_formula_ops_ok formula a : parse_formula formula = OK a → ops_ok a.
Proof.
  unfold parse_formula. destruct (Lexer formula); simpl; [|done].
  apply parse_ops_ok.
Qed.

Lemma parse_formula_not_ValueError formula msg :
  parse_formula formula ≠ Err (ValueError msg).
Proof.
  unfold parse_formula. destruct (Lexer formula) eqn:E; simpl.
  - apply parse_not_ValueError.
  - apply tokenize_err in E as [? ->]. done.
Qed.

Lemma parse_formula_fuel_enough formula : parse_formula formula ≠ Err OutOfFuel.
Proof.
  unfold parse_formula. destruct (Lexer formula) eqn:E; simpl.
  - apply parse_fuel_enough.
  - apply tokenize_err in E as [? ->]. done.
Qed.

(** ** The evaluator on parsed formulas *)

Lemma evaluate_total node values :
  ops_ok node → ∃ b, evaluate node values = OK b.
Proof.
  induction node as [v s|o IH|op l IHl r IHr]; simpl.
  - eauto.
  - intros H. destruct (IH H) as [b ->]. simpl. eauto.
  - intros (Hop & Hl & Hr).
    destruct (IHl Hl) as [bl ->], (IHr Hr) as [br ->]. simpl.
    repeat case_decide; eauto.
    exfalso. unfold known_op in Hop. rewrite !elem_of_cons in Hop.
    rewrite elem_of_nil in Hop. tauto.
Qed.

(** C10. On every AST that [parse_formula] returns, and for every mapping
    from set names to booleans, [evaluate] returns a boolean: the
    [ValueError] branch is never reached, and a membership node whose set
    name is absent from the mapping evaluates to false. *)
Theorem evaluate_parsed_returns_bool formula node values :
  parse_formula formula = OK node →
  (∃ b, evaluate node values = OK b) ∧
  (∀ var name, values !! name = None →
     evaluate (MembershipNode var name) values = OK false).
Proof.
  intros Hp. split.
  - apply evaluate_total. by eapply parse_formula_ops_ok.
  - intros var name Hn. simpl. by rewrite Hn.
Qed.

Lemma evaluate_parsed_returns_bool_witness :
  parse_formula "((x ∈ P) ≡ (x ∈ Q)) → ¬(x ∈ A)"
  = OK (BinaryNode "IMPLIES"
          (BinaryNode "EQUIV" (MembershipNode "x" "P") (MembershipNode "x" "Q"))
          (NotNode (MembershipNode "x" "A")))
  ∧ (∃ b, evaluate
            (BinaryNode "IMPLIES"
               (BinaryNode "EQUIV" (MembershipNode "x" "P")
                  (MembershipNode "x" "Q"))
               (NotNode (MembershipNode "x" "A")))
            (<["P" := true]> ∅) = OK b)
  ∧ (∀ var name, (<["P" := true]> ∅ : gmap string bool) !! name = None →
       evaluate (MembershipNode var name) (<["P" := true]> ∅) = OK false).
Proof.
  split; [vm_compute; reflexivity|].
  apply (evaluate_parsed_returns_bool "((x ∈ P) ≡ (x ∈ Q)) → ¬(x ∈ A)").
  vm_compute; reflexivity.
Defined.

(** ** Validation *)

Lemma validate_loop_err self names :
  (∃ e, _validate_loop self names = Err e) ↔
  (∃ name, name ∈ names ∧ undefined_set self name).
Proof.
  induction names as [|n names IH]; simpl.
  - split; [intros [e ?]; done|intros (n & Hn & _); by apply elem_of_nil in Hn].
  - case_decide as Hd.
    + split; [|eauto]. intros _. exists n. split; [left|done].
    + rewrite IH. split.
      * intros (m & Hm & Hu). exists m. split; [by right|done].
      * intros (m & Hm & Hu). apply elem_of_cons in Hm as [->|Hm]; [done|eauto].
Qed.

Lemma validate_loop_err_kind self names e :
  _validate_loop self names = Err e → ∃ msg, e = ValueError msg.
Proof.
  induction names as [|n names IH]; simpl; [done|].
  case_decide; [|done]. intros [= <-]. eauto.
Qed.

Lemma validate_err self :
  (∃ msg, _validate self = Err (ValueError msg)) ↔
  (target_set self ∉ get_sets_from_ast (ast self)
   ∨ ∃ name, name ∈ get_sets_from_ast (ast self) ∧ undefined_set self name).
Proof.
  unfold _validate. case_decide as Ht.
  - split; [tauto|eauto].
  - split.
    + intros [msg Hm]. right.
      assert (∃ e, _validate_loop self
                     (elements (get_sets_from_ast (ast self))) = Err e)
        as He by eauto.
      apply validate_loop_err in He as (n & Hn & Hu).
      exists n. split; [|done]. by apply elem_of_elements in Hn.
    + intros [?|(n & Hn & Hu)]; [done|].
      assert (∃ e, _validate_loop self
                     (elements (get_sets_from_ast (ast self))) = Err e)
        as [e He].
      { apply validate_loop_err. exists n. split; [|done].
        by apply elem_of_elements. }
      destruct (validate_loop_err_kind _ _ _ He) as [msg ->]. eauto.
Qed.

(** C5. Constructing a [LogicSolver] raises the configuration error
    ([ValueError]) exactly when the formula parses and either the target
    name does not occur in the parsed formula, or some set name of the
    formula other than the target is missing from the known sets.  The
    constructor performs no region analysis. *)
Theorem init_config_error_iff formula ks target mx ft :
  (∃ msg, LogicSolver_init formula ks target mx ft = Err (ValueError msg)) ↔
  (∃ node, parse_formula formula = OK node ∧
     (target ∉ get_sets_from_ast node
      ∨ ∃ name, name ∈ get_sets_from_ast node ∧ name ≠ target
                ∧ ks !! name = None)).
Proof.
  unfold LogicSolver_init.
  destruct (parse_formula formula) as [node|e] eqn:Hp; simpl.
  - set (self := mkSolver formula node ks target mx ft None None).
    pose proof (validate_err self) as Hv. simpl in Hv.
    split.
    + intros [msg Hm]. exists node. split; [done|]. apply Hv.
      exists msg. destruct (_validate self) as [[]|e']; simpl in Hm; congruence.
    + intros (node' & [= <-] & Hc). apply Hv in Hc as [msg Hm].
      exists msg. by rewrite Hm.
  - split.
    + intros [msg [= ->]]. by destruct (parse_formula_not_ValueError formula msg).
    + intros (node & [=] & _).
Qed.

(** ** The example of the source's self-test *)

Lemma example_init mx ft :
  LogicSolver_init example_formula example_known_sets "A" mx ft
  = OK (mkSolver example_formula
          (BinaryNode "IMPLIES"
             (BinaryNode "EQUIV" (MembershipNode "x" "P")
                (MembershipNode "x" "Q"))
             (NotNode (MembershipNode "x" "A")))
          example_known_sets "A" mx ft None None).
Proof. destruct mx, ft; vm_compute; reflexivity. Qed.

Lemma example_solve_max str_float self :
  LogicSolver_init example_formula example_known_sets "A" true true = OK self →
  ∃ msg self',
    solve str_float self
    = OK (mkResult true example_result_intervals (Fin 16) msg, self').
Proof.
  rewrite example_init. intros [= <-]. vm_compute. eauto.
Qed.

(** C1 (as amended).  For the example formula with P = (5, 30),
    Q = (14, 23), target A, maximize and formula_true both true, [solve]
    returns a successful result whose merged intervals are
    [5, 14) ∪ [23, 30), of total length 16. *)
Theorem example_solve_result (str_float : Q → string) :
  ∃ self r self',
    LogicSolver_init example_formula example_known_sets "A" true true = OK self
    ∧ solve str_float self = OK (r, self')
    ∧ success r = true
    ∧ intervals r = example_result_intervals
    ∧ total_length r = Fin 16.
Proof.
  eexists. rewrite example_init.
  destruct (example_solve_max str_float _ (example_init true true))
    as (msg & self' & Hs).
  eexists _, _. split; [reflexivity|]. split; [exact Hs|].
  split; [reflexivity|]. split; reflexivity.
Qed.

(** C1 as stated fails: no successful result of [solve] on the example has
    (−∞, 5) ∪ [14, 23) ∪ [30, +∞) as its set of points. *)
Lemma example_solve_counterexample :
  ¬ (∃ (str_float : Q → string) self r self',
       LogicSolver_init example_formula example_known_sets "A" true true
       = OK self
       ∧ solve str_float self = OK (r, self')
       ∧ success r = true
       ∧ ∀ x : R, In_intervals x (intervals r) ↔
                  (x < 5 ∨ 14 <= x < 23 ∨ 30 <= x)%R).
Proof.
  intros (str_float & self & r & self' & Hi & Hs & _ & Hx).
  destruct (example_solve_max str_float self Hi) as (msg & self2 & Hs2).
  rewrite Hs2 in Hs. injection Hs as <- _.
  destruct (proj2 (Hx 0%R)) as (i & Hin & Ha & Hb); [left; lra|].
  simpl in Hin. unfold example_result_intervals in Hin.
  rewrite !elem_of_cons, elem_of_nil in Hin.
  destruct Hin as [->|[->|[]]];
    unfold above_left, Q2R in Ha; simpl in Ha; lra.
Qed.

(** ** Sorting *)

Lemma num_le_refl a : num_le a a = true.
Proof. destruct a; simpl; try done. apply Qle_bool_iff. apply Qle_refl. Qed.

Lemma num_le_trans a b c :
  num_le a b = true → num_le b c = true → num_le a c = true.
Proof.
  destruct a, b, c; simpl; try done.
  rewrite !Qle_bool_iff. apply Qle_trans.
Qed.

Lemma num_le_total a b : num_le a b = false → num_le b a = true.
Proof.
  destruct a, b; simpl; try done.
  intros H. apply Qle_bool_iff. apply Qlt_le_weak, Qnot_le_lt.
  intros Hle. apply Qle_bool_iff in Hle. congruence.
Qed.

Lemma num_lt_le a b : num_lt a b = true → num_le a b = true.
Proof.
  unfold num_lt. intros H. apply num_le_total. by apply negb_true_iff.
Qed.

Lemma sorted_insert_elem {A} (key : A → num) x l y :
  y ∈ sorted_insert key x l ↔ y = x ∨ y ∈ l.
Proof.
  induction l as [|z l IH]; simpl.
  - rewrite list_elem_of_singleton, elem_of_nil. tauto.
  - destruct (num_lt (key x) (key z)).
    + rewrite !elem_of_cons. tauto.
    + rewrite !elem_of_cons, IH. tauto.
Qed.

Lemma foldl_insert_elem {A} (key : A → num) l acc y :
  y ∈ foldl (λ acc x, sorted_insert key x acc) acc l ↔ y ∈ acc ∨ y ∈ l.
Proof.
  revert acc. induction l as [|x l IH]; intros acc; simpl.
  - rewrite elem_of_nil. tauto.
  - rewrite IH, sorted_insert_elem, elem_of_cons. tauto.
Qed.

Lemma sorted_elem {A} (key : A → num) l y : y ∈ sorted key l ↔ y ∈ l.
Proof.
  unfold sorted. rewrite foldl_insert_elem, elem_of_nil. tauto.
Qed.

Lemma sorted_insert_ascending {A} (key : A → num) x l :
  ascending key l → ascending key (sorted_insert key x l).
Proof.
  unfold ascending. induction 1 as [|z l Hs IH Hz]; simpl.
  - repeat constructor.
  - destruct (num_lt (key x) (key z)) eqn:E.
    + constructor; [by constructor|].
      apply num_lt_le in E.
      constructor; [done|].
      eapply Forall_impl; [exact Hz|]. simpl. intros b Hb.
      by eapply num_le_trans.
    + constructor; [done|].
      apply Forall_forall. intros b Hb.
      apply sorted_insert_elem in Hb as [->|Hb].
      * unfold num_lt in E. by apply negb_false_iff in E.
      * by eapply Forall_forall in Hz.
Qed.

Lemma sorted_ascending {A} (key : A → num) l : ascending key (sorted key l).
Proof.
  unfold sorted.
  assert (ascending key (@nil A)) as H by constructor.
  revert H. generalize (@nil A).
  induction l as [|x l IH]; intros acc Hacc; simpl; [done|].
  apply IH. by apply sorted_insert_ascending.
Qed.

(** ** Critical points *)

Lemma existsb_Qeq x s : existsb (Qeq_bool x) s = true ↔ QIn x s.
Proof.
  rewrite existsb_exists. unfold QIn. split.
  - intros (p & Hp & He). exists p. split; [by apply list_elem_of_In|].
    apply Qeq_bool_iff in He. by symmetry.
  - intros (p & Hp & He). exists p. split; [by apply list_elem_of_In|].
    apply Qeq_bool_iff. by symmetry.
Qed.

Lemma QIn_app q l1 l2 : QIn q (l1 ++ l2) ↔ QIn q l1 ∨ QIn q l2.
Proof.
  unfold QIn. split.
  - intros (p & Hp & He). apply elem_of_app in Hp as [Hp|Hp]; eauto.
  - intros [(p & Hp & He)|(p & Hp & He)]; exists p;
      (split; [apply elem_of_app; auto|done]).
Qed.

Lemma QIn_singleton q x : QIn q [x] ↔ (x == q)%Q.
Proof.
  unfold QIn. split.
  - intros (p & Hp & He). by apply list_elem_of_singleton in Hp as ->.
  - intros He. exists x. split; [apply list_elem_of_singleton|]; done.
Qed.

Lemma QIn_proper q q' l : (q == q')%Q → QIn q l → QIn q' l.
Proof.
  intros Hq (p & Hp & He). exists p. split; [done|]. by rewrite He.
Qed.

Lemma pyset_add_QIn x s q : QIn q (pyset_add x s) ↔ (x == q)%Q ∨ QIn q s.
Proof.
  unfold pyset_add. destruct (existsb (Qeq_bool x) s) eqn:E.
  - apply existsb_Qeq in E. split; [auto|].
    intros [He|?]; [|done]. by eapply QIn_proper.
  - rewrite QIn_app, QIn_singleton. tauto.
Qed.

Lemma distinctQ_snoc l x : distinctQ l → ¬ QIn x l → distinctQ (l ++ [x]).
Proof.
  induction l as [|y l IH]; simpl; intros Hd Hx.
  - split; [|done]. intros (p & Hp & _). by apply elem_of_nil in Hp.
  - destruct Hd as [Hy Hd]. split.
    + rewrite QIn_app, QIn_singleton. intros [?|He]; [done|].
      apply Hx. exists y. split; [left|done].
    + apply IH; [done|]. intros (p & Hp & He). apply Hx.
      exists p. split; [by right|done].
Qed.

Lemma pyset_add_distinct x s : distinctQ s → distinctQ (pyset_add x s).
Proof.
  intros Hd. unfold pyset_add. destruct (existsb (Qeq_bool x) s) eqn:E; [done|].
  apply distinctQ_snoc; [done|]. rewrite <- existsb_Qeq. congruence.
Qed.

Lemma collect_points_spec vals acc :
  distinctQ acc →
  distinctQ (collect_points vals acc)
  ∧ ∀ q, QIn q (collect_points vals acc) ↔
         QIn q acc ∨ ∃ lr, lr ∈ vals ∧ ((lr.1 == q)%Q ∨ (lr.2 == q)%Q).
Proof.
  unfold collect_points. revert acc.
  induction vals as [|lr vals IH]; intros acc Hd; simpl.
  - split; [done|]. intros q. split; [auto|].
    intros [?|(lr & Hlr & _)]; [done|]. by apply elem_of_nil in Hlr.
  - destruct (IH (pyset_add lr.2 (pyset_add lr.1 acc))) as [Hd' Hq].
    { by do 2 apply pyset_add_distinct. }
    split; [done|]. intros q. rewrite Hq, !pyset_add_QIn. split.
    + intros [[?|[?|?]]|(lr' & Hlr & Hc)]; eauto.
      * right. exists lr. split; [left|auto].
      * right. exists lr. split; [left|auto].
      * right. exists lr'. split; [by right|done].
    + intros [?|(lr' & Hlr & Hc)]; [auto|].
      apply elem_of_cons in Hlr as [->|Hlr]; [tauto|eauto].
Qed.

Lemma num_lt_Fin a b : num_lt (Fin a) (Fin b) = true ↔ (a < b)%Q.
Proof.
  unfold num_lt. simpl. rewrite negb_true_iff.
  split.
  - intros H. apply Qnot_le_lt. intros Hle. apply Qle_bool_iff in Hle. congruence.
  - intros H. destruct (Qle_bool b a) eqn:E; [|done].
    apply Qle_bool_iff in E. by apply Qle_not_lt in E.
Qed.

Lemma sorted_insert_strict x l :
  strictly_ascending l → ¬ QIn x l →
  strictly_ascending (sorted_insert Fin x l).
Proof.
  unfold strictly_ascending. induction 1 as [|z l Hs IH Hz]; simpl; intros Hx.
  - repeat constructor.
  - destruct (num_lt (Fin x) (Fin z)) eqn:E.
    + apply num_lt_Fin in E.
      constructor; [by constructor|]. constructor; [done|].
      eapply Forall_impl; [exact Hz|]. simpl. intros b Hb.
      by eapply Qlt_trans.
    + assert (z < x)%Q as Hzx.
      { destruct (Q_dec z x) as [[?|Hgt]|He]; [done| |].
        - apply num_lt_Fin in Hgt. congruence.
        - exfalso. apply Hx. exists z. split; [left|done]. }
      constructor.
      * apply IH. intros (p & Hp & He). apply Hx. exists p.
        split; [by right|done].
      * apply Forall_forall. intros b Hb.
        apply sorted_insert_elem in Hb as [->|Hb]; [done|].
        by eapply Forall_forall in Hz.
Qed.

Lemma sorted_Fin_strict l : distinctQ l → strictly_ascending (sorted Fin l).
Proof.
  unfold sorted.
  assert (strictly_ascending [] ∧ ∀ x, x ∈ l → ¬ QIn x []) as H.
  { split; [constructor|]. intros x _ (p & Hp & _). by apply elem_of_nil in Hp. }
  revert H. generalize (@nil Q).
  induction l as [|x l IH]; intros acc [Hacc Hdis] Hd; simpl; [done|].
  destruct Hd as [Hx Hd]. apply IH; [|done]. split.
  - apply sorted_insert_strict; [done|]. apply Hdis. left.
  - intros y Hy (p & Hp & He).
    apply sorted_insert_elem in Hp as [->|Hp].
    + apply Hx. exists y. split; [done|]. by symmetry.
    + apply (Hdis y); [by right|]. by exists p.
Qed.

Lemma sorted_QIn l q : QIn q (sorted Fin l) ↔ QIn q l.
Proof. unfold QIn. by setoid_rewrite sorted_elem. Qed.

Lemma critical_points_spec self :
  strictly_ascending (_get_critical_points self)
  ∧ ∀ q, QIn q (_get_critical_points self) ↔ is_boundary self q.
Proof.
  unfold _get_critical_points.
  destruct (collect_points_spec (map_to_list (known_sets self)).*2 [])
    as [Hd Hq]; [done|].
  split; [by apply sorted_Fin_strict|].
  intros q. rewrite sorted_QIn. unfold collect_points in Hq. rewrite Hq.
  unfold is_boundary. split.
  - intros [(p & Hp & _)|(lr & Hlr & Hc)]; [by apply elem_of_nil in Hp|].
    apply list_elem_of_fmap in Hlr as ([name [l r]] & -> & Hin).
    apply elem_of_map_to_list in Hin. by exists name, l, r.
  - intros (name & l & r & Hl & Hc). right. exists (l, r). split; [|done].
    apply list_elem_of_fmap. exists (name, (l, r)). split; [done|].
    by apply elem_of_map_to_list.
Qed.

(** ** Regions *)

Lemma build_from_spec p ps :
  map (λ i, mkInterval (point_at (p :: ps) i) (point_at (p :: ps) (i + 1))
              true false)
    (seq 0 (length ps))
  ++ [mkInterval (point_at (p :: ps) (length ps)) PosInf true false]
  = regions_from p ps.
Proof.
  revert p. induction ps as [|q qs IH]; intros p; [done|].
  cbn [length seq map app regions_from]. f_equal.
  rewrite <- (IH q), <- seq_shift, map_map. f_equal.
Qed.

Lemma build_intervals_nonempty p ps :
  _build_intervals (p :: ps) = regions_spec (p :: ps).
Proof.
  unfold _build_intervals, regions_spec.
  cbn [length app Nat.sub]. rewrite Nat.sub_0_r. f_equal.
  apply build_from_spec.
Qed.

Lemma regions_from_length p ps : length (regions_from p ps) = S (length ps).
Proof. revert p. induction ps as [|q qs IH]; intros p; simpl; [done|]. by rewrite IH. Qed.

Lemma critical_points_empty self :
  known_sets self = ∅ → _get_critical_points self = [].
Proof.
  intros H. unfold _get_critical_points. rewrite H, map_to_list_empty. done.
Qed.

(** C3.  The critical points are the distinct boundary values of the known
    intervals in strictly ascending order, and the regions built from the
    n points p0 < ... < p(n-1) are exactly the n+1 regions
    (−∞, p0), [p0, p1), ..., [p(n-1), +∞); with no known sets the single
    region runs from −∞ to +∞ and holds every real number. *)
Theorem build_intervals_regions self :
  let points := _get_critical_points self in
  let regions := _build_intervals points in
  strictly_ascending points
  ∧ (∀ q, QIn q points ↔ is_boundary self q)
  ∧ length regions = S (length points)
  ∧ Forall2 same_region regions (regions_spec points)
  ∧ (points ≠ [] → regions = regions_spec points)
  ∧ (known_sets self = ∅ →
       ∃ i, regions = [i] ∧ left i = NegInf ∧ right i = PosInf
            ∧ ∀ x : R, In_interval x i).
Proof.
  intros points regions. subst regions.
  destruct (critical_points_spec self) as [Hs Hq].
  split; [done|]. split; [done|].
  assert (points ≠ [] → _build_intervals points = regions_spec points) as Hne.
  { destruct points as [|p ps]; [done|]. intros _. apply build_intervals_nonempty. }
  split; [|split; [|split; [done|]]].
  - destruct points as [|p ps]; [done|]. rewrite Hne by done.
    simpl. by rewrite regions_from_length.
  - destruct points as [|p ps].
    + simpl. constructor; [|constructor].
      split; [done|]. split; [done|]. intros x. by unfold In_interval.
    + rewrite Hne by done. apply Forall2_same_length_lookup. split; [done|].
      intros i a b Ha Hb. rewrite Ha in Hb. injection Hb as <-.
      by split; [|split].
  - intros He. subst points. rewrite (critical_points_empty self He). simpl.
    eexists. split; [done|]. by repeat split.
Qed.

(** ** Classification of a region *)

Lemma build_intervals_region_like points :
  Forall region_like (_build_intervals points).
Proof.
  apply Forall_forall. intros i Hi. unfold _build_intervals in Hi.
  destruct points as [|p ps].
  - apply list_elem_of_singleton in Hi as ->. unfold region_like; simpl. auto.
  - rewrite !elem_of_app, !list_elem_of_singleton, list_elem_of_fmap in Hi.
    destruct Hi as [-> | [(k & -> & _) | ->]]; unfold region_like; simpl; auto.
Qed.

Lemma base_values_spec self x :
  base_values self (Fin x)
  = (λ lr : Q * Q, Qle_bool lr.1 x && Qle_bool x lr.2) <$> known_sets self.
Proof.
  apply map_eq. intros name. unfold base_values.
  rewrite map_lookup_imap, lookup_fmap. unfold _point_in_set.
  by destruct (known_sets self !! name) as [[l r]|].
Qed.

(** The tag the solver gives a region is the tag of the formula at the
    test point of the region. *)
Lemma get_constraint_at self i x :
  test_point i = Fin x →
  _get_constraint_for_interval self i = constraint_at self x.
Proof.
  intros Hx. unfold _get_constraint_for_interval, constraint_at.
  rewrite Hx, base_values_spec.
  unfold memberships_spec, meets_requirement.
  destruct (evaluate _ _) as [e0|]; simpl; [|done].
  destruct (evaluate _ _) as [e1|]; simpl; [|done].
  by destruct e0, e1, (formula_true self).
Qed.

Lemma example_critical_points :
  _get_critical_points example_solver = [5; 14; 23; 30]%Q.
Proof. vm_compute. reflexivity. Qed.

(** C2.  The solver is meant to evaluate the formula at a point strictly
    inside the region; next to an infinite end it takes the finite
    boundary minus or plus 1.0 in floating point.  For the formula
    (x ∈ P) ∨ (x ∈ A) with P = (1e17, 2e17) the region left of P is
    (-∞, 1e17); its test point 1e17 - 1.0 is 1e17, the boundary itself,
    which belongs to P.  There the formula holds whatever A is and the
    region gets the tag FREE, where at the point 1e17 - 1 the claim names
    the tag is MUST_INCLUDE.  Minimizing then returns the empty set,
    with which the formula is false at every point left of P. *)
Theorem get_constraint_for_interval_huge :
  LogicSolver_init huge_formula huge_known_sets "A" false true
  = OK huge_solver
  ∧ huge_region ∈ _build_intervals (_get_critical_points huge_solver)
  ∧ representative_spec huge_region = 99999999999999999%Q
  ∧ test_point huge_region = Fin 100000000000000000
  ∧ _get_constraint_for_interval huge_solver huge_region = OK FREE
  ∧ constraint_spec huge_solver huge_region = OK MUST_INCLUDE
  ∧ (∀ str_float,
       ∃ r self', solve str_float huge_solver = OK (r, self')
                  ∧ success r = true ∧ intervals r = [])
  ∧ evaluate (ast huge_solver) (memberships_spec huge_solver 0 false)
    = OK false.
Proof.
  split; [by vm_compute|].
  split; [vm_compute; left|].
  split; [by vm_compute|].
  split; [by vm_compute|].
  split; [by vm_compute|].
  split; [by vm_compute|].
  split; [|by vm_compute].
  intros str_float. unfold solve.
  assert (_analyze_intervals huge_solver
          = OK [mkConstrained huge_region FREE;
                mkConstrained
                  (mkInterval (Fin 100000000000000000)
                     (Fin 200000000000000000) true false) FREE;
                mkConstrained
                  (mkInterval (Fin 200000000000000000) PosInf true false)
                  FREE]) as -> by by vm_compute.
  cbn [res_bind]. eexists _, _. split; [reflexivity|]. split; reflexivity.
Qed.

(** ** The optimizer *)

Lemma init_inv formula ks target mx ft self :
  LogicSolver_init formula ks target mx ft = OK self →
  ops_ok (ast self) ∧ known_sets self = ks ∧ target_set self = target
  ∧ maximize self = mx ∧ formula_true self = ft
  ∧ parse_formula formula = OK (ast self).
Proof.
  unfold LogicSolver_init.
  destruct (parse_formula formula) as [node|] eqn:Hp; simpl; [|done].
  destruct (_validate _) as [[]|]; simpl; [|done].
  intros [= <-]. simpl. split; [by eapply parse_formula_ops_ok|done].
Qed.

Lemma get_constraint_total self i :
  ops_ok (ast self) → ∃ c, _get_constraint_for_interval self i = OK c.
Proof.
  intros Hok. unfold _get_constraint_for_interval.
  destruct (evaluate_total (ast self)
              (<[target_set self:=false]> (base_values self (test_point i))) Hok)
    as [e0 ->].
  destruct (evaluate_total (ast self)
              (<[target_set self:=true]> (base_values self (test_point i))) Hok)
    as [e1 ->].
  simpl. repeat case_match; eauto.
Qed.

Lemma analyze_loop_total self l :
  ops_ok (ast self) →
  ∃ cis, _analyze_loop self l = OK cis ∧ interval <$> cis = l.
Proof.
  intros Hok. induction l as [|i l (cis & IH & Hl)]; simpl; [by exists []|].
  destruct (get_constraint_total self i Hok) as [c ->]. rewrite IH. simpl.
  eexists. split; [done|]. by rewrite fmap_cons, Hl.
Qed.

Lemma analyze_loop_intervals self l cis :
  _analyze_loop self l = OK cis → interval <$> cis = l.
Proof.
  revert cis. induction l as [|i l IH]; intros cis; simpl.
  - by intros [= <-].
  - destruct (_get_constraint_for_interval self i) as [c|]; simpl; [|done].
    destruct (_analyze_loop self l) as [rest|]; simpl; [|done].
    intros [= <-]. by rewrite fmap_cons, (IH rest).
Qed.

Lemma first_impossible_Some l ci :
  first_impossible l = Some ci → ci ∈ l ∧ constraint ci = IMPOSSIBLE.
Proof.
  induction l as [|c l IH]; simpl; [done|]. case_decide.
  - intros [= <-]. split; [left|done].
  - intros H'. destruct (IH H'). split; [by right|done].
Qed.

Lemma first_impossible_None l :
  first_impossible l = None ↔ ∀ ci, ci ∈ l → constraint ci ≠ IMPOSSIBLE.
Proof.
  induction l as [|c l IH]; simpl.
  - split; [|done]. intros _ ci Hci. by apply elem_of_nil in Hci.
  - case_decide as Hc.
    + split; [done|]. intros H. exfalso. apply (H c); [left|done].
    + rewrite IH. split.
      * intros H ci Hci. apply elem_of_cons in Hci as [->|Hci]; auto.
      * intros H ci Hci. apply H. by right.
Qed.

Lemma optimize_success str_float self constrained :
  success (_optimize str_float self constrained).1
  = bool_decide (first_impossible constrained = None).
Proof.
  unfold _optimize. destruct (first_impossible constrained); [done|].
  rewrite bool_decide_eq_true_2 by done.
  destruct (_merge_intervals _); [done|].
  by destruct (_format_result _ _ _ _).
Qed.

(** C6.  On a constructed solver [solve] returns a result (it does not
    raise).  If some region of the analysis is IMPOSSIBLE the result has
    success = False, no intervals, and a message that ends with the
    notation of an IMPOSSIBLE region; otherwise success = True. *)
Theorem solve_impossible_region str_float formula ks target mx ft self :
  LogicSolver_init formula ks target mx ft = OK self →
  ∃ analysis r self',
    get_analysis self = OK analysis
    ∧ solve str_float self = OK (r, self')
    ∧ ((∃ ci, ci ∈ analysis ∧ constraint ci = IMPOSSIBLE) →
         success r = false ∧ intervals r = []
         ∧ ∃ ci, ci ∈ analysis ∧ constraint ci = IMPOSSIBLE
             ∧ message r
               = "Нет решения: невозможное ограничение на интервале "
                 +:+ Interval_repr str_float (interval ci))
    ∧ ((∀ ci, ci ∈ analysis → constraint ci ≠ IMPOSSIBLE) →
         success r = true).
Proof.
  intros Hi. apply init_inv in Hi as (Hok & _).
  unfold solve, get_analysis, _analyze_intervals.
  destruct (analyze_loop_total self
              (_build_intervals (_get_critical_points self)) Hok)
    as (analysis & Ha & _).
  rewrite Ha. simpl.
  exists analysis, (_optimize str_float self analysis).1,
    (_optimize str_float self analysis).2.
  split; [done|]. split; [by destruct (_optimize _ _ _)|]. split.
  - intros (ci & Hci & Himp). unfold _optimize.
    destruct (first_impossible analysis) as [ci'|] eqn:E.
    + simpl. apply first_impossible_Some in E as [? ?]. eauto 10.
    + exfalso. by eapply first_impossible_None in E.
  - intros Hall. rewrite optimize_success. apply bool_decide_eq_true_2.
    by apply first_impossible_None.
Qed.

Lemma solve_impossible_region_witness :
  LogicSolver_init example_formula example_known_sets "A" true false
  = OK (mkSolver example_formula (ast example_solver) example_known_sets "A"
          true false None None)
  ∧ ∃ analysis r self',
      get_analysis (mkSolver example_formula (ast example_solver)
                      example_known_sets "A" true false None None)
      = OK analysis
      ∧ solve example_str_float
          (mkSolver example_formula (ast example_solver) example_known_sets
             "A" true false None None)
        = OK (r, self')
      ∧ ((∃ ci, ci ∈ analysis ∧ constraint ci = IMPOSSIBLE) →
           success r = false ∧ intervals r = []
           ∧ ∃ ci, ci ∈ analysis ∧ constraint ci = IMPOSSIBLE
               ∧ message r
                 = "Нет решения: невозможное ограничение на интервале "
                   +:+ Interval_repr example_str_float (interval ci))
      ∧ ((∀ ci, ci ∈ analysis → constraint ci ≠ IMPOSSIBLE) →
           success r = true).
Proof.
  split; [apply example_init|].
  exact (solve_impossible_region example_str_float example_formula
           example_known_sets "A" true false _ (example_init true false)).
Defined.

(** ** Length accounting and the report *)

Lemma string_app_assoc (a b c : string) : (a +:+ b) +:+ c = a +:+ (b +:+ c).
Proof.
  induction a as [|x a IH]; [done|].
  change (String x ((a +:+ b) +:+ c) = String x (a +:+ (b +:+ c))).
  by rewrite IH.
Qed.

Lemma finite_length_from acc l :
  foldl fadd acc (Interval_length <$> List.filter is_finite_interval l)
  = float_lengths_from acc l.
Proof.
  revert acc. induction l as [|i l IH]; intros acc; [done|].
  cbn [List.filter float_lengths_from]. unfold is_finite_interval at 1.
  destruct (left i) as [|a|] eqn:El, (right i) as [|b|] eqn:Er;
    cbn [isinf negb andb]; try apply IH.
  cbn [fmap list_fmap foldl]. rewrite <- IH. do 2 f_equal.
  unfold Interval_length. by rewrite El, Er.
Qed.

Lemma finite_length_sum_spec l : finite_length_sum l = float_lengths_spec l.
Proof. apply finite_length_from. Qed.

Lemma is_infinite_iff r :
  is_infinite r = true ↔
  ∃ i, i ∈ intervals r ∧ (isinf (left i) = true ∨ isinf (right i) = true).
Proof.
  unfold is_infinite. rewrite existsb_exists. split.
  - intros (i & Hi & H). exists i. split; [by apply list_elem_of_In|].
    by apply orb_true_iff.
  - intros (i & Hi & H). exists i. split; [by apply list_elem_of_In|].
    by apply orb_true_iff.
Qed.

Lemma solve_inv str_float self r self' :
  solve str_float self = OK (r, self') →
  ∃ analysis,
    _analyze_intervals self = OK analysis
    ∧ _optimize str_float self analysis = (r, self').
Proof.
  unfold solve. destruct (_analyze_intervals self) as [analysis|]; [|done].
  simpl. intros [= H]. eauto.
Qed.

Lemma format_result_message str_float self i l total :
  (_format_result str_float self (i :: l) total).1
  = if negb (existsb (λ j, isinf (left j) || isinf (right j)) (i :: l))
    then result_body str_float self (i :: l)
         +:+ ", суммарная длина = " +:+ str_num str_float total
    else result_body str_float self (i :: l) +:+ " (бесконечное решение)".
Proof.
  unfold _format_result, result_body.
  destruct (foldl _ _ (i :: l)) as [[parts pmax] pmin].
  destruct (negb _); simpl; by rewrite ?string_app_assoc.
Qed.

Lemma optimize_success_inv str_float self analysis r self' :
  _optimize str_float self analysis = (r, self') → success r = true →
  let merged := _merge_intervals (collect_included self analysis) in
  first_impossible analysis = None
  ∧ intervals r = merged
  ∧ (merged = [] → total_length r = Fin 0)
  ∧ (merged ≠ [] →
       total_length r = finite_length_sum merged
       ∧ message r
         = (_format_result str_float self merged (finite_length_sum merged)).1).
Proof.
  unfold _optimize. destruct (first_impossible analysis).
  { intros [= <- _]. done. }
  destruct (_merge_intervals _) as [|i l] eqn:Em.
  - intros [= <- _] _. done.
  - destruct (_format_result _ _ _ _) as [msg s'] eqn:Ef.
    intros [= <- _] _. simpl. repeat split; try done.
Qed.

Lemma is_infinite_false r :
  (∀ i, i ∈ intervals r → isinf (left i) = false ∧ isinf (right i) = false) →
  is_infinite r = false.
Proof.
  intros H. destruct (is_infinite r) eqn:E; [|done].
  apply is_infinite_iff in E as (i & Hi & Hinf).
  destruct (H i Hi) as [Hl Hr]. rewrite Hl, Hr in Hinf. by destruct Hinf.
Qed.

Lemma tenths_solve :
  ∃ msg self',
    solve example_str_float tenths_solver
    = OK (mkResult true tenths_result_intervals
            (Fin (3602879701896397 # 9007199254740992)) msg, self').
Proof. eexists _, _. vm_compute. reflexivity. Qed.




(** ** Solving twice *)

Ltac same_inputs_subst H :=
  match type of H with
  | same_inputs ?s1 ?s2 =>
    destruct s1, s2; unfold same_inputs in H; simpl in H;
    destruct H as (? & ? & ? & ? & ? & ?); subst
  end.

(** The analysis reads the formula, the known sets, the target name and
    the formula_true flag, and nothing else of the solver object. *)
Lemma analyze_indep s1 s2 :
  ast s1 = ast s2 → known_sets s1 = known_sets s2 →
  target_set s1 = target_set s2 → formula_true s1 = formula_true s2 →
  _analyze_intervals s1 = _analyze_intervals s2.
Proof.
  destruct s1, s2. simpl. intros -> -> -> ->.
  unfold _analyze_intervals.
  change (_get_critical_points (mkSolver _ _ _ _ _ _ _ _))
    with (sorted Fin (collect_points (map_to_list known_sets1).*2 [])).
  generalize (_build_intervals
                (sorted Fin (collect_points (map_to_list known_sets1).*2 []))).
  intros l. induction l as [|i l IH]; [done|].
  cbn [_analyze_loop]. by rewrite IH.
Qed.

Lemma analyze_same s1 s2 :
  same_inputs s1 s2 → _analyze_intervals s1 = _analyze_intervals s2.
Proof. intros (_ & ? & ? & ? & _ & ?). by apply analyze_indep. Qed.

Lemma collect_included_same s1 s2 l :
  same_inputs s1 s2 → collect_included s1 l = collect_included s2 l.
Proof.
  intros H. same_inputs_subst H.
  induction l as [|i l IH]; [done|]. cbn [collect_included]. rewrite IH. done.
Qed.

Lemma format_result_same str_float s1 s2 l total :
  same_inputs s1 s2 →
  (_format_result str_float s1 l total).1
  = (_format_result str_float s2 l total).1
  ∧ same_inputs s1 (_format_result str_float s1 l total).2.
Proof.
  intros H. same_inputs_subst H. unfold _format_result.
  destruct l as [|i l]; [done|].
  destruct (foldl _ _ _) as [[parts pmax] pmin]. simpl.
  by destruct (isinf (left i) || isinf (right i) || existsb _ l).
Qed.

Lemma optimize_same str_float s1 s2 l :
  same_inputs s1 s2 →
  (_optimize str_float s1 l).1 = (_optimize str_float s2 l).1
  ∧ same_inputs s1 (_optimize str_float s1 l).2.
Proof.
  intros H. unfold _optimize.
  assert (same_inputs s1 s1) as Hrefl by done.
  destruct (first_impossible l); [done|].
  rewrite (collect_included_same s1 s2 l H).
  destruct (_merge_intervals _) as [|i m] eqn:Em; [done|].
  destruct (format_result_same str_float s1 s2 (i :: m)
              (finite_length_sum (i :: m)) H) as (Hmsg & Hsame).
  destruct (_format_result str_float s1 _ _) as [m1 s1'].
  destruct (_format_result str_float s2 _ _) as [m2 s2'].
  simpl in *. by subst.
Qed.

(** C9.  A second call of [solve] on the solver object left by a first
    call returns the same success flag, intervals, total length and
    message. *)
Theorem solve_twice_same str_float self r1 self1 :
  solve str_float self = OK (r1, self1) →
  ∃ r2 self2,
    solve str_float self1 = OK (r2, self2)
    ∧ success r2 = success r1 ∧ intervals r2 = intervals r1
    ∧ total_length r2 = total_length r1 ∧ message r2 = message r1.
Proof.
  intros Hs. apply solve_inv in Hs as (analysis & Ha & Ho).
  destruct (optimize_same str_float self self analysis) as [_ Hsame]; [done|].
  rewrite Ho in Hsame. simpl in Hsame.
  assert (same_inputs self1 self) as Hsym.
  { destruct Hsame as (? & ? & ? & ? & ? & ?). by repeat split. }
  unfold solve. rewrite (analyze_same self1 self Hsym), Ha. simpl.
  destruct (optimize_same str_float self1 self analysis Hsym) as [Heq _].
  rewrite Ho in Heq. simpl in Heq.
  destruct (_optimize str_float self1 analysis) as [r2 self2].
  simpl in Heq. subst r2. by exists r1, self2.
Qed.

Lemma solve_twice_same_witness :
  solve example_str_float example_solver
  = OK (mkResult true example_result_intervals (Fin 16)
          "A = [5/1, 14/1] ∪ [23/1, 30/1]  max: 9 min: 7, суммарная длина = 16/1",
        mkSolver example_formula (ast example_solver) example_known_sets "A"
          true true (Some 9%Z) (Some 7%Z))
  ∧ ∃ r2 self2,
      solve example_str_float
        (mkSolver example_formula (ast example_solver) example_known_sets "A"
           true true (Some 9%Z) (Some 7%Z))
      = OK (r2, self2)
      ∧ success r2 = true ∧ intervals r2 = example_result_intervals
      ∧ total_length r2 = Fin 16
      ∧ message r2
        = "A = [5/1, 14/1] ∪ [23/1, 30/1]  max: 9 min: 7, суммарная длина = 16/1".
Proof.
  assert (solve example_str_float example_solver
          = OK (mkResult true example_result_intervals (Fin 16)
                  "A = [5/1, 14/1] ∪ [23/1, 30/1]  max: 9 min: 7, суммарная длина = 16/1",
                mkSolver example_formula (ast example_solver)
                  example_known_sets "A" true true (Some 9%Z) (Some 7%Z)))
    as H by (vm_compute; reflexivity).
  split; [exact H|].
  exact (solve_twice_same example_str_float example_solver _ _ H).
Defined.

(** ** Merging keeps the points *)

Lemma Qle_bool_false a b : Qle_bool a b = false → (b < a)%Q.
Proof.
  intros H. apply Qnot_le_lt. intros Hle. apply Qle_bool_iff in Hle. congruence.
Qed.

Ltac q2r :=
  repeat match goal with
  | H : Qle_bool _ _ = true |- _ => apply Qle_bool_iff, Qle_Rle in H
  | H : Qle_bool _ _ = false |- _ => apply Qle_bool_false, Qlt_Rlt in H
  end.

Lemma merged_with_points x last_ cur :
  region_like last_ → region_like cur →
  num_le (left last_) (left cur) = true →
  num_le (left cur) (right last_) = true →
  region_like (merged_with last_ cur)
  ∧ (In_interval x (merged_with last_ cur) ↔
     In_interval x last_ ∨ In_interval x cur).
Proof.
  destruct last_ as [ll lr llc lrc], cur as [cl cr clc crc].
  unfold region_like, merged_with, In_interval, above_left, below_right,
    num_max, num_lt.
  simpl. intros (-> & Hll & Hlr & Hlc) (-> & Hcl & Hcr & Hcc) Hle1 Hle2.
  destruct ll as [|ll|], lr as [|lr|], cl as [|cl|], cr as [|cr|];
    simpl in *; try done;
    repeat match goal with
    | H : _ ∨ _ |- _ => destruct H as [H|H]; try done; subst
    end;
    repeat match goal with
    | |- context [Qle_bool ?a ?b] => destruct (Qle_bool a b) eqn:?
    end;
    simpl; q2r; (split; [auto|]); try tauto; try lra.
Qed.

Lemma In_intervals_app x l1 l2 :
  In_intervals x (l1 ++ l2) ↔ In_intervals x l1 ∨ In_intervals x l2.
Proof.
  unfold In_intervals. split.
  - intros (i & Hi & Hx). apply elem_of_app in Hi as [Hi|Hi]; eauto.
  - intros [(i & Hi & Hx)|(i & Hi & Hx)]; exists i;
      (split; [apply elem_of_app; auto|done]).
Qed.

Lemma In_intervals_cons x i l :
  In_intervals x (i :: l) ↔ In_interval x i ∨ In_intervals x l.
Proof.
  unfold In_intervals. split.
  - intros (j & Hj & Hx). apply elem_of_cons in Hj as [->|Hj]; eauto.
  - intros [Hx|(j & Hj & Hx)].
    + exists i. split; [left|done].
    + exists j. split; [by right|done].
Qed.

Lemma In_intervals_nil x : In_intervals x [] ↔ False.
Proof.
  unfold In_intervals. split; [|done].
  intros (i & Hi & _). by apply elem_of_nil in Hi.
Qed.

Lemma In_intervals_elem x l1 l2 :
  (∀ i, i ∈ l1 ↔ i ∈ l2) → In_intervals x l1 ↔ In_intervals x l2.
Proof.
  intros H. unfold In_intervals.
  split; intros (i & Hi & Hx); exists i; (split; [by apply H|done]).
Qed.

Lemma merge_fold_points x rest :
  ∀ front last_,
    region_like last_ → Forall region_like rest →
    Forall (λ c, num_le (left last_) (left c) = true) rest →
    ascending left rest →
    In_intervals x
      ((foldl _merge_step (front, last_) rest).1
       ++ [(foldl _merge_step (front, last_) rest).2])
    ↔ In_intervals x (front ++ [last_]) ∨ In_intervals x rest.
Proof.
  induction rest as [|cur rest IH]; intros front last_ Hl Hr Hle Hasc.
  - simpl. rewrite In_intervals_nil. tauto.
  - apply Forall_cons in Hr as [Hcur Hr]. apply Forall_cons in Hle as [Hlc Hle].
    apply StronglySorted_inv in Hasc as [Hasc Hcr].
    cbn [foldl]. unfold _merge_step at 2 4.
    destruct (num_le (left cur) (right last_)) eqn:E.
    + fold (merged_with last_ cur).
      destruct (merged_with_points x last_ cur Hl Hcur Hlc E) as [Hm Hx].
      rewrite IH; [|done..].
      rewrite !In_intervals_app, !In_intervals_cons, !In_intervals_nil. tauto.
    + rewrite IH; [|done..].
      rewrite !In_intervals_app, !In_intervals_cons, !In_intervals_nil. tauto.
Qed.

Lemma merge_intervals_points x l :
  Forall region_like l →
  In_intervals x (_merge_intervals l) ↔ In_intervals x l.
Proof.
  intros Hl. unfold _merge_intervals.
  pose proof (sorted_ascending left l) as Hasc.
  assert (∀ i, i ∈ sorted left l ↔ i ∈ l) as Hel by (intros; apply sorted_elem).
  rewrite <- (In_intervals_elem x _ _ Hel).
  destruct (sorted left l) as [|first rest]; [done|].
  apply StronglySorted_inv in Hasc as [Hasc Hfirst].
  assert (Forall region_like (first :: rest)) as Hrl.
  { apply Forall_forall. intros i Hi. apply Hel in Hi.
    by eapply Forall_forall in Hl. }
  apply Forall_cons in Hrl as [Hf Hrest].
  pose proof (merge_fold_points x rest [] first Hf Hrest Hfirst Hasc) as H.
  destruct (foldl _merge_step ([], first) rest) as [front last_].
  simpl in H. rewrite H.
  rewrite In_intervals_cons, In_intervals_nil, In_intervals_cons. tauto.
Qed.

(** ** Minimize against maximize *)

Lemma should_include_spec self ci :
  should_include self ci = tag_included (maximize self) (constraint ci).
Proof. unfold should_include. by destruct (constraint ci). Qed.

Lemma collect_included_spec self constrained :
  collect_included self constrained
  = interval <$> List.filter
                   (λ ci, tag_included (maximize self) (constraint ci))
                   constrained.
Proof.
  induction constrained as [|ci l IH]; [done|].
  cbn [collect_included List.filter]. rewrite should_include_spec.
  destruct (tag_included _ _); [rewrite fmap_cons|]; by rewrite IH.
Qed.

Lemma collect_included_elem self constrained i :
  i ∈ collect_included self constrained ↔
  ∃ ci, ci ∈ constrained ∧ interval ci = i
        ∧ tag_included (maximize self) (constraint ci) = true.
Proof.
  rewrite collect_included_spec, list_elem_of_fmap. split.
  - intros (ci & -> & Hci). apply list_elem_of_In, filter_In in Hci as [Hci Ht].
    exists ci. by rewrite list_elem_of_In.
  - intros (ci & Hci & <- & Ht). exists ci. split; [done|].
    apply list_elem_of_In, filter_In. by rewrite <- list_elem_of_In.
Qed.

(** The points of a successful result are the points of the regions whose
    tag the optimizer includes. *)
Lemma solve_points str_float self r self' analysis x :
  _analyze_intervals self = OK analysis →
  _optimize str_float self analysis = (r, self') → success r = true →
  In_intervals x (intervals r) ↔
  ∃ ci, ci ∈ analysis ∧ In_interval x (interval ci)
        ∧ tag_included (maximize self) (constraint ci) = true.
Proof.
  intros Ha Ho Hok.
  pose proof (optimize_success_inv _ _ _ _ _ Ho Hok) as H. simpl in H.
  destruct H as (_ & -> & _).
  assert (Forall region_like (collect_included self analysis)) as Hrl.
  { apply Forall_forall. intros i Hi.
    apply collect_included_elem in Hi as (ci & Hci & <- & _).
    unfold _analyze_intervals in Ha. apply analyze_loop_intervals in Ha.
    eapply Forall_forall; [apply build_intervals_region_like|].
    rewrite <- Ha. by apply list_elem_of_fmap_2. }
  rewrite merge_intervals_points by done. unfold In_intervals. split.
  - intros (i & Hi & Hx).
    apply collect_included_elem in Hi as (ci & Hci & <- & Ht). eauto.
  - intros (ci & Hci & Hx & Ht). exists (interval ci). split; [|done].
    apply collect_included_elem. eauto.
Qed.

(** C7.  When both solves succeed on the same formula, known sets and
    formula_true flag, every real point of the result for maximize=False
    lies in the result for maximize=True.  The optimizer takes exactly the
    regions tagged MUST_INCLUDE, and those tagged FREE when maximize is
    true; the points of each result are the points of those regions. *)
Theorem minimize_subset_maximize str_float formula ks target ft
    smin smax rmin rmax smin' smax' :
  LogicSolver_init formula ks target false ft = OK smin →
  LogicSolver_init formula ks target true ft = OK smax →
  solve str_float smin = OK (rmin, smin') →
  solve str_float smax = OK (rmax, smax') →
  success rmin = true → success rmax = true →
  (∀ x : R, In_intervals x (intervals rmin) → In_intervals x (intervals rmax))
  ∧ (∀ self constrained,
       collect_included self constrained
       = interval <$> List.filter
                        (λ ci, tag_included (maximize self) (constraint ci))
                        constrained)
  ∧ ∃ analysis,
      get_analysis smin = OK analysis ∧ get_analysis smax = OK analysis
      ∧ (∀ x : R, In_intervals x (intervals rmin) ↔
           ∃ ci, ci ∈ analysis ∧ In_interval x (interval ci)
                 ∧ constraint ci = MUST_INCLUDE)
      ∧ (∀ x : R, In_intervals x (intervals rmax) ↔
           ∃ ci, ci ∈ analysis ∧ In_interval x (interval ci)
                 ∧ (constraint ci = MUST_INCLUDE ∨ constraint ci = FREE)).
Proof.
  intros Hi1 Hi2 Hs1 Hs2 Hok1 Hok2.
  apply init_inv in Hi1 as (_ & Hk1 & Ht1 & Hm1 & Hf1 & Hp1).
  apply init_inv in Hi2 as (_ & Hk2 & Ht2 & Hm2 & Hf2 & Hp2).
  apply solve_inv in Hs1 as (a1 & Ha1 & Ho1).
  apply solve_inv in Hs2 as (a2 & Ha2 & Ho2).
  assert (a1 = a2) as <-.
  { assert (_analyze_intervals smin = _analyze_intervals smax) as He
      by (apply analyze_indep; congruence).
    congruence. }
  assert (∀ x : R, In_intervals x (intervals rmin) ↔
            ∃ ci, ci ∈ a1 ∧ In_interval x (interval ci)
                  ∧ constraint ci = MUST_INCLUDE) as Hmin.
  { intros x. rewrite (solve_points _ _ _ _ _ x Ha1 Ho1 Hok1), Hm1.
    split; intros (ci & ? & ? & Ht); exists ci; (split; [done|split; [done|]]).
    - by destruct (constraint ci).
    - by rewrite Ht. }
  assert (∀ x : R, In_intervals x (intervals rmax) ↔
            ∃ ci, ci ∈ a1 ∧ In_interval x (interval ci)
                  ∧ (constraint ci = MUST_INCLUDE ∨ constraint ci = FREE))
    as Hmax.
  { intros x. rewrite (solve_points _ _ _ _ _ x Ha2 Ho2 Hok2), Hm2.
    split; intros (ci & ? & ? & Ht); exists ci; (split; [done|split; [done|]]).
    - destruct (constraint ci); auto; done.
    - by destruct Ht as [-> | ->]. }
  split; [|split; [apply collect_included_spec|]].
  - intros x Hx. apply Hmax. apply Hmin in Hx as (ci & ? & ? & ?). eauto.
  - exists a1. unfold get_analysis. done.
Qed.

Lemma implies_init mx :
  LogicSolver_init implies_formula implies_known_sets "A" mx true
  = OK (implies_solver mx None None).
Proof. destruct mx; vm_compute; reflexivity. Qed.

Lemma implies_solve_min :
  solve example_str_float (implies_solver false None None)
  = OK (implies_min_result, implies_solver false (Some 25%Z) (Some 25%Z)).
Proof. vm_compute. reflexivity. Qed.

Lemma implies_solve_max :
  solve example_str_float (implies_solver true None None)
  = OK (implies_max_result,
        implies_solver true (Some (-1)%Z) (Some 1000000%Z)).
Proof. vm_compute. reflexivity. Qed.

Lemma minimize_subset_maximize_witness :
  (LogicSolver_init implies_formula implies_known_sets "A" false true
   = OK (implies_solver false None None)
   ∧ LogicSolver_init implies_formula implies_known_sets "A" true true
     = OK (implies_solver true None None)
   ∧ solve example_str_float (implies_solver false None None)
     = OK (implies_min_result, implies_solver false (Some 25%Z) (Some 25%Z))
   ∧ solve example_str_float (implies_solver true None None)
     = OK (implies_max_result,
           implies_solver true (Some (-1)%Z) (Some 1000000%Z)))
  ∧ (∀ x : R, In_intervals x (intervals implies_min_result) →
              In_intervals x (intervals implies_max_result))
  ∧ (∀ self constrained,
       collect_included self constrained
       = interval <$> List.filter
                        (λ ci, tag_included (maximize self) (constraint ci))
                        constrained)
  ∧ ∃ analysis,
      get_analysis (implies_solver false None None) = OK analysis
      ∧ get_analysis (implies_solver true None None) = OK analysis
      ∧ (∀ x : R, In_intervals x (intervals implies_min_result) ↔
           ∃ ci, ci ∈ analysis ∧ In_interval x (interval ci)
                 ∧ constraint ci = MUST_INCLUDE)
      ∧ (∀ x : R, In_intervals x (intervals implies_max_result) ↔
           ∃ ci, ci ∈ analysis ∧ In_interval x (interval ci)
                 ∧ (constraint ci = MUST_INCLUDE ∨ constraint ci = FREE)).
Proof.
  split.
  { split; [apply implies_init|]. split; [apply implies_init|].
    split; [apply implies_solve_min|apply implies_solve_max]. }
  exact (minimize_subset_maximize example_str_float implies_formula
           implies_known_sets "A" true _ _ _ _ _ _
           (implies_init false) (implies_init true)
           implies_solve_min implies_solve_max eq_refl eq_refl).
Defined.

(** ** Precedence and associativity *)

Lemma known_op_level op :
  known_op op →
  op_level op ≤ 4 ∧ level_op (op_level op) = op
  ∧ level_tok (op_level op) = op_token op.
Proof.
  unfold known_op. rewrite !elem_of_cons, elem_of_nil.
  intros [->|[->|[->|[->|[->|[]]]]]];
    (split; [unfold op_level; repeat case_decide; lia|by vm_compute]).
Qed.

Lemma render_at_above k t : k ≤ binding t → render_at k t = render t.
Proof.
  intros H. unfold render_at.
  destruct (binding t <? k) eqn:E; [|done]. apply Nat.ltb_lt in E. lia.
Qed.

Lemma render_at_below k t :
  binding t < k →
  render_at k t = tok LPAREN "(" :: render t ++ [tok RPAREN ")"].
Proof.
  intros H. unfold render_at.
  destruct (binding t <? k) eqn:E; [done|]. apply Nat.ltb_ge in E. lia.
Qed.

Lemma render_at_succ k t : binding t ≠ k → render_at (S k) t = render_at k t.
Proof.
  intros H. unfold render_at.
  destruct (binding t <? k) eqn:E1, (binding t <? S k) eqn:E2; try done.
  - apply Nat.ltb_lt in E1. apply Nat.ltb_ge in E2. lia.
  - apply Nat.ltb_ge in E1. apply Nat.ltb_lt in E2. lia.
Qed.

Lemma render_binary op l r :
  render (BinaryNode op l r)
  = render_at (op_level op) l ++ [tok (op_token op) op]
    ++ render_at (S (op_level op)) r.
Proof. done. Qed.

Lemma spine_render k t :
  k ≤ 4 → ops_ok t →
  render_at k t = render_at (S k) (spine k t).1 ++ rights k (spine k t).2.
Proof.
  intros Hk4. induction t as [v s|o _|op l IHl r _]; intros Hok.
  - simpl. rewrite app_nil_r. by rewrite render_at_succ by (simpl; lia).
  - simpl. rewrite app_nil_r. by rewrite render_at_succ by (simpl; lia).
  - destruct Hok as (Hop & Hl & _). cbn [spine]. case_decide as Hk.
    + subst k. cbn [fst snd].
      destruct (known_op_level op Hop) as (_ & Hname & Htok).
      rewrite render_at_above by (simpl; lia).
      rewrite render_binary, (IHl Hl). unfold rights.
      rewrite flat_map_app. cbn [flat_map]. rewrite app_nil_r.
      rewrite Hname, Htok. by rewrite <- !app_assoc.
    + cbn [fst snd rights flat_map]. rewrite app_nil_r.
      by rewrite render_at_succ.
Qed.

Lemma spine_fold k t :
  ops_ok t → foldl (BinaryNode (level_op k)) (spine k t).1 (spine k t).2 = t.
Proof.
  induction t as [v s|o _|op l IHl r _]; intros Hok; [done..|].
  destruct Hok as (Hop & Hl & _). cbn [spine]. case_decide as Hk; [|done].
  cbn [fst snd]. rewrite foldl_app. cbn [foldl]. rewrite (IHl Hl).
  destruct (known_op_level op Hop) as (_ & Hname & _). by rewrite <- Hk, Hname.
Qed.

Lemma spine_parts k t :
  ops_ok t →
  (spine k t = (t, []))
  ∨ (ops_ok (spine k t).1 ∧ size (spine k t).1 < size t
     ∧ ∀ r, r ∈ (spine k t).2 → ops_ok r ∧ size r < size t).
Proof.
  induction t as [v s|o _|op l IHl r _]; intros Hok; [by left..|].
  destruct Hok as (Hop & Hl & Hr). cbn [spine]. case_decide as Hk; [|by left].
  right. cbn [fst snd size].
  destruct (IHl Hl) as [->|(Hh & Hs & Hrs)]; cbn [fst snd].
  - split; [done|]. split; [lia|]. intros r' Hr'.
    apply list_elem_of_singleton in Hr' as ->. split; [done|lia].
  - split; [done|]. split; [lia|]. intros r' Hr'.
    apply elem_of_app in Hr' as [Hr'|Hr'].
    + destruct (Hrs r' Hr'). split; [done|lia].
    + apply list_elem_of_singleton in Hr' as ->. split; [done|lia].
Qed.

Lemma rights_length k rs :
  length rs ≤ length (rights k rs)
  ∧ ∀ r, r ∈ rs → length (render_at (S k) r) ≤ length (rights k rs).
Proof.
  unfold rights. induction rs as [|r rs [IH1 IH2]]; cbn [flat_map].
  - split; [done|]. intros r Hr. by apply elem_of_nil in Hr.
  - split; [rewrite length_app; cbn [length]; lia|].
    intros r' Hr'. rewrite length_app. cbn [length].
    apply elem_of_cons in Hr' as [->|Hr']; [lia|].
    specialize (IH2 r' Hr'). lia.
Qed.

(** The loop of a binary level run over the right operands of a spine. *)
Lemma binary_loop_rights k operand rs :
  k ≤ 4 →
  ∀ fuel acc rest,
    length rs ≤ fuel → stops k rest →
    (∀ r rest', r ∈ rs → stops (S k) rest' →
       operand (render_at (S k) r ++ rest') = OK (r, rest')) →
    binary_loop (level_tok k) (level_op k) operand fuel acc
      (rights k rs ++ rest)
    = OK (foldl (BinaryNode (level_op k)) acc rs, rest).
Proof.
  intros Hk4.
  assert (tok_level (level_tok k) = Some k) as Hlt.
  { destruct k as [|[|[|[|[|]]]]]; try done. lia. }
  induction rs as [|r rs IH]; intros fuel acc rest Hf Hst Hop.
  - cbn [rights flat_map app foldl]. destruct rest as [|t rest]; [done|].
    destruct fuel; cbn [binary_loop current res_bind]; case_decide as Ht;
      try done; exfalso; simpl in Hst;
      rewrite Ht in Hst; specialize (Hst _ Hlt); lia.
  - destruct fuel as [|fuel]; [simpl in Hf; lia|].
    cbn [rights flat_map]. fold (rights k rs).
    rewrite <- !app_comm_cons, <- app_assoc.
    cbn [binary_loop current res_bind _advance tail type tok].
    rewrite decide_True by done.
    rewrite (Hop r (rights k rs ++ rest)).
    + cbn [res_bind foldl]. apply IH; [simpl in Hf; lia|done|].
      intros r' rest' Hr'. apply Hop. by right.
    + left.
    + destruct rs as [|r2 rs].
      * cbn [rights flat_map app]. destruct rest as [|t rest]; [done|].
        simpl in *. intros j Hj. specialize (Hst j Hj). lia.
      * cbn [rights flat_map app]. simpl. intros j Hj.
        rewrite Hlt in Hj. injection Hj as <-. lia.
Qed.

Lemma stops_rights k rs rest :
  k ≤ 4 → stops k rest → stops (S k) (rights k rs ++ rest).
Proof.
  intros Hk Hst. destruct rs as [|r rs].
  - cbn [rights flat_map app]. destruct rest as [|t rest]; [done|].
    simpl in *. intros j Hj. specialize (Hst j Hj). lia.
  - cbn [rights flat_map app]. simpl. intros j Hj.
    destruct k as [|[|[|[|[|]]]]]; simpl in Hj; try lia;
      injection Hj as <-; lia.
Qed.

Lemma stops_mono k k' rest : k ≤ k' → stops k rest → stops k' rest.
Proof.
  intros Hk. destruct rest as [|t rest]; [done|]. simpl.
  intros Hst j Hj. specialize (Hst j Hj). lia.
Qed.

Section RoundTrip.
Variable equiv : parser.
Variable f : nat.
Hypothesis Hequiv : ∀ t rest,
  ops_ok t → length (render t) < f → stops 0 rest →
  equiv (render t ++ rest) = OK (t, rest).

Lemma parenthesised_parses t rest :
  ops_ok t → S (S (length (render t))) ≤ f →
  _parse_atom equiv ((tok LPAREN "(" :: render t ++ [tok RPAREN ")"]) ++ rest)
  = OK (t, rest).
Proof.
  intros Hok Hlen. unfold _parse_atom.
  cbn [app current res_bind type tok _advance tail].
  rewrite decide_True by done. rewrite <- app_assoc.
  rewrite Hequiv; [|done|lia|by simpl]. done.
Qed.

Lemma atom_parses t : ops_ok t → parses_at f (_parse_atom equiv) 6 t.
Proof.
  intros Hok Hlen rest Hst. destruct t as [v s|o|op l r].
  - done.
  - rewrite render_at_below in * by (simpl; lia).
    apply parenthesised_parses; [done|].
    rewrite length_cons, length_app in Hlen. cbn [length] in Hlen. lia.
  - destruct Hok as (Hop & Hl & Hr).
    destruct (known_op_level op Hop) as (Hle & _).
    rewrite render_at_below in * by (simpl; lia).
    apply parenthesised_parses; [done|].
    rewrite length_cons, length_app in Hlen.
    cbn [length] in Hlen. lia.
Qed.

Lemma not_parses t :
  ops_ok t →
  (∀ o, t = NotNode o → parses_at f (_parse_not equiv) 5 o) →
  parses_at f (_parse_not equiv) 5 t.
Proof.
  intros Hok Ho Hlen rest Hst. destruct t as [v s|o|op l r].
  - done.
  - rewrite render_at_above in * by (simpl; lia).
    cbn [render app _parse_not type tok]. rewrite decide_True by done.
    fold (render_at 5 o). rewrite (Ho o eq_refl); [done| |done].
    cbn [render length] in Hlen. fold (render_at 5 o) in Hlen. lia.
  - destruct (known_op_level op (proj1 Hok)) as (Hle & _).
    pose proof (atom_parses _ Hok) as Ha. unfold parses_at in Ha.
    rewrite render_at_below in * by (simpl; lia).
    cbn [app _parse_not type tok]. rewrite decide_False by done.
    apply Ha; [done|]. by eapply stops_mono; [|done]; lia.
Qed.

Lemma binary_parses k operand t :
  k ≤ 4 → ops_ok t →
  parses_at f operand (S k) t →
  (∀ t', ops_ok t' → size t' < size t → parses_at f operand (S k) t') →
  parses_at f (binary_level (level_tok k) (level_op k) operand f) k t.
Proof.
  intros Hk Hok Ht Hsmall Hlen rest Hst.
  pose proof (spine_fold k t Hok) as Hfold.
  rewrite spine_render in * by done.
  rewrite length_app in Hlen.
  destruct (rights_length k (spine k t).2) as [Hn Hr].
  assert (parses_at f operand (S k) (spine k t).1
          ∧ ∀ r, r ∈ (spine k t).2 → parses_at f operand (S k) r)
    as [Hh Hrs].
  { destruct (spine_parts k t Hok) as [->|(? & ? & Hparts)]; cbn [fst snd].
    - split; [done|]. intros r Hr'. by apply elem_of_nil in Hr'.
    - split; [by apply Hsmall|]. intros r Hr'.
      destruct (Hparts r Hr'). by apply Hsmall. }
  unfold binary_level. rewrite <- app_assoc.
  rewrite Hh; [|lia|by apply stops_rights]. cbn [res_bind].
  rewrite binary_loop_rights; [by rewrite Hfold|done|lia|done|].
  intros r rest' Hr' Hst'. apply Hrs; [done| |done].
  specialize (Hr r Hr'). lia.
Qed.

Lemma levels_parse n :
  ∀ t, size t < n → ops_ok t →
    parses_at f (_parse_atom equiv) 6 t
    ∧ parses_at f (_parse_not equiv) 5 t
    ∧ parses_at f (_parse_and equiv f) 4 t
    ∧ parses_at f (_parse_or equiv f) 3 t
    ∧ parses_at f (_parse_xor equiv f) 2 t
    ∧ parses_at f (_parse_implies equiv f) 1 t
    ∧ parses_at f (binary_level EQUIV "EQUIV" (_parse_implies equiv f) f) 0 t.
Proof.
  induction n as [|n IH]; intros t Hn Hok; [lia|].
  assert (∀ t', ops_ok t' → size t' < size t → size t' < n) as Hlt
    by (intros; lia).
  assert (parses_at f (_parse_atom equiv) 6 t) as H6 by by apply atom_parses.
  assert (parses_at f (_parse_not equiv) 5 t) as H5.
  { apply not_parses; [done|]. intros o ->. apply IH; [simpl in Hn; lia|done]. }
  assert (parses_at f (_parse_and equiv f) 4 t) as H4.
  { apply (binary_parses 4); [lia|done..|].
    intros t' ? ?. apply IH; auto. }
  assert (parses_at f (_parse_or equiv f) 3 t) as H3.
  { apply (binary_parses 3); [lia|done..|].
    intros t' ? ?. apply IH; auto. }
  assert (parses_at f (_parse_xor equiv f) 2 t) as H2.
  { apply (binary_parses 2); [lia|done..|].
    intros t' ? ?. apply IH; auto. }
  assert (parses_at f (_parse_implies equiv f) 1 t) as H1.
  { apply (binary_parses 1); [lia|done..|].
    intros t' ? ?. apply IH; auto. }
  repeat (split; [done|]).
  apply (binary_parses 0); [lia|done..|].
  intros t' ? ?. apply IH; auto.
Qed.
End RoundTrip.

Lemma parse_equiv_render f :
  ∀ t rest,
    ops_ok t → length (render t) < f → stops 0 rest →
    _parse_equiv f (render t ++ rest) = OK (t, rest).
Proof.
  induction f as [|f IH]; intros t rest Hok Hlen Hst; [lia|].
  destruct (levels_parse (_parse_equiv f) f IH (S (size t)) t)
    as (_ & _ & _ & _ & _ & _ & H0); [lia|done|].
  unfold parses_at in H0. rewrite render_at_above in H0 by lia.
  apply H0; [lia|done].
Qed.

Lemma parse_render t :
  ops_ok t → parse (render t ++ [tok EOF EmptyString]) = OK t.
Proof.
  intros Hok. unfold parse.
  rewrite parse_equiv_render; [done|done| |by simpl].
  rewrite length_app. simpl. lia.
Qed.

(** C4.  The parser binds EQUIV < IMPLIES < XOR < OR < AND < NOT, each
    binary level to the left: every formula, written with parentheses only
    around an operand that binds looser than its operator (or equally, on
    the right), is parsed back to itself; in particular a op1 b op2 c
    groups to the left unless op2 binds tighter than op1; and the text
    A ∈ P ∨ A ∈ Q ∧ ¬A ∈ R parses to OR(A∈P, AND(A∈Q, NOT(A∈R))). *)
Theorem parse_precedence :
  (∀ t, ops_ok t → parse (render t ++ [tok EOF EmptyString]) = OK t)
  ∧ (∀ op1 op2 va sa vb sb vc sc,
       known_op op1 → known_op op2 →
       let a := MembershipNode va sa in
       let b := MembershipNode vb sb in
       let c := MembershipNode vc sc in
       parse (render a ++ [tok (op_token op1) op1] ++ render b
              ++ [tok (op_token op2) op2] ++ render c
              ++ [tok EOF EmptyString])
       = OK (if op_level op2 <=? op_level op1
             then BinaryNode op2 (BinaryNode op1 a b) c
             else BinaryNode op1 a (BinaryNode op2 b c)))
  ∧ parse_formula "A ∈ P ∨ A ∈ Q ∧ ¬A ∈ R"
    = OK (BinaryNode "OR" (MembershipNode "A" "P")
            (BinaryNode "AND" (MembershipNode "A" "Q")
               (NotNode (MembershipNode "A" "R")))).
Proof.
  split; [exact parse_render|]. split; [|by vm_compute].
  intros op1 op2 va sa vb sb vc sc H1 H2 a b c.
  destruct (known_op_level op1 H1) as (? & _).
  destruct (known_op_level op2 H2) as (? & _).
  destruct (op_level op2 <=? op_level op1) eqn:E.
  - apply Nat.leb_le in E.
    rewrite <- (parse_render (BinaryNode op2 (BinaryNode op1 a b) c))
      by (simpl; tauto).
    f_equal. subst a b c. cbn [render binding].
    replace (op_level op1 <? op_level op2) with false
      by (symmetry; apply Nat.ltb_ge; lia).
    replace (6 <? op_level op1) with false by (symmetry; apply Nat.ltb_ge; lia).
    replace (6 <=? op_level op1) with false by (symmetry; apply Nat.leb_gt; lia).
    replace (6 <=? op_level op2) with false by (symmetry; apply Nat.leb_gt; lia).
    cbn [in_parens]. by rewrite <- !app_assoc.
  - apply Nat.leb_gt in E.
    rewrite <- (parse_render (BinaryNode op1 a (BinaryNode op2 b c)))
      by (simpl; tauto).
    f_equal. subst a b c. cbn [render binding].
    replace (op_level op2 <=? op_level op1) with false
      by (symmetry; apply Nat.leb_gt; lia).
    replace (6 <? op_level op1) with false by (symmetry; apply Nat.ltb_ge; lia).
    replace (6 <? op_level op2) with false by (symmetry; apply Nat.ltb_ge; lia).
    replace (6 <=? op_level op2) with false by (symmetry; apply Nat.leb_gt; lia).
    cbn [in_parens]. by rewrite <- !app_assoc.
Qed.

(** * Further properties *)

(** ** The lexer's token list *)

Lemma eof_ended_tail t ts : eof_ended (t :: ts) → type t ≠ EOF → eof_ended ts.
Proof.
  intros (pre & e & Heq & He) Ht. destruct pre as [|p pre].
  - simpl in Heq. injection Heq as -> ->. done.
  - simpl in Heq. injection Heq as -> ->. by exists pre, e.
Qed.

Lemma eof_ended_nonempty ts : eof_ended ts → ts ≠ [].
Proof. intros (pre & e & -> & _). by destruct pre. Qed.

Lemma first_match_not_EOF cs t n :
  first_match TOKEN_PATTERNS cs = Some (Some t, n) → t ≠ EOF.
Proof.
  unfold TOKEN_PATTERNS.
  repeat (cbn [first_match];
          destruct (match_pattern _ cs); [by intros [= <- _]|]).
  done.
Qed.


Lemma tokenize_shape cs :
  ∀ skip pos toks,
    _tokenize cs skip pos = OK toks →
    ∃ body,
      toks = body ++ [mkToken EOF EmptyString (pos + length cs)]
      ∧ Forall (λ t, type t ≠ EOF ∧ pos ≤ position t < pos + length cs) body
      ∧ StronglySorted (λ a b, position a < position b) body.
Proof.
  induction cs as [|c cs IH]; intros skip pos toks; cbn [_tokenize].
  - intros [= <-]. exists []. rewrite Nat.add_0_r.
    split; [done|]. split; constructor.
  - assert (∀ k toks',
              _tokenize cs k (S pos) = OK toks' →
              ∃ body,
                toks' = body ++ [mkToken EOF EmptyString (pos + length (c :: cs))]
                ∧ Forall (λ t, type t ≠ EOF
                               ∧ S pos ≤ position t < pos + length (c :: cs))
                    body
                ∧ StronglySorted (λ a b, position a < position b) body)
      as Hrest.
    { intros k toks' Hk. destruct (IH k (S pos) toks' Hk) as (body & -> & Hf & Hs).
      exists body. cbn [length]. rewrite <- Nat.add_succ_comm.
      split; [done|]. split; [|done]. cbn [length].
      eapply Forall_impl; [exact Hf|]. simpl. intros t [? ?]. split; [done|lia]. }
    assert (∀ toks',
              (∃ body,
                 toks' = body ++ [mkToken EOF EmptyString (pos + length (c :: cs))]
                 ∧ Forall (λ t, type t ≠ EOF
                                ∧ S pos ≤ position t < pos + length (c :: cs))
                     body
                 ∧ StronglySorted (λ a b, position a < position b) body) →
              ∃ body,
                toks' = body ++ [mkToken EOF EmptyString (pos + length (c :: cs))]
                ∧ Forall (λ t, type t ≠ EOF
                               ∧ pos ≤ position t < pos + length (c :: cs))
                    body
                ∧ StronglySorted (λ a b, position a < position b) body)
      as Hweak.
    { intros toks' (body & -> & Hf & Hs). exists body.
      split; [done|]. split; [|done].
      eapply Forall_impl; [exact Hf|]. simpl. intros t [? ?]. split; [done|lia]. }
    destruct skip as [|k]; [|by intros H; apply Hweak, (Hrest k)].
    destruct (first_match TOKEN_PATTERNS (c :: cs)) as [[ty n]|] eqn:Hm; [|done].
    destruct (_tokenize cs (Nat.pred n) (S pos)) as [toks'|] eqn:Ht;
      cbn [res_bind]; [|done].
    destruct (Hrest _ _ Ht) as (body & -> & Hf & Hs).
    destruct ty as [t|]; intros [= <-].
    + exists (mkToken t (spelling (take n (c :: cs))) pos :: body).
      split; [done|]. split.
      * constructor.
        -- simpl. split; [by eapply first_match_not_EOF|]. lia.
        -- eapply Forall_impl; [exact Hf|]. simpl. intros t' [? ?]. split; [done|lia].
      * constructor; [done|].
        eapply Forall_impl; [exact Hf|]. simpl. intros t' [? ?]. lia.
    + apply Hweak. by exists body.
Qed.

Lemma Lexer_eof_ended text toks : Lexer text = OK toks → eof_ended toks.
Proof.
  intros H. apply tokenize_shape in H as (body & -> & _). by eexists _, _.
Qed.

(** X1.  The token list of a successful [Lexer] run is a run of non-EOF
    tokens at strictly increasing positions inside the text, closed by one
    EOF token whose position is the number of characters of the text. *)
Theorem Lexer_tokens_shape text toks :
  Lexer text = OK toks →
  ∃ body,
    toks = body ++ [mkToken EOF EmptyString (length (utf8_chars text))]
    ∧ Forall (λ t, type t ≠ EOF ∧ position t < length (utf8_chars text)) body
    ∧ StronglySorted (λ a b, position a < position b) body.
Proof.
  intros H. apply tokenize_shape in H as (body & -> & Hf & Hs).
  exists body. split; [done|]. split; [|done].
  eapply Forall_impl; [exact Hf|]. simpl. intros t [? ?]. split; [done|lia].
Qed.

Lemma Lexer_tokens_shape_witness :
  Lexer "x ∈ P"
  = OK [mkToken IDENTIFIER "x" 0; mkToken IN "∈" 2; mkToken IDENTIFIER "P" 4;
        mkToken EOF EmptyString 5]
  ∧ ∃ body,
      [mkToken IDENTIFIER "x" 0; mkToken IN "∈" 2; mkToken IDENTIFIER "P" 4;
       mkToken EOF EmptyString 5]
      = body ++ [mkToken EOF EmptyString (length (utf8_chars "x ∈ P"))]
      ∧ Forall (λ t, type t ≠ EOF ∧ position t < length (utf8_chars "x ∈ P"))
          body
      ∧ StronglySorted (λ a b, position a < position b) body.
Proof.
  assert (Lexer "x ∈ P"
          = OK [mkToken IDENTIFIER "x" 0; mkToken IN "∈" 2;
                mkToken IDENTIFIER "P" 4; mkToken EOF EmptyString 5])
    as H by (vm_compute; reflexivity).
  split; [exact H|]. exact (Lexer_tokens_shape "x ∈ P" _ H).
Defined.

(** ** The parser never reads past EOF *)

Lemma expect_keeps_eof ty ts :
  eof_ended ts → ty ≠ EOF →
  match _expect ty ts with
  | OK (_, ts') => eof_ended ts'
  | Err IndexError => False
  | Err _ => True
  end.
Proof.
  intros He Hty. unfold _expect. destruct ts as [|t ts].
  { by apply eof_ended_nonempty in He. }
  cbn [current res_bind]. case_decide as Hd; [done|].
  apply (eof_ended_tail t); [done|].
  destruct (decide (type t = ty)); [congruence|done].
Qed.

Lemma parse_membership_keeps_eof : keeps_eof _parse_membership.
Proof.
  intros ts He. unfold _parse_membership.
  pose proof (expect_keeps_eof IDENTIFIER ts He) as H1.
  destruct (_expect IDENTIFIER ts) as [[t1 ts1]|e]; cbn [res_bind];
    [|by destruct e; auto].
  specialize (H1 ltac:(done)).
  pose proof (expect_keeps_eof IN ts1 H1) as H2.
  destruct (_expect IN ts1) as [[t2 ts2]|e]; cbn [res_bind];
    [|by destruct e; auto].
  specialize (H2 ltac:(done)).
  pose proof (expect_keeps_eof IDENTIFIER ts2 H2) as H3.
  destruct (_expect IDENTIFIER ts2) as [[t3 ts3]|e]; cbn [res_bind];
    [|by destruct e; auto].
  by apply H3.
Qed.

Lemma parse_atom_keeps_eof equiv :
  keeps_eof equiv → keeps_eof (_parse_atom equiv).
Proof.
  intros Hq ts He. unfold _parse_atom. destruct ts as [|t ts].
  { by apply eof_ended_nonempty in He. }
  cbn [current res_bind]. case_decide as Hd.
  - unfold _advance; cbn [tail].
    assert (eof_ended ts) as He' by (apply (eof_ended_tail t); [done|congruence]).
    specialize (Hq ts He').
    destruct (equiv ts) as [[a ts1]|e]; cbn [res_bind]; [|done].
    pose proof (expect_keeps_eof RPAREN ts1 Hq) as H2.
    destruct (_expect RPAREN ts1) as [[t2 ts2]|e]; cbn [res_bind];
      [by apply H2|by destruct e; auto].
  - by apply parse_membership_keeps_eof.
Qed.

Lemma parse_not_keeps_eof equiv :
  keeps_eof equiv → keeps_eof (_parse_not equiv).
Proof.
  intros Hq ts. induction ts as [|t ts IH]; intros He.
  { by apply eof_ended_nonempty in He. }
  cbn [_parse_not]. case_decide as Hd.
  - assert (eof_ended ts) as He' by (apply (eof_ended_tail t); [done|congruence]).
    specialize (IH He').
    by destruct (_parse_not equiv ts) as [[a ts1]|e].
  - by apply parse_atom_keeps_eof.
Qed.

Lemma binary_loop_keeps_eof ty op operand :
  ty ≠ EOF → keeps_eof operand →
  ∀ fuel left_ ts, eof_ended ts →
    match binary_loop ty op operand fuel left_ ts with
    | OK (_, ts') => eof_ended ts'
    | Err IndexError => False
    | Err _ => True
    end.
Proof.
  intros Hty Hp fuel. induction fuel as [|fuel IH]; intros left_ ts He;
    (destruct ts as [|t ts]; [by apply eof_ended_nonempty in He|]);
    cbn [binary_loop current res_bind]; case_decide as Hd; try done.
  unfold _advance; cbn [tail].
  assert (eof_ended ts) as He' by (apply (eof_ended_tail t); [done|congruence]).
  specialize (Hp ts He').
  destruct (operand ts) as [[r ts1]|e]; cbn [res_bind]; [|done].
  by apply IH.
Qed.

Lemma binary_level_keeps_eof ty op operand fuel :
  ty ≠ EOF → keeps_eof operand →
  keeps_eof (binary_level ty op operand fuel).
Proof.
  intros Hty Hp ts He. unfold binary_level. specialize (Hp ts He) as Ho.
  destruct (operand ts) as [[l ts1]|e]; cbn [res_bind]; [|done].
  by apply binary_loop_keeps_eof.
Qed.

Lemma parse_equiv_keeps_eof fuel : keeps_eof (_parse_equiv fuel).
Proof.
  induction fuel as [|fuel IH]; [by intros ts _|].
  change (keeps_eof
            (binary_level EQUIV "EQUIV"
               (_parse_implies (_parse_equiv fuel) fuel) fuel)).
  unfold _parse_implies, _parse_xor, _parse_or, _parse_and.
  repeat (apply binary_level_keeps_eof; [done|]).
  by apply parse_not_keeps_eof.
Qed.

Lemma parse_no_IndexError tokens :
  eof_ended tokens → parse tokens ≠ Err IndexError.
Proof.
  intros He. unfold parse.
  pose proof (parse_equiv_keeps_eof (S (length tokens)) tokens He) as H.
  destruct (_parse_equiv _ tokens) as [[a ts]|e]; cbn [res_bind].
  - destruct ts as [|t ts]; [by apply eof_ended_nonempty in H|].
    cbn [current res_bind]. by case_decide.
  - by destruct e.
Qed.

(** X2.  The depth of the interpreter's call stack aside, which the
    embedding does not bound, [parse_formula] either returns an AST or
    raises [SyntaxError]: on the lexer's token lists the parser never
    indexes past the end ([IndexError]), the lexer and the parser raise
    nothing else themselves, and the descent ends on every text. *)
Theorem parse_formula_ok_or_SyntaxError formula :
  (∃ node, parse_formula formula = OK node)
  ∨ (∃ msg, parse_formula formula = Err (SyntaxError msg)).
Proof.
  pose proof (parse_formula_not_ValueError formula) as Hv.
  pose proof (parse_formula_fuel_enough formula) as Hf.
  unfold parse_formula in *.
  destruct (Lexer formula) as [toks|e] eqn:Hl; cbn [res_bind] in *.
  - pose proof (parse_no_IndexError toks (Lexer_eof_ended _ _ Hl)) as Hi.
    destruct (parse toks) as [node|e]; [eauto|].
    destruct e as [msg|msg| |]; [eauto|by destruct (Hv msg)|done|done].
  - apply tokenize_err in Hl as [msg ->]. eauto.
Qed.

(** ** The parser reads token types and identifier texts only *)

Lemma current_same_kind ts1 ts2 :
  Forall2 same_kind ts1 ts2 →
  match current ts1, current ts2 with
  | OK t1, OK t2 => same_kind t1 t2 ∧ Forall2 same_kind (_advance ts1) (_advance ts2)
  | Err e1, Err e2 => same_exn e1 e2
  | _, _ => False
  end.
Proof. by destruct 1. Qed.

Lemma expect_same_kind ty ts1 ts2 :
  Forall2 same_kind ts1 ts2 →
  match _expect ty ts1, _expect ty ts2 with
  | OK (t1, r1), OK (t2, r2) =>
    same_kind t1 t2 ∧ Forall2 same_kind r1 r2 ∧ type t1 = ty
  | Err e1, Err e2 => same_exn e1 e2
  | _, _ => False
  end.
Proof.
  intros H. unfold _expect. destruct H as [|t1 t2 r1 r2 [Ht Hv] Hr]; [done|].
  cbn [current res_bind]. rewrite <- Ht.
  case_decide as Hd; [done|]. cbn [_advance tail].
  split; [done|]. split; [done|]. by destruct (decide (type t1 = ty)).
Qed.

Lemma parse_membership_respects : respects_kind _parse_membership.
Proof.
  intros ts1 ts2 H. unfold _parse_membership.
  pose proof (expect_same_kind IDENTIFIER ts1 ts2 H) as H1.
  destruct (_expect IDENTIFIER ts1) as [[a1 r1]|], (_expect IDENTIFIER ts2)
    as [[a2 r2]|]; cbn [res_bind]; try done.
  destruct H1 as ([_ Hv1] & H1 & Hty1).
  pose proof (expect_same_kind IN r1 r2 H1) as H2.
  destruct (_expect IN r1) as [[b1 s1]|], (_expect IN r2) as [[b2 s2]|];
    cbn [res_bind]; try done.
  destruct H2 as (_ & H2 & _).
  pose proof (expect_same_kind IDENTIFIER s1 s2 H2) as H3.
  destruct (_expect IDENTIFIER s1) as [[c1 u1]|], (_expect IDENTIFIER s2)
    as [[c2 u2]|]; cbn [res_bind]; try done.
  destruct H3 as ([_ Hv3] & H3 & Hty3).
  simpl. split; [|done]. by rewrite (Hv1 Hty1), (Hv3 Hty3).
Qed.

Lemma parse_atom_respects equiv :
  respects_kind equiv → respects_kind (_parse_atom equiv).
Proof.
  intros Hq ts1 ts2 H. unfold _parse_atom.
  pose proof (current_same_kind ts1 ts2 H) as Hc.
  destruct (current ts1) as [t1|] eqn:E1, (current ts2) as [t2|] eqn:E2;
    cbn [res_bind]; try done.
  destruct Hc as ([Ht _] & Hadv). rewrite <- Ht. case_decide.
  - specialize (Hq _ _ Hadv).
    destruct (equiv (_advance ts1)) as [[a1 r1]|],
      (equiv (_advance ts2)) as [[a2 r2]|]; cbn [res_bind]; try done.
    destruct Hq as [<- Hr].
    pose proof (expect_same_kind RPAREN r1 r2 Hr) as H2.
    destruct (_expect RPAREN r1) as [[b1 s1]|], (_expect RPAREN r2)
      as [[b2 s2]|]; cbn [res_bind]; try done.
    by destruct H2 as (_ & H2 & _).
  - by apply parse_membership_respects.
Qed.

Lemma parse_not_respects equiv :
  respects_kind equiv → respects_kind (_parse_not equiv).
Proof.
  intros Hq ts1 ts2 H.
  induction H as [|t1 t2 r1 r2 [Ht Hv] Hr IH]; [done|].
  cbn [_parse_not]. rewrite <- Ht. case_decide.
  - destruct (_parse_not equiv r1) as [[a1 s1]|],
      (_parse_not equiv r2) as [[a2 s2]|]; cbn [res_bind]; try done.
    destruct IH as [<- ?]. done.
  - apply parse_atom_respects; [done|]. by constructor.
Qed.

Lemma binary_loop_respects ty op operand :
  respects_kind operand →
  ∀ fuel left_ ts1 ts2,
    Forall2 same_kind ts1 ts2 →
    same_outcome (binary_loop ty op operand fuel left_ ts1)
      (binary_loop ty op operand fuel left_ ts2).
Proof.
  intros Hp fuel. induction fuel as [|fuel IH]; intros left_ ts1 ts2 H;
    pose proof (current_same_kind ts1 ts2 H) as Hc;
    cbn [binary_loop];
    (destruct (current ts1) as [t1|], (current ts2) as [t2|];
     cbn [res_bind]; try done);
    destruct Hc as ([Ht _] & Hadv); rewrite <- Ht; case_decide; try done.
  specialize (Hp _ _ Hadv).
  destruct (operand (_advance ts1)) as [[a1 r1]|],
    (operand (_advance ts2)) as [[a2 r2]|]; cbn [res_bind]; try done.
  destruct Hp as [<- Hr]. by apply IH.
Qed.

Lemma binary_level_respects ty op operand fuel :
  respects_kind operand → respects_kind (binary_level ty op operand fuel).
Proof.
  intros Hp ts1 ts2 H. unfold binary_level. specialize (Hp _ _ H) as Ho.
  destruct (operand ts1) as [[a1 r1]|], (operand ts2) as [[a2 r2]|];
    cbn [res_bind]; try done.
  destruct Ho as [<- Hr]. by apply binary_loop_respects.
Qed.

Lemma parse_equiv_respects fuel : respects_kind (_parse_equiv fuel).
Proof.
  induction fuel as [|fuel IH]; [by intros ts1 ts2 _|].
  change (respects_kind
            (binary_level EQUIV "EQUIV"
               (_parse_implies (_parse_equiv fuel) fuel) fuel)).
  unfold _parse_implies, _parse_xor, _parse_or, _parse_and.
  repeat apply binary_level_respects. by apply parse_not_respects.
Qed.

Lemma parse_respects_kind ts1 ts2 :
  Forall2 same_kind ts1 ts2 →
  match parse ts1, parse ts2 with
  | OK a1, OK a2 => a1 = a2
  | Err e1, Err e2 => same_exn e1 e2
  | _, _ => False
  end.
Proof.
  intros H. unfold parse. rewrite (Forall2_length _ _ _ H).
  pose proof (parse_equiv_respects (S (length ts2)) ts1 ts2 H) as Hq.
  destruct (_parse_equiv _ ts1) as [[a1 r1]|], (_parse_equiv _ ts2)
    as [[a2 r2]|]; cbn [res_bind]; try done.
  destruct Hq as [<- Hr].
  pose proof (current_same_kind r1 r2 Hr) as Hc.
  destruct (current r1) as [t1|], (current r2) as [t2|];
    cbn [res_bind]; try done.
  destruct Hc as ([Ht _] & _). rewrite <- Ht. by case_decide.
Qed.

(** X3.  The parser reads only the type of each token and the text of
    identifier tokens: two token lists that agree on these give the same
    AST, or both fail with the same kind of exception.  Positions and the
    spelling of operators (ASCII or Unicode) only show in error messages. *)
Theorem parse_same_kind ts1 ts2 :
  Forall2 same_kind ts1 ts2 →
  match parse ts1, parse ts2 with
  | OK a1, OK a2 => a1 = a2
  | Err e1, Err e2 => same_exn e1 e2
  | _, _ => False
  end.
Proof. exact (parse_respects_kind ts1 ts2). Qed.

Lemma parse_same_kind_witness :
  Forall2 same_kind ascii_tokens unicode_tokens
  ∧ match parse ascii_tokens, parse unicode_tokens with
    | OK a1, OK a2 => a1 = a2
    | Err e1, Err e2 => same_exn e1 e2
    | _, _ => False
    end.
Proof.
  assert (Forall2 same_kind ascii_tokens unicode_tokens) as H.
  { unfold ascii_tokens, unicode_tokens.
    repeat (constructor; [by split|]). constructor. }
  split; [exact H|]. exact (parse_same_kind _ _ H).
Defined.

(** ** The evaluator reads the sets of the formula only *)

(** X4.  [evaluate] depends on the mapping only through the set names
    that occur in the node ([get_sets_from_ast]), each read with the
    default [False]: two mappings that agree there give the same outcome. *)
Theorem evaluate_agree node (v1 v2 : gmap string bool) :
  (∀ name, name ∈ get_sets_from_ast node →
     default false (v1 !! name) = default false (v2 !! name)) →
  evaluate node v1 = evaluate node v2.
Proof.
  induction node as [v s|o IH|op l IHl r IHr]; intros H; cbn [evaluate].
  - f_equal. apply H. simpl. by apply elem_of_singleton.
  - by rewrite IH.
  - rewrite IHl, IHr; [done|..]; intros name Hn; apply H; simpl;
      apply elem_of_union; auto.
Qed.

Lemma evaluate_agree_witness :
  (∀ name, name ∈ get_sets_from_ast (ast example_solver) →
     default false ((<["P" := true]> ∅ : gmap string bool) !! name)
     = default false ((<["Z" := true]> (<["P" := true]> ∅) : gmap string bool)
                        !! name))
  ∧ evaluate (ast example_solver) (<["P" := true]> ∅)
    = evaluate (ast example_solver) (<["Z" := true]> (<["P" := true]> ∅)).
Proof.
  assert (∀ name, name ∈ get_sets_from_ast (ast example_solver) →
            default false ((<["P" := true]> ∅ : gmap string bool) !! name)
            = default false
                ((<["Z" := true]> (<["P" := true]> ∅) : gmap string bool)
                   !! name)) as H.
  { intros name Hn. simpl in Hn.
    rewrite !elem_of_union, !elem_of_singleton in Hn.
    destruct Hn as [[-> | ->] | ->]; by vm_compute. }
  split; [exact H|]. exact (evaluate_agree _ _ _ H).
Defined.

(** ** What [_merge_intervals] returns *)

Lemma ascii_tokens_lexed : Lexer "x in P & x in Q" = OK ascii_tokens.
Proof. vm_compute. reflexivity. Qed.

Lemma unicode_tokens_lexed : Lexer "x ∈ P ∧ x ∈ Q" = OK unicode_tokens.
Proof. vm_compute. reflexivity. Qed.

Lemma sorted_insert_last {A} (key : A → num) x l :
  Forall (λ y, num_le (key y) (key x) = true) l →
  sorted_insert key x l = l ++ [x].
Proof.
  induction 1 as [|y l Hy _ IH]; [done|]. cbn [sorted_insert].
  unfold num_lt. rewrite Hy. cbn [negb]. by rewrite IH.
Qed.

Lemma sorted_ascending_id {A} (key : A → num) l :
  ascending key l → sorted key l = l.
Proof.
  unfold sorted. intros H.
  assert (∀ acc, StronglySorted (λ a b, num_le (key a) (key b) = true) (acc ++ l) →
                 foldl (λ acc x, sorted_insert key x acc) acc l = acc ++ l) as Hg.
  { clear H. induction l as [|x l IH]; intros acc Hs; cbn [foldl].
    - by rewrite app_nil_r.
    - rewrite sorted_insert_last.
      + rewrite IH; rewrite <- app_assoc; done.
      + apply Forall_forall. intros y Hy.
        apply StronglySorted_app in Hs as (Hx & _ & _). apply Hx; [done|left]. }
  by apply (Hg []).
Qed.

Lemma sorted_length {A} (key : A → num) l : length (sorted key l) = length l.
Proof.
  unfold sorted.
  assert (∀ x acc, length (sorted_insert key x acc) = S (length acc)) as Hi.
  { intros x acc. induction acc as [|y acc IH]; [done|]. cbn [sorted_insert].
    destruct (num_lt _ _); cbn [length]; by rewrite ?IH. }
  assert (∀ acc, length (foldl (λ acc x, sorted_insert key x acc) acc l)
                 = length acc + length l) as Hg.
  { induction l as [|x l IH]; intros acc; cbn [foldl length]; [lia|].
    rewrite IH, Hi. lia. }
  by rewrite Hg.
Qed.

Lemma num_lt_le_trans a b c :
  num_lt a b = true → num_le b c = true → num_lt a c = true.
Proof.
  unfold num_lt. rewrite !negb_true_iff. intros Hab Hbc.
  destruct (num_le c a) eqn:E; [|done].
  by rewrite (num_le_trans _ _ _ Hbc E) in Hab.
Qed.

Lemma merge_fold_separated rest :
  ∀ front last_,
    separated front → Forall (λ f, left_of f last_) front →
    Forall (λ c, num_le (left last_) (left c) = true) rest →
    ascending left rest →
    separated ((foldl _merge_step (front, last_) rest).1
               ++ [(foldl _merge_step (front, last_) rest).2])
    ∧ length ((foldl _merge_step (front, last_) rest).1
              ++ [(foldl _merge_step (front, last_) rest).2])
      ≤ length front + 1 + length rest.
Proof.
  induction rest as [|cur rest IH]; intros front last_ Hs Hf Hle Hasc.
  - cbn [foldl fst snd]. split; [|rewrite length_app; simpl; lia].
    apply StronglySorted_app_2; [|done|repeat constructor].
    intros f l Hfm Hl. apply list_elem_of_singleton in Hl as ->.
    by eapply Forall_forall in Hf.
  - apply Forall_cons in Hle as [Hlc Hle].
    apply StronglySorted_inv in Hasc as [Hasc Hcr].
    cbn [foldl]. unfold _merge_step at 2 4 6 8.
    destruct (num_le (left cur) (right last_)) eqn:E.
    + destruct (IH front
                  (mkInterval (left last_) (num_max (right last_) (right cur))
                     (left_closed last_)
                     (if num_lt (right last_) (right cur)
                      then right_closed cur else right_closed last_)))
        as [H1 H2]; [done|done|done|done|].
      split; [done|]. rewrite !length_app in *. cbn [length] in *. lia.
    + assert (num_lt (right last_) (left cur) = true) as Hlt
        by (unfold num_lt; by rewrite E).
      destruct (IH (front ++ [last_]) cur) as [H1 H2].
      * apply StronglySorted_app_2; [|done|repeat constructor].
        intros f l Hfm Hl. apply list_elem_of_singleton in Hl as ->.
        by eapply Forall_forall in Hf.
      * apply Forall_app. split; [|by repeat constructor].
        eapply Forall_impl; [exact Hf|]. intros f [Hfl Hfr]. split.
        -- by eapply num_le_trans.
        -- by eapply num_lt_le_trans.
      * done.
      * done.
      * split; [done|]. rewrite !length_app in *. cbn [length] in *. lia.
Qed.

Lemma merge_fold_id rest :
  ∀ front last_,
    separated (last_ :: rest) →
    (foldl _merge_step (front, last_) rest).1
    ++ [(foldl _merge_step (front, last_) rest).2]
    = front ++ last_ :: rest.
Proof.
  induction rest as [|cur rest IH]; intros front last_ Hs; [done|].
  apply StronglySorted_inv in Hs as [Hs Hl].
  apply Forall_cons in Hl as [[_ Hlt] _].
  cbn [foldl]. unfold _merge_step at 2 4.
  unfold num_lt in Hlt. apply negb_true_iff in Hlt. rewrite Hlt.
  rewrite IH by done. by rewrite <- app_assoc.
Qed.

Lemma separated_ascending l : separated l → ascending left l.
Proof.
  unfold separated, ascending. induction 1 as [|a l _ IH Ha]; constructor;
    [done|]. eapply Forall_impl; [exact Ha|]. by intros b [? _].
Qed.

Lemma merge_intervals_shape l :
  separated (_merge_intervals l)
  ∧ length (_merge_intervals l) ≤ length l
  ∧ (_merge_intervals l = [] ↔ l = [])
  ∧ _merge_intervals (_merge_intervals l) = _merge_intervals l.
Proof.
  assert (separated (_merge_intervals l)
          ∧ length (_merge_intervals l) ≤ length l
          ∧ (_merge_intervals l = [] ↔ l = [])) as (Hs & Hl & He).
  { unfold _merge_intervals.
    pose proof (sorted_ascending left l) as Hasc.
    pose proof (sorted_length left l) as Hlen.
    destruct (sorted left l) as [|first rest].
    - split; [constructor|]. split; [simpl; lia|].
      split; [|done]. intros _. by destruct l.
    - apply StronglySorted_inv in Hasc as [Hasc Hfirst].
      destruct (merge_fold_separated rest [] first) as [H1 H2];
        [constructor|constructor|done|done|].
      destruct (foldl _merge_step ([], first) rest) as [front last_].
      cbn [fst snd] in *. split; [done|].
      split; [cbn [length] in *; lia|].
      split; [by destruct front|]. intros ->. done. }
  split; [done|]. split; [done|]. split; [done|].
  unfold _merge_intervals at 1.
  rewrite (sorted_ascending_id left _ (separated_ascending _ Hs)).
  destruct (_merge_intervals l) as [|first rest]; [done|].
  pose proof (merge_fold_id rest [] first Hs) as H.
  by destruct (foldl _merge_step ([], first) rest) as [front last_].
Qed.

(** X5.  Whatever list it is given, [_merge_intervals] returns intervals
    each of which ends strictly before the next one starts (so no two of
    them touch or overlap), in ascending order; it returns no more
    intervals than it was given, an empty list only for an empty list, and
    merging its result again changes nothing. *)
Theorem merge_intervals_separated l :
  separated (_merge_intervals l)
  ∧ length (_merge_intervals l) ≤ length l
  ∧ (_merge_intervals l = [] ↔ l = [])
  ∧ _merge_intervals (_merge_intervals l) = _merge_intervals l.
Proof. apply merge_intervals_shape. Qed.

(** ** The regions partition the real line *)

Lemma regions_from_cover p ps (x : R) :
  (Q2R p <= x)%R → ∃ i, i ∈ regions_from p ps ∧ In_interval x i.
Proof.
  revert p. induction ps as [|q qs IH]; intros p Hp; cbn [regions_from].
  - eexists. split; [left|]. by split.
  - destruct (Rlt_le_dec x (Q2R q)) as [Hlt|Hge].
    + eexists. split; [left|]. by split.
    + destruct (IH q Hge) as (i & Hi & Hx). exists i. split; [by right|done].
Qed.

Lemma regions_from_lower p ps j (x : R) :
  strictly_ascending (p :: ps) → j ∈ regions_from p ps → In_interval x j →
  (Q2R p <= x)%R.
Proof.
  revert p. induction ps as [|q qs IH]; intros p Hs Hj Hx;
    cbn [regions_from] in Hj.
  - apply list_elem_of_singleton in Hj as ->. by destruct Hx.
  - apply StronglySorted_inv in Hs as [Hs Hp].
    apply elem_of_cons in Hj as [->|Hj]; [by destruct Hx|].
    apply Forall_cons in Hp as [Hpq _]. apply Qlt_Rlt in Hpq.
    specialize (IH q Hs Hj Hx). lra.
Qed.

Lemma regions_from_unique p ps i j (x : R) :
  strictly_ascending (p :: ps) →
  i ∈ regions_from p ps → j ∈ regions_from p ps →
  In_interval x i → In_interval x j → i = j.
Proof.
  revert p. induction ps as [|q qs IH]; intros p Hs Hi Hj Hxi Hxj;
    cbn [regions_from] in Hi, Hj.
  - apply list_elem_of_singleton in Hi as ->.
    by apply list_elem_of_singleton in Hj as ->.
  - apply StronglySorted_inv in Hs as [Hs _].
    apply elem_of_cons in Hi as [->|Hi], Hj as [->|Hj]; [done| | |by eapply IH].
    + pose proof (regions_from_lower q qs j x Hs Hj Hxj).
      destruct Hxi as [_ Hr]. unfold below_right in Hr; simpl in Hr. lra.
    + pose proof (regions_from_lower q qs i x Hs Hi Hxi).
      destruct Hxj as [_ Hr]. unfold below_right in Hr; simpl in Hr. lra.
Qed.

Lemma regions_partition_points points (x : R) :
  strictly_ascending points →
  ∃ i, i ∈ _build_intervals points ∧ In_interval x i
       ∧ ∀ j, j ∈ _build_intervals points → In_interval x j → j = i.
Proof.
  intros Hs. destruct points as [|p ps].
  - eexists. split; [left|]. split; [done|].
    intros j Hj _. by apply list_elem_of_singleton in Hj.
  - rewrite build_intervals_nonempty. cbn [regions_spec].
    destruct (Rlt_le_dec x (Q2R p)) as [Hlt|Hge].
    + eexists. split; [left|]. split; [by split|].
      intros j Hj Hxj. apply elem_of_cons in Hj as [->|Hj]; [done|].
      pose proof (regions_from_lower p ps j x Hs Hj Hxj). lra.
    + destruct (regions_from_cover p ps x Hge) as (i & Hi & Hx).
      exists i. split; [by right|]. split; [done|].
      intros j Hj Hxj. apply elem_of_cons in Hj as [->|Hj].
      * destruct Hxj as [_ Hr]. unfold below_right in Hr; simpl in Hr. lra.
      * by eapply regions_from_unique.
Qed.

(** X6.  The regions built from the critical points partition the real
    line: every real number lies in exactly one region. *)
Theorem regions_partition self (x : R) :
  ∃ i, i ∈ _build_intervals (_get_critical_points self)
       ∧ In_interval x i
       ∧ ∀ j, j ∈ _build_intervals (_get_critical_points self) →
              In_interval x j → j = i.
Proof.
  apply regions_partition_points. apply critical_points_spec.
Qed.

(** ** Regions and the known sets *)

Lemma num_le_Fin a b : num_le (Fin a) (Fin b) = true ↔ (a <= b)%Q.
Proof. simpl. apply Qle_bool_iff. Qed.

Lemma regions_from_region_of pre p ps :
  strictly_ascending (pre ++ p :: ps) →
  Forall (region_of (pre ++ p :: ps)) (regions_from p ps).
Proof.
  revert pre p. induction ps as [|q0 qs IH]; intros pre p Hs;
    cbn [regions_from];
    pose proof Hs as Hs'; apply StronglySorted_app in Hs' as (Hcross & _ & Hp);
    apply StronglySorted_inv in Hp as [Htl Hp].
  - constructor; [|constructor]. split; [done|]. split; [|split].
    + intros q Hq. left. apply num_le_Fin.
      apply elem_of_app in Hq as [Hq|Hq].
      * apply Qlt_le_weak, Hcross; [done|left].
      * apply list_elem_of_singleton in Hq as ->. apply Qle_refl.
    + simpl. intros l [= <-]. apply elem_of_app. right. left.
    + done.
  - apply Forall_cons in Hp as [Hpq Hp]. constructor.
    + split; [by apply num_lt_Fin|]. split; [|split].
      * intros q Hq. apply elem_of_app in Hq as [Hq|Hq].
        { left. apply num_le_Fin, Qlt_le_weak, Hcross; [done|left]. }
        apply elem_of_cons in Hq as [->|Hq].
        { left. apply num_le_Fin, Qle_refl. }
        right. apply num_le_Fin.
        apply elem_of_cons in Hq as [->|Hq]; [apply Qle_refl|].
        apply StronglySorted_inv in Htl as [_ Hq0].
        eapply Forall_forall in Hq0; [|done]. by apply Qlt_le_weak.
      * simpl. intros l [= <-]. apply elem_of_app. right. left.
      * simpl. intros r [= <-]. apply elem_of_app. right. right. left.
    + replace (pre ++ p :: q0 :: qs) with ((pre ++ [p]) ++ q0 :: qs)
        by (by rewrite <- app_assoc).
      apply IH. by rewrite <- app_assoc.
Qed.

Lemma build_intervals_region_of points :
  strictly_ascending points →
  Forall (region_of points) (_build_intervals points).
Proof.
  intros Hs. destruct points as [|p ps].
  - constructor; [|constructor]. split; [done|]. split; [|done].
    intros q Hq. by apply elem_of_nil in Hq.
  - rewrite build_intervals_nonempty. cbn [regions_spec]. constructor.
    + split; [done|]. split; [|split].
      * intros q Hq. right. apply num_le_Fin.
        apply elem_of_cons in Hq as [->|Hq]; [apply Qle_refl|].
        apply StronglySorted_inv in Hs as [_ Hp].
        eapply Forall_forall in Hp; [|done]. by apply Qlt_le_weak.
      * done.
      * simpl. intros r [= <-]. left.
    + apply (regions_from_region_of [] p ps Hs).
Qed.

Lemma inside_of_In points i (x : Q) :
  region_like i → region_of points i → ¬ QIn x points →
  In_interval (Q2R x) i → inside x i.
Proof.
  intros (Hrc & _ & _ & Hlc) (_ & _ & Hl & Hr) Hx [Ha Hb].
  unfold above_left, below_right in *. rewrite Hrc in Hb. split.
  - destruct (left i) as [|l|] eqn:El; [done| |done].
    destruct Hlc as [Hlc|?]; [|done]. rewrite Hlc in Ha.
    apply num_lt_Fin. apply Rle_Qle in Ha.
    destruct (Q_dec l x) as [[?|Hgt]|He]; [done| |].
    + exfalso. by apply Qle_not_lt in Ha.
    + exfalso. apply Hx. exists l. split; [by apply Hl|done].
  - destruct (right i) as [|r|] eqn:Er; [done| |done].
    apply num_lt_Fin. by apply Rlt_Qlt.
Qed.

Lemma In_of_inside i (x : Q) : inside x i → In_interval (Q2R x) i.
Proof.
  intros [Hl Hr]. unfold In_interval, above_left, below_right.
  split.
  - destruct (left i) as [|l|]; [done| |done].
    apply num_lt_Fin, Qlt_Rlt in Hl.
    destruct (left_closed i); [by apply Rlt_le|done].
  - destruct (right i) as [|r|]; [done| |done].
    apply num_lt_Fin, Qlt_Rlt in Hr.
    destruct (right_closed i); [by apply Rlt_le|done].
Qed.

Lemma representative_spec_inside i :
  region_like i → num_lt (left i) (right i) = true →
  inside (representative_spec i) i.
Proof.
  intros (_ & Hl & Hr & _) Hlt. unfold inside, representative_spec.
  destruct (left i) as [|l|], (right i) as [|r|]; try done; simpl;
    rewrite ?num_lt_Fin in *; split; try done;
    unfold Qdiv; change (/ 2)%Q with (1#2)%Q; Lqa.lra.
Qed.

Lemma membership_const points i b (x y : Q) :
  region_of points i → QIn b points → inside x i → inside y i →
  Qle_bool b x = Qle_bool b y ∧ Qle_bool x b = Qle_bool y b.
Proof.
  intros (_ & Hpts & _ & _) (q & Hq & Hqb) [Hxl Hxr] [Hyl Hyr].
  assert (∀ u v, (u <= v)%Q ∨ (v < u)%Q) as Hdec.
  { intros u v. destruct (Qlt_le_dec v u); auto. }
  assert (∀ u v w z : Q,
            ((u <= v)%Q ↔ (w <= z)%Q) → Qle_bool u v = Qle_bool w z) as Hb.
  { intros u v w z H. destruct (Qle_bool u v) eqn:E1, (Qle_bool w z) eqn:E2;
      try done.
    - apply Qle_bool_iff, H, Qle_bool_iff in E1. congruence.
    - apply Qle_bool_iff, H, Qle_bool_iff in E2. congruence. }
  destruct (Hpts q Hq) as [Hle|Hle].
  - destruct (left i) as [|l|]; try done.
    apply num_le_Fin in Hle. apply num_lt_Fin in Hxl, Hyl.
    split; apply Hb; split; intros; Lqa.lra.
  - destruct (right i) as [|r|]; try done.
    apply num_le_Fin in Hle. apply num_lt_Fin in Hxr, Hyr.
    split; apply Hb; split; intros; Lqa.lra.
Qed.

Lemma memberships_spec_inside self i (x y : Q) target_in :
  region_of (_get_critical_points self) i → inside x i → inside y i →
  memberships_spec self x target_in = memberships_spec self y target_in.
Proof.
  intros Hr Hx Hy. unfold memberships_spec. f_equal.
  apply map_eq. intros name. rewrite !lookup_fmap.
  destruct (known_sets self !! name) as [[l r]|] eqn:E; [|done].
  cbn [fmap option_fmap option_map fst snd]. f_equal.
  assert (QIn l (_get_critical_points self)) as Hl.
  { apply critical_points_spec. exists name, l, r. split; [done|]. left.
    apply Qeq_refl. }
  assert (QIn r (_get_critical_points self)) as Hrr.
  { apply critical_points_spec. exists name, l, r. split; [done|]. right.
    apply Qeq_refl. }
  destruct (membership_const _ i l x y Hr Hl Hx Hy) as [-> _].
  by destruct (membership_const _ i r x y Hr Hrr Hx Hy) as [_ ->].
Qed.

Lemma analysis_elem self analysis ci :
  _analyze_intervals self = OK analysis → ci ∈ analysis →
  interval ci ∈ _build_intervals (_get_critical_points self)
  ∧ _get_constraint_for_interval self (interval ci) = OK (constraint ci).
Proof.
  unfold _analyze_intervals.
  generalize (_build_intervals (_get_critical_points self)). intros l.
  revert analysis. induction l as [|i l IH]; intros analysis; cbn [_analyze_loop].
  - intros [= <-] Hci. by apply elem_of_nil in Hci.
  - destruct (_get_constraint_for_interval self i) as [c|] eqn:Ec;
      cbn [res_bind]; [|done].
    destruct (_analyze_loop self l) as [rest|]; cbn [res_bind]; [|done].
    intros [= <-] Hci. apply elem_of_cons in Hci as [->|Hci].
    + split; [left|done].
    + destruct (IH rest eq_refl Hci). split; [by right|done].
Qed.

Lemma analysis_region self analysis i :
  _analyze_intervals self = OK analysis →
  i ∈ _build_intervals (_get_critical_points self) →
  ∃ ci, ci ∈ analysis ∧ interval ci = i.
Proof.
  intros Ha Hi. unfold _analyze_intervals in Ha.
  apply analyze_loop_intervals in Ha. rewrite <- Ha in Hi.
  apply list_elem_of_fmap in Hi as (ci & -> & Hci). eauto.
Qed.

Lemma representative_inside_spec i :
  representative_inside i = true → ∃ x, test_point i = Fin x ∧ inside x i.
Proof.
  unfold representative_inside. destruct (test_point i) as [|x|]; try done.
  intros [? ?]%andb_true_iff. by exists x.
Qed.

Lemma representatives_inside_elem self i :
  representatives_inside self = true →
  i ∈ _build_intervals (_get_critical_points self) →
  representative_inside i = true.
Proof.
  unfold representatives_inside. rewrite forallb_forall. intros H Hi.
  by apply H, list_elem_of_In.
Qed.

(** The tag of a region whose test point lies strictly inside it is the
    tag of the formula at any point [x] strictly inside the region. *)
Lemma region_tag self i (x : Q) :
  i ∈ _build_intervals (_get_critical_points self) →
  representative_inside i = true → inside x i →
  _get_constraint_for_interval self i = constraint_at self x.
Proof.
  intros Hreg Hrep Hx.
  apply representative_inside_spec in Hrep as (t & Ht & Hins).
  assert (region_of (_get_critical_points self) i) as Hro.
  { eapply Forall_forall; [apply build_intervals_region_of|done].
    apply critical_points_spec. }
  rewrite (get_constraint_at self i t Ht). unfold constraint_at.
  by rewrite !(memberships_spec_inside self i t x).
Qed.

(** What the tag of a region of the analysis says about the formula at
    any point [x] strictly inside the region. *)
Lemma analysis_tag self analysis ci (x : Q) :
  representatives_inside self = true →
  _analyze_intervals self = OK analysis → ci ∈ analysis →
  inside x (interval ci) →
  ∃ excluded included,
    evaluate (ast self) (memberships_spec self x false) = OK excluded
    ∧ evaluate (ast self) (memberships_spec self x true) = OK included
    ∧ constraint ci
      = classify_spec (meets_requirement self excluded)
          (meets_requirement self included).
Proof.
  intros Hrep Ha Hci Hx. destruct (analysis_elem _ _ _ Ha Hci) as [Hreg Hc].
  rewrite (region_tag self (interval ci) x) in Hc;
    [|done|by eapply representatives_inside_elem|done].
  unfold constraint_at in Hc.
  destruct (evaluate _ _) as [e0|]; cbn [res_bind] in Hc; [|done].
  destruct (evaluate _ _) as [e1|]; cbn [res_bind] in Hc; [|done].
  injection Hc as Hc. by exists e0, e1.
Qed.

(** X18.  For every region the solver builds whose test point, as the
    floats give it, lies strictly inside the region, the constraint the
    solver assigns is the one the specification describes: the formula
    evaluated at the representative point (midpoint, boundary -1 / +1 next
    to an infinite end, 0 for the whole line) with the known-set
    memberships of that point and the target once excluded, once
    included; the two outcomes against the required truth value give
    FREE, MUST_INCLUDE, MUST_EXCLUDE or IMPOSSIBLE.  On a parsed formula
    both evaluations return. *)
Theorem get_constraint_for_interval_spec self region :
  region ∈ _build_intervals (_get_critical_points self) →
  representative_inside region = true →
  _get_constraint_for_interval self region = constraint_spec self region
  ∧ (ops_ok (ast self) →
     ∃ excluded included,
       evaluate (ast self)
         (memberships_spec self (representative_spec region) false)
       = OK excluded
       ∧ evaluate (ast self)
           (memberships_spec self (representative_spec region) true)
         = OK included
       ∧ _get_constraint_for_interval self region
         = OK (classify_spec (meets_requirement self excluded)
                 (meets_requirement self included))).
Proof.
  intros Hin Hrep.
  assert (_get_constraint_for_interval self region
          = constraint_spec self region) as Heq.
  { change (constraint_spec self region)
      with (constraint_at self (representative_spec region)).
    apply region_tag; [done|done|]. apply representative_spec_inside.
    - eapply Forall_forall; [apply build_intervals_region_like|done].
    - assert (region_of (_get_critical_points self) region) as Hro.
      { eapply Forall_forall; [apply build_intervals_region_of|done].
        apply critical_points_spec. }
      by destruct Hro. }
  split; [done|].
  intros Hok. rewrite Heq. unfold constraint_spec.
  destruct (evaluate_total (ast self)
              (memberships_spec self (representative_spec region) false) Hok)
    as [e0 He0].
  destruct (evaluate_total (ast self)
              (memberships_spec self (representative_spec region) true) Hok)
    as [e1 He1].
  exists e0, e1. rewrite He0, He1. done.
Qed.

Lemma get_constraint_for_interval_spec_witness :
  (mkInterval (Fin 5) (Fin 14) true false
     ∈ _build_intervals (_get_critical_points example_solver)
   ∧ representative_inside (mkInterval (Fin 5) (Fin 14) true false) = true)
  ∧ _get_constraint_for_interval example_solver
      (mkInterval (Fin 5) (Fin 14) true false)
    = constraint_spec example_solver (mkInterval (Fin 5) (Fin 14) true false)
  ∧ (ops_ok (ast example_solver) →
     ∃ excluded included,
       evaluate (ast example_solver)
         (memberships_spec example_solver
            (representative_spec (mkInterval (Fin 5) (Fin 14) true false))
            false)
       = OK excluded
       ∧ evaluate (ast example_solver)
           (memberships_spec example_solver
              (representative_spec (mkInterval (Fin 5) (Fin 14) true false))
              true)
         = OK included
       ∧ _get_constraint_for_interval example_solver
           (mkInterval (Fin 5) (Fin 14) true false)
         = OK (classify_spec (meets_requirement example_solver excluded)
                 (meets_requirement example_solver included))).
Proof.
  assert (mkInterval (Fin 5) (Fin 14) true false
            ∈ _build_intervals (_get_critical_points example_solver)) as H.
  { rewrite example_critical_points. simpl. right. left. }
  assert (representative_inside (mkInterval (Fin 5) (Fin 14) true false)
          = true) as Hrep by (vm_compute; reflexivity).
  split; [by split|].
  exact (get_constraint_for_interval_spec example_solver _ H Hrep).
Defined.

(** ** Test points between small integer bounds *)

Lemma floor_log2_below n d k :
  (0 <= k)%Z → (Z.pos n < Z.pos d * 2 ^ k)%Z → (floor_log2 n d < k)%Z.
Proof.
  intros Hk Hn.
  destruct (Z.log2_spec (Z.pos n)) as [Hn1 _]; [done|].
  destruct (Z.log2_spec (Z.pos d)) as [_ Hd2]; [done|].
  pose proof (Z.log2_nonneg (Z.pos n)) as Ha.
  pose proof (Z.log2_nonneg (Z.pos d)) as Hb.
  assert (Z.log2 (Z.pos n) - Z.log2 (Z.pos d) <= k)%Z as Hle.
  { destruct (Z_le_gt_dec (Z.log2 (Z.pos n) - Z.log2 (Z.pos d))%Z k) as [|Hgt];
      [done|]. exfalso.
    assert (2 ^ (Z.succ (Z.log2 (Z.pos d)) + k) <= 2 ^ Z.log2 (Z.pos n))%Z
      as Hp by (apply Z.pow_le_mono_r; lia).
    rewrite Z.pow_add_r in Hp by lia.
    assert (0 < 2 ^ k)%Z by (apply Z.pow_pos_nonneg; lia). nia. }
  unfold floor_log2. cbv zeta. destruct (_ <? _)%Z eqn:E; [lia|].
  apply Z.ltb_ge in E.
  destruct (Z.eq_dec (Z.log2 (Z.pos n) - Z.log2 (Z.pos d))%Z k) as [He|];
    [|lia].
  rewrite He in E. rewrite (Z.max_r 0 k), (Z.max_l 0 (- k)) in E by lia.
  rewrite Z.pow_0_r in E. lia.
Qed.

Lemma floor_log2_above n d :
  (Z.pos d <= 2 * Z.pos n)%Z → (-1 <= floor_log2 n d)%Z.
Proof.
  intros Hd.
  destruct (Z.log2_spec (Z.pos n)) as [_ Hn2]; [done|].
  destruct (Z.log2_spec (Z.pos d)) as [Hd1 _]; [done|].
  pose proof (Z.log2_nonneg (Z.pos n)) as Ha.
  pose proof (Z.log2_nonneg (Z.pos d)) as Hb.
  assert (-1 <= Z.log2 (Z.pos n) - Z.log2 (Z.pos d))%Z as Hle.
  { destruct (Z_le_gt_dec (-1)%Z (Z.log2 (Z.pos n) - Z.log2 (Z.pos d))%Z)
      as [|Hgt]; [done|]. exfalso.
    assert (2 ^ (Z.succ (Z.log2 (Z.pos n)) + 1) <= 2 ^ Z.log2 (Z.pos d))%Z
      as Hp by (apply Z.pow_le_mono_r; lia).
    rewrite Z.pow_add_r in Hp by lia. lia. }
  unfold floor_log2. cbv zeta. destruct (_ <? _)%Z eqn:E; [|lia].
  apply Z.ltb_lt in E.
  destruct (Z.eq_dec (Z.log2 (Z.pos n) - Z.log2 (Z.pos d))%Z (-1)%Z) as [He|];
    [|lia].
  rewrite He in E. change (Z.max 0 (- -1)) with 1%Z in E.
  change (Z.max 0 (-1)) with 0%Z in E. lia.
Qed.

Lemma round_half_even_exact q d :
  (0 < d)%Z → round_half_even (q * d) d = q.
Proof.
  intros Hd. unfold round_half_even.
  rewrite Z.mod_mul, Z.div_mul by lia.
  change (2 * 0)%Z with 0%Z. by destruct d.
Qed.

Lemma round64_opp x : round64 (- x) = fneg (round64 x).
Proof.
  destruct x as [[|n|n] d].
  - reflexivity.
  - change (- (Z.pos n # d))%Q with (Z.neg n # d).
    unfold round64. cbn [Qnum Qden]. cbv zeta.
    destruct (_ <=? _)%Z; [reflexivity|]. cbn [fneg]. f_equal.
    by rewrite <- Qred_opp.
  - change (- (Z.neg n # d))%Q with (Z.pos n # d).
    unfold round64. cbn [Qnum Qden]. cbv zeta.
    destruct (_ <=? _)%Z; [reflexivity|]. cbn [fneg]. f_equal.
    rewrite <- Qred_opp. unfold Qopp. cbn [Qnum Qden].
    by rewrite Z.opp_involutive.
Qed.

(** Halves of integers below 2^53 in magnitude are floats. *)
Lemma round64_half_pos n d k :
  (Z.pos n * 2 = k * Z.pos d)%Z → (k < 2 ^ 53)%Z →
  ∃ y, round64 (Z.pos n # d) = Fin y ∧ (y == Z.pos n # d)%Q.
Proof.
  intros Hk Hlt. assert (0 < k)%Z as Hpos by nia.
  assert (floor_log2 n d < 52)%Z as Hup.
  { apply floor_log2_below; [done|].
    change (2 ^ 52)%Z with 4503599627370496%Z.
    change (2 ^ 53)%Z with 9007199254740992%Z in Hlt. nia. }
  assert (-1 <= floor_log2 n d)%Z as Hlo by (apply floor_log2_above; nia).
  unfold round64. cbn [Qnum Qden]. cbv zeta.
  set (e := Z.max (floor_log2 n d - 52) (-1074)).
  assert (-53 <= e <= -1)%Z as He by (unfold e; lia).
  rewrite (Z.max_l 0 e), (Z.max_r 0 (- e)) by lia.
  rewrite Z.pow_0_r, !Z.mul_1_r.
  assert (Z.pos n * 2 ^ (- e) = k * 2 ^ (- e - 1) * Z.pos d)%Z as Hm.
  { replace (- e)%Z with (1 + (- e - 1))%Z at 1 by lia.
    rewrite Z.pow_add_r by lia. change (2 ^ 1)%Z with 2%Z. nia. }
  rewrite Hm, round_half_even_exact by done.
  assert (0 < 2 ^ (- e - 1) <= 2 ^ 52)%Z as Hp.
  { split; [apply Z.pow_pos_nonneg; lia|]. apply Z.pow_le_mono_r; lia. }
  assert (k * 2 ^ (- e - 1) < 2 ^ 1024)%Z as Hov.
  { apply Z.lt_le_trans with (2 ^ 53 * 2 ^ 52)%Z.
    - apply Z.le_lt_trans with (k * 2 ^ 52)%Z;
        [apply Z.mul_le_mono_nonneg_l; lia|apply Z.mul_lt_mono_pos_r; lia].
    - rewrite <- Z.pow_add_r by lia. apply Z.pow_le_mono_r; lia. }
  apply Z.leb_gt in Hov. rewrite Hov.
  eexists. split; [done|]. rewrite Qred_correct.
  unfold Qeq. cbn [Qnum Qden]. rewrite Z2Pos.id by (apply Z.pow_pos_nonneg; lia).
  rewrite <- Hm. ring.
Qed.

Lemma round64_half x k :
  (x == k # 2)%Q → (Z.abs k < 2 ^ 53)%Z →
  ∃ y, round64 x = Fin y ∧ (y == x)%Q.
Proof.
  destruct x as [[|n|n] d]; intros Hk Hlt; unfold Qeq in Hk;
    cbn [Qnum Qden] in Hk.
  - exists 0%Q. done.
  - apply (round64_half_pos n d k); [lia|lia].
  - destruct (round64_half_pos n d (- k)) as (y & Hy & Hyx); [lia|lia|].
    exists (- y)%Q. split.
    + change (Z.neg n # d) with (- (Z.pos n # d))%Q.
      by rewrite round64_opp, Hy.
    + change (Z.neg n # d) with (- (Z.pos n # d))%Q. by rewrite Hyx.
Qed.

Lemma small_integer_spec q :
  small_integer q = true →
  ∃ z : Z, (q == z # 1)%Q ∧ (Z.abs z < 2 ^ 51)%Z.
Proof.
  unfold small_integer. intros [Hd Hn]%andb_true_iff.
  apply Z.eqb_eq in Hd. apply Z.ltb_lt in Hn.
  exists (Qnum (Qred q)). split; [|done].
  rewrite <- (Qred_correct q) at 1. destruct (Qred q) as [n d].
  cbn [Qnum Qden] in *. by injection Hd as ->.
Qed.

Lemma representative_inside_small points i :
  region_like i → region_of points i →
  (∀ q, q ∈ points → small_integer q = true) →
  representative_inside i = true.
Proof.
  intros (_ & Hnl & Hnr & _) (Hlt & _ & Hl & Hr) Hsmall.
  unfold representative_inside, test_point.
  destruct (left i) as [|l|] eqn:El, (right i) as [|r|] eqn:Er; try done;
    cbn [isinf fsub fadd fhalf]; try reflexivity.
  - destruct (small_integer_spec r) as (z & Hz & Hb); [by auto|].
    destruct (round64_half (r - 1) (2 * (z - 1))) as (y & -> & Hy).
    + rewrite Hz. unfold Qeq, Qminus, Qplus, Qopp. cbn [Qnum Qden]. lia.
    + change (2 ^ 53)%Z with 9007199254740992%Z.
      change (2 ^ 51)%Z with 2251799813685248%Z in Hb. lia.
    + apply andb_true_iff. split; [done|]. apply num_lt_Fin. Lqa.lra.
  - destruct (small_integer_spec l) as (zl & Hzl & Hbl); [by auto|].
    destruct (small_integer_spec r) as (zr & Hzr & Hbr); [by auto|].
    change (2 ^ 51)%Z with 2251799813685248%Z in Hbl, Hbr.
    destruct (round64_half (l + r) (2 * (zl + zr))) as (s & -> & Hs).
    + rewrite Hzl, Hzr. unfold Qeq, Qplus. cbn [Qnum Qden]. lia.
    + change (2 ^ 53)%Z with 9007199254740992%Z. lia.
    + cbn [fhalf]. destruct (round64_half (s / 2) (zl + zr)) as (y & -> & Hy).
      * rewrite Hs, Hzl, Hzr. unfold Qeq, Qdiv, Qmult, Qplus, Qinv.
        cbn [Qnum Qden]. lia.
      * change (2 ^ 53)%Z with 9007199254740992%Z. lia.
      * apply num_lt_Fin in Hlt.
        assert (y == (l + r) / 2)%Q as Hy' by (by rewrite Hy, Hs).
        apply andb_true_iff. split; apply num_lt_Fin; rewrite Hy';
          unfold Qdiv; change (/ 2)%Q with (1 # 2)%Q; Lqa.lra.
  - destruct (small_integer_spec l) as (z & Hz & Hb); [by auto|].
    destruct (round64_half (l + 1) (2 * (z + 1))) as (y & -> & Hy).
    + rewrite Hz. unfold Qeq, Qplus. cbn [Qnum Qden]. lia.
    + change (2 ^ 53)%Z with 9007199254740992%Z.
      change (2 ^ 51)%Z with 2251799813685248%Z in Hb. lia.
    + apply andb_true_iff. split; [|done]. apply num_lt_Fin. Lqa.lra.
Qed.



(** ** What a result means for the formula *)

Lemma meets_requirement_true self v :
  meets_requirement self v = true → v = formula_true self.
Proof. unfold meets_requirement. by destruct (formula_true self), v. Qed.

Lemma meets_requirement_false self v :
  meets_requirement self v = false → v = negb (formula_true self).
Proof. unfold meets_requirement. by destruct (formula_true self), v. Qed.

Lemma optimize_analysis str_float self analysis r self' :
  _optimize str_float self analysis = (r, self') →
  success r = bool_decide (first_impossible analysis = None).
Proof. intros H. by rewrite <- (optimize_success str_float self analysis), H. Qed.

(** A point that is no boundary lies strictly inside a region of the
    analysis. *)
Lemma analysis_cover self analysis (x : Q) :
  _analyze_intervals self = OK analysis → ¬ is_boundary self x →
  ∃ ci, ci ∈ analysis ∧ inside x (interval ci).
Proof.
  intros Ha Hx.
  destruct (regions_partition_points (_get_critical_points self) (Q2R x))
    as (i & Hi & Hxi & _); [apply critical_points_spec|].
  destruct (analysis_region _ _ _ Ha Hi) as (ci & Hci & <-).
  exists ci. split; [done|].
  eapply inside_of_In;
    [| |intros HQ; apply Hx; by apply critical_points_spec|done].
  - eapply Forall_forall; [apply build_intervals_region_like|done].
  - eapply Forall_forall; [apply build_intervals_region_of|done].
    apply critical_points_spec.
Qed.

Lemma analysis_inside self analysis ci (x : Q) :
  _analyze_intervals self = OK analysis → ¬ is_boundary self x →
  ci ∈ analysis → In_interval (Q2R x) (interval ci) → inside x (interval ci).
Proof.
  intros Ha Hx Hci Hin. destruct (analysis_elem _ _ _ Ha Hci) as [Hreg _].
  eapply inside_of_In;
    [| |intros HQ; apply Hx; by apply critical_points_spec|done].
  - eapply Forall_forall; [apply build_intervals_region_like|done].
  - eapply Forall_forall; [apply build_intervals_region_of|done].
    apply critical_points_spec.
Qed.

(** X7.  When the test point of every region lies strictly inside its
    region, a successful result makes the formula take the required truth
    value at every rational point that is not a boundary of a known set:
    with the known sets read as closed intervals and the target read as
    the returned intervals, the formula evaluates to [formula_true]. *)
Theorem solve_sound str_float self r self' (x : Q) :
  representatives_inside self = true →
  solve str_float self = OK (r, self') → success r = true →
  ¬ is_boundary self x →
  (In_intervals (Q2R x) (intervals r) →
     evaluate (ast self) (memberships_spec self x true)
     = OK (formula_true self))
  ∧ (¬ In_intervals (Q2R x) (intervals r) →
       evaluate (ast self) (memberships_spec self x false)
       = OK (formula_true self)).
Proof.
  intros Hrep Hs Hok Hx. apply solve_inv in Hs as (analysis & Ha & Ho).
  pose proof (optimize_analysis _ _ _ _ _ Ho) as Hf. rewrite Hok in Hf.
  symmetry in Hf. apply bool_decide_eq_true_1 in Hf.
  pose proof (solve_points _ _ _ _ _ (Q2R x) Ha Ho Hok) as Hpts.
  split.
  - intros Hin. apply Hpts in Hin as (ci & Hci & Hin & Htag).
    pose proof (analysis_inside _ _ _ _ Ha Hx Hci Hin) as Hins.
    destruct (analysis_tag _ _ _ _ Hrep Ha Hci Hins)
      as (e0 & e1 & _ & -> & Hc).
    f_equal. apply meets_requirement_true. rewrite Hc in Htag.
    destruct (meets_requirement self e0), (meets_requirement self e1);
      try done.
  - intros Hnin. destruct (analysis_cover _ _ _ Ha Hx) as (ci & Hci & Hins).
    destruct (analysis_tag _ _ _ _ Hrep Ha Hci Hins)
      as (e0 & e1 & -> & _ & Hc).
    f_equal. apply meets_requirement_true.
    destruct (meets_requirement self e0) eqn:E0; [done|]. exfalso.
    destruct (meets_requirement self e1) eqn:E1; simpl in Hc.
    + apply Hnin, Hpts. exists ci. split; [done|].
      split; [by apply In_of_inside|]. by rewrite Hc.
    + by eapply first_impossible_None in Hf.
Qed.

Lemma example_not_boundary (x : Q) :
  Qeq_bool x 5 || Qeq_bool x 14 || Qeq_bool x 23 || Qeq_bool x 30 = false →
  ¬ is_boundary example_solver x.
Proof.
  intros Hx H. apply critical_points_spec in H.
  rewrite example_critical_points in H. destruct H as (p & Hp & He).
  apply Qeq_sym, Qeq_bool_iff in He.
  repeat (apply elem_of_cons in Hp as [->|Hp];
          [by rewrite He, ?orb_true_r in Hx|]).
  by apply elem_of_nil in Hp.
Qed.

Lemma example_representatives_inside :
  representatives_inside example_solver = true.
Proof. vm_compute. reflexivity. Qed.

Lemma example_solve :
  solve example_str_float example_solver
  = OK (mkResult true example_result_intervals (Fin 16)
          "A = [5/1, 14/1] ∪ [23/1, 30/1]  max: 9 min: 7, суммарная длина = 16/1",
        mkSolver example_formula (ast example_solver) example_known_sets "A"
          true true (Some 9%Z) (Some 7%Z)).
Proof. vm_compute. reflexivity. Qed.

Lemma solve_sound_witness :
  (representatives_inside example_solver = true
   ∧ ¬ is_boundary example_solver 10)
  ∧ (In_intervals (Q2R 10) example_result_intervals →
       evaluate (ast example_solver) (memberships_spec example_solver 10 true)
       = OK true)
  ∧ (¬ In_intervals (Q2R 10) example_result_intervals →
       evaluate (ast example_solver) (memberships_spec example_solver 10 false)
       = OK true).
Proof.
  split; [split; [exact example_representatives_inside
                 |exact (example_not_boundary 10 eq_refl)]|].
  exact (solve_sound example_str_float example_solver _ _ 10
           example_representatives_inside example_solve eq_refl
           (example_not_boundary 10 eq_refl)).
Defined.

(** X8.  When the test point of every region lies strictly inside its
    region, the result is extremal at every rational point that is no
    boundary: under maximize, a point left out of the result cannot be
    added (with it in the target the formula takes the wrong value); under
    minimize, a point of the result cannot be dropped. *)
Theorem solve_extremal str_float self r self' (x : Q) :
  representatives_inside self = true →
  solve str_float self = OK (r, self') → success r = true →
  ¬ is_boundary self x →
  (maximize self = true → ¬ In_intervals (Q2R x) (intervals r) →
     evaluate (ast self) (memberships_spec self x true)
     = OK (negb (formula_true self)))
  ∧ (maximize self = false → In_intervals (Q2R x) (intervals r) →
       evaluate (ast self) (memberships_spec self x false)
       = OK (negb (formula_true self))).
Proof.
  intros Hrep Hs Hok Hx. apply solve_inv in Hs as (analysis & Ha & Ho).
  pose proof (optimize_analysis _ _ _ _ _ Ho) as Hf. rewrite Hok in Hf.
  symmetry in Hf. apply bool_decide_eq_true_1 in Hf.
  pose proof (solve_points _ _ _ _ _ (Q2R x) Ha Ho Hok) as Hpts.
  split.
  - intros Hmx Hnin.
    destruct (analysis_cover _ _ _ Ha Hx) as (ci & Hci & Hins).
    destruct (analysis_tag _ _ _ _ Hrep Ha Hci Hins)
      as (e0 & e1 & _ & -> & Hc).
    f_equal. apply meets_requirement_false.
    destruct (meets_requirement self e1) eqn:E1; [|done]. exfalso.
    apply Hnin, Hpts. exists ci. split; [done|].
    split; [by apply In_of_inside|]. rewrite Hc, Hmx.
    by destruct (meets_requirement self e0).
  - intros Hmx Hin. apply Hpts in Hin as (ci & Hci & Hin & Htag).
    pose proof (analysis_inside _ _ _ _ Ha Hx Hci Hin) as Hins.
    destruct (analysis_tag _ _ _ _ Hrep Ha Hci Hins)
      as (e0 & e1 & -> & _ & Hc).
    f_equal. apply meets_requirement_false. rewrite Hc, Hmx in Htag.
    destruct (meets_requirement self e0), (meets_requirement self e1);
      try done.
Qed.

Lemma example_outside : ¬ In_intervals (Q2R 0) example_result_intervals.
Proof.
  intros (i & Hin & Ha & Hb). unfold example_result_intervals in Hin.
  rewrite !elem_of_cons, elem_of_nil in Hin.
  destruct Hin as [->|[->|[]]];
    unfold above_left, Q2R in Ha; simpl in Ha; lra.
Qed.

Lemma solve_extremal_witness :
  (representatives_inside example_solver = true
   ∧ ¬ is_boundary example_solver 0
   ∧ maximize example_solver = true
   ∧ ¬ In_intervals (Q2R 0) example_result_intervals)
  ∧ evaluate (ast example_solver) (memberships_spec example_solver 0 true)
    = OK false.
Proof.
  split; [split; [exact example_representatives_inside|];
          split; [exact (example_not_boundary 0 eq_refl)|];
          split; [reflexivity|exact example_outside]|].
  exact (proj1 (solve_extremal example_str_float example_solver _ _ 0
                  example_representatives_inside example_solve eq_refl
                  (example_not_boundary 0 eq_refl))
           eq_refl example_outside).
Defined.

(** X9.  When the test point of every region lies strictly inside its
    region, a failed result is justified: when [solve] returns
    success = False there is a region of the analysis, with points
    strictly inside it, at every rational point of which the formula
    takes the wrong truth value whether the target holds the point or
    not. *)
Theorem solve_failure_justified str_float self r self' :
  representatives_inside self = true →
  solve str_float self = OK (r, self') → success r = false →
  ∃ region,
    region ∈ _build_intervals (_get_critical_points self)
    ∧ (∃ x : Q, inside x region)
    ∧ ∀ x : Q, inside x region →
        evaluate (ast self) (memberships_spec self x false)
        = OK (negb (formula_true self))
        ∧ evaluate (ast self) (memberships_spec self x true)
          = OK (negb (formula_true self)).
Proof.
  intros Hrep Hs Hok. apply solve_inv in Hs as (analysis & Ha & Ho).
  pose proof (optimize_analysis _ _ _ _ _ Ho) as Hf. rewrite Hok in Hf.
  symmetry in Hf. apply bool_decide_eq_false_1 in Hf.
  destruct (first_impossible analysis) as [ci|] eqn:E; [|done].
  apply first_impossible_Some in E as [Hci Himp].
  destruct (analysis_elem _ _ _ Ha Hci) as [Hreg _].
  exists (interval ci). split; [done|]. split.
  - pose proof (representatives_inside_elem _ _ Hrep Hreg) as Hi.
    apply representative_inside_spec in Hi as (t & _ & Ht). by exists t.
  - intros x Hins.
    destruct (analysis_tag _ _ _ _ Hrep Ha Hci Hins)
      as (e0 & e1 & -> & -> & Hc).
    rewrite Himp in Hc.
    destruct (meets_requirement self e0) eqn:E0,
      (meets_requirement self e1) eqn:E1; try done.
    by rewrite (meets_requirement_false _ _ E0),
      (meets_requirement_false _ _ E1).
Qed.

Lemma solve_failure_justified_witness :
  (representatives_inside
     (mkSolver example_formula (ast example_solver) example_known_sets "A"
        true false None None) = true
   ∧ solve example_str_float
       (mkSolver example_formula (ast example_solver) example_known_sets "A"
          true false None None)
     = OK (mkResult false [] (Fin 0)
             "Нет решения: невозможное ограничение на интервале [5/1, 14/1)",
           mkSolver example_formula (ast example_solver) example_known_sets
             "A" true false None None))
  ∧ ∃ region,
      region ∈ _build_intervals
                 (_get_critical_points
                    (mkSolver example_formula (ast example_solver)
                       example_known_sets "A" true false None None))
      ∧ (∃ x : Q, inside x region)
      ∧ ∀ x : Q, inside x region →
          evaluate (ast example_solver)
            (memberships_spec
               (mkSolver example_formula (ast example_solver)
                  example_known_sets "A" true false None None) x false)
          = OK true
          ∧ evaluate (ast example_solver)
              (memberships_spec
                 (mkSolver example_formula (ast example_solver)
                    example_known_sets "A" true false None None) x true)
            = OK true.
Proof.
  assert (representatives_inside
            (mkSolver example_formula (ast example_solver) example_known_sets
               "A" true false None None) = true)
    as Hrep by (vm_compute; reflexivity).
  assert (solve example_str_float
            (mkSolver example_formula (ast example_solver) example_known_sets
               "A" true false None None)
          = OK (mkResult false [] (Fin 0)
                  "Нет решения: невозможное ограничение на интервале [5/1, 14/1)",
                mkSolver example_formula (ast example_solver)
                  example_known_sets "A" true false None None))
    as H by (vm_compute; reflexivity).
  split; [by split|].
  exact (solve_failure_justified example_str_float _ _ _ Hrep H eq_refl).
Defined.

(** ** The intervals of a result *)

Lemma num_lt_trans a b c :
  num_lt a b = true → num_lt b c = true → num_lt a c = true.
Proof. intros H1 H2. eapply num_lt_le_trans; [done|]. by apply num_lt_le. Qed.

Lemma merge_fold_Forall (P : Interval → Prop) rest :
  (∀ a b, P a → P b → P (merged_with a b)) →
  ∀ front last_,
    Forall P front → P last_ → Forall P rest →
    Forall P ((foldl _merge_step (front, last_) rest).1
              ++ [(foldl _merge_step (front, last_) rest).2]).
Proof.
  intros HP. induction rest as [|cur rest IH]; intros front last_ Hf Hl Hr.
  - cbn [foldl fst snd]. apply Forall_app. split; [done|by constructor].
  - apply Forall_cons in Hr as [Hc Hr]. cbn [foldl].
    unfold _merge_step at 2 4.
    destruct (num_le (left cur) (right last_)).
    + apply IH; [done| |done]. by apply (HP last_ cur).
    + apply IH; [|done|done]. apply Forall_app. split; [done|by constructor].
Qed.

Lemma merge_intervals_Forall (P : Interval → Prop) l :
  (∀ a b, P a → P b → P (merged_with a b)) →
  Forall P l → Forall P (_merge_intervals l).
Proof.
  intros HP Hl. unfold _merge_intervals.
  assert (Forall P (sorted left l)) as Hs.
  { apply Forall_forall. intros i Hi. apply sorted_elem in Hi.
    by eapply Forall_forall in Hl. }
  destruct (sorted left l) as [|first rest]; [constructor|].
  apply Forall_cons in Hs as [Hf Hr].
  pose proof (merge_fold_Forall P rest HP [] first) as H.
  destruct (foldl _merge_step ([], first) rest) as [front last_].
  apply H; [constructor|done|done].
Qed.

Lemma merged_with_cut_by self a b :
  cut_by self a → cut_by self b → cut_by self (merged_with a b).
Proof.
  intros (Ha & Hal & Har) (Hb & Hbl & Hbr).
  unfold cut_by, merged_with, num_max. cbn [left right].
  destruct (num_lt (right a) (right b)) eqn:E.
  - split; [by eapply num_lt_trans|]. by split.
  - by split.
Qed.

Lemma region_cut_by self i :
  i ∈ _build_intervals (_get_critical_points self) → cut_by self i.
Proof.
  intros Hi.
  assert (region_of (_get_critical_points self) i) as (Hlt & _ & Hl & Hr).
  { eapply Forall_forall; [apply build_intervals_region_of|done].
    apply critical_points_spec. }
  split; [done|].
  split; intros q Hq; apply critical_points_spec; exists q;
    (split; [auto|apply Qeq_refl]).
Qed.

Lemma round_half_even_nonneg n d :
  (0 <= n)%Z → (0 < d)%Z → (0 <= round_half_even n d)%Z.
Proof.
  intros Hn Hd. unfold round_half_even.
  assert (0 <= n / d)%Z by (apply Z.div_pos; lia).
  destruct (2 * (n mod d) ?= d)%Z; [destruct (Z.even _)| |]; lia.
Qed.

Lemma round64_nonneg x :
  (0 <= x)%Q → num_le (Fin 0) (round64 x) = true.
Proof.
  destruct x as [[|n|n] d]; unfold round64; cbn [Qnum Qden]; intros Hx.
  - done.
  - cbv zeta.
    set (e := Z.max (floor_log2 n d - 52) (-1074)).
    set (m := round_half_even _ _).
    destruct (2 ^ 1024 <=? _)%Z; [done|].
    cbn [num_le]. apply Qle_bool_iff. rewrite Qred_correct.
    unfold Qle. cbn [Qnum Qden]. rewrite Z.mul_0_l, Z.mul_1_r.
    apply Z.mul_nonneg_nonneg; [|apply Z.pow_nonneg; lia].
    apply round_half_even_nonneg.
    + apply Z.mul_nonneg_nonneg; [lia|apply Z.pow_nonneg; lia].
    + apply Z.mul_pos_pos; [lia|apply Z.pow_pos_nonneg; lia].
  - exfalso. unfold Qle in Hx. cbn [Qnum Qden] in Hx. lia.
Qed.

Lemma fadd_nonneg a b :
  num_le (Fin 0) a = true → num_le (Fin 0) b = true →
  num_le (Fin 0) (fadd a b) = true.
Proof.
  destruct a as [|x|], b as [|y|]; try done. cbn [num_le fadd].
  intros Hx%Qle_bool_iff Hy%Qle_bool_iff. apply round64_nonneg. Lqa.lra.
Qed.

Lemma float_lengths_from_nonneg acc l :
  Forall (λ i, num_lt (left i) (right i) = true) l →
  num_le (Fin 0) acc = true →
  num_le (Fin 0) (float_lengths_from acc l) = true.
Proof.
  intros Hl. revert acc.
  induction Hl as [|i l Hi _ IH]; intros acc Hacc;
    cbn [float_lengths_from]; [done|].
  destruct (left i) as [|a|], (right i) as [|b|]; try by apply IH.
  apply IH, fadd_nonneg; [done|]. apply round64_nonneg.
  apply num_lt_Fin in Hi. Lqa.lra.
Qed.

(** X10.  In a successful result every interval is non-empty with its
    finite ends at boundaries of known sets, each interval ends strictly
    before the next one starts, and the total length is not negative. *)
Theorem solve_result_shape str_float self r self' :
  solve str_float self = OK (r, self') → success r = true →
  Forall (cut_by self) (intervals r)
  ∧ separated (intervals r)
  ∧ num_le (Fin 0) (total_length r) = true.
Proof.
  intros Hs Hok. apply solve_inv in Hs as (analysis & Ha & Ho).
  pose proof (optimize_success_inv _ _ _ _ _ Ho Hok) as H. simpl in H.
  destruct H as (_ & Hint & Hempty & Hne).
  assert (Forall (cut_by self) (intervals r)) as Hcut.
  { rewrite Hint. apply merge_intervals_Forall.
    - apply merged_with_cut_by.
    - apply Forall_forall. intros i Hi.
      apply collect_included_elem in Hi as (ci & Hci & <- & _).
      apply region_cut_by. by eapply analysis_elem. }
  split; [done|]. split.
  - rewrite Hint. apply merge_intervals_shape.
  - assert (total_length r = float_lengths_spec (intervals r)) as ->.
    { destruct (intervals r) as [|i l] eqn:Ei.
      - by rewrite Hempty.
      - destruct Hne as [-> _]; [by rewrite <- Hint|].
        rewrite <- Hint. apply finite_length_sum_spec. }
    apply float_lengths_from_nonneg; [|done].
    eapply Forall_impl; [exact Hcut|]. by intros i [? _].
Qed.

Lemma solve_result_shape_witness :
  Forall (cut_by example_solver) example_result_intervals
  ∧ separated example_result_intervals
  ∧ num_le (Fin 0) (Fin 16) = true.
Proof.
  exact (solve_result_shape example_str_float example_solver _ _
           example_solve eq_refl).
Defined.

(** ** Decoding a concatenation *)

Lemma append_cons b s1 s2 : String b s1 +:+ s2 = String b (s1 +:+ s2).
Proof. done. Qed.

Lemma append_nil s : EmptyString +:+ s = s.
Proof. done. Qed.

Lemma utf8_chars_go_0 s cp sp :
  utf8_chars_go s 0 cp sp = utf8_chars_go s 0 0%N EmptyString.
Proof. by destruct s. Qed.

Lemma utf8_chars_go_app s1 s2 :
  ∀ pending cp sp,
    utf8_state s1 pending = 0 →
    utf8_chars_go (s1 +:+ s2) pending cp sp
    = utf8_chars_go s1 pending cp sp ++ utf8_chars s2.
Proof.
  induction s1 as [|b s1 IH]; intros pending cp sp Hst.
  - simpl in Hst. subst pending. rewrite append_nil.
    cbn [utf8_chars_go app]. apply utf8_chars_go_0.
  - rewrite append_cons. cbn [utf8_chars_go utf8_state] in *.
    destruct pending as [|k].
    + destruct (N_of_ascii b <? 128)%N; [by rewrite <- app_comm_cons, IH|].
      destruct (N_of_ascii b <? 224)%N; [by apply IH|].
      destruct (N_of_ascii b <? 240)%N; by apply IH.
    + destruct k as [|k]; [by rewrite <- app_comm_cons, IH|by apply IH].
Qed.

Lemma utf8_state_app s1 s2 pending :
  utf8_state (s1 +:+ s2) pending = utf8_state s2 (utf8_state s1 pending).
Proof.
  revert pending. induction s1 as [|b s1 IH]; intros pending; [done|].
  rewrite append_cons. cbn [utf8_state]. destruct pending as [|k]; [|apply IH].
  destruct (N_of_ascii b <? 128)%N; [apply IH|].
  destruct (N_of_ascii b <? 224)%N; [apply IH|].
  destruct (N_of_ascii b <? 240)%N; apply IH.
Qed.

Lemma utf8_chars_app s1 s2 :
  utf8_state s1 0 = 0 → utf8_chars (s1 +:+ s2) = utf8_chars s1 ++ utf8_chars s2.
Proof. intros H. unfold utf8_chars. by apply utf8_chars_go_app. Qed.

Lemma append_nil_r s : s +:+ EmptyString = s.
Proof. induction s as [|b s IH]; [done|]. by rewrite append_cons, IH. Qed.

(** The decoder loses no byte of a text that is a whole number of
    characters. *)
Lemma spelling_go s :
  ∀ pending cp sp,
    utf8_state s pending = 0 →
    spelling (utf8_chars_go s pending cp sp)
    = match pending with 0 => s | S _ => sp +:+ s end.
Proof.
  induction s as [|b s IH]; intros pending cp sp Hst.
  - simpl in Hst. by subst pending.
  - cbn [utf8_chars_go utf8_state] in *. destruct pending as [|k].
    + destruct (N_of_ascii b <? 128)%N.
      { cbn [spelling foldr snd]. fold (spelling (utf8_chars_go s 0 0%N EmptyString)).
        by rewrite (IH 0). }
      destruct (N_of_ascii b <? 224)%N; [by rewrite (IH 1)|].
      destruct (N_of_ascii b <? 240)%N; [by rewrite (IH 2)|by rewrite (IH 3)].
    + destruct k as [|k].
      * cbn [spelling foldr snd].
        fold (spelling (utf8_chars_go s 0 0%N EmptyString)).
        rewrite (IH 0) by done. by rewrite string_app_assoc.
      * rewrite (IH (S k)) by done. by rewrite string_app_assoc.
Qed.

Lemma spelling_chars s : utf8_state s 0 = 0 → spelling (utf8_chars s) = s.
Proof. intros H. unfold utf8_chars. by rewrite (spelling_go s 0). Qed.

Lemma spelling_app a b : spelling (a ++ b) = spelling a +:+ spelling b.
Proof.
  induction a as [|c a IH]; [done|].
  cbn [app spelling foldr]. fold (spelling (a ++ b)). fold (spelling a).
  by rewrite IH, string_app_assoc.
Qed.

(** ** Every decoded character decodes to itself *)

Lemma self_decoding_go s :
  ∀ pending cp sp,
    (∀ rest, match pending with
             | 0 => True
             | S _ =>
               utf8_chars_go (sp +:+ rest) 0 0%N EmptyString
               = utf8_chars_go rest pending cp sp
               ∧ utf8_state (sp +:+ rest) 0 = utf8_state rest pending
             end) →
    Forall self_decoding (utf8_chars_go s pending cp sp).
Proof.
  induction s as [|b s IH]; intros pending cp sp Hinv; [constructor|].
  cbn [utf8_chars_go]. destruct pending as [|k].
  - destruct (N_of_ascii b <? 128)%N eqn:E1.
    { constructor; [|by apply IH]. unfold self_decoding, utf8_chars.
      cbn [snd byte_str utf8_chars_go utf8_state]. by rewrite E1. }
    destruct (N_of_ascii b <? 224)%N eqn:E2.
    { apply IH. intros rest. unfold byte_str. rewrite append_cons, append_nil.
      cbn [utf8_chars_go utf8_state]. by rewrite E1, E2. }
    destruct (N_of_ascii b <? 240)%N eqn:E3.
    { apply IH. intros rest. unfold byte_str. rewrite append_cons, append_nil.
      cbn [utf8_chars_go utf8_state]. by rewrite E1, E2, E3. }
    apply IH. intros rest. unfold byte_str. rewrite append_cons, append_nil.
    cbn [utf8_chars_go utf8_state]. by rewrite E1, E2, E3.
  - destruct k as [|k].
    + constructor; [|by apply IH]. unfold self_decoding, utf8_chars.
      cbn [snd]. destruct (Hinv (byte_str b)) as [H1 H2].
      rewrite H1, H2. by cbn [byte_str utf8_chars_go utf8_state].
    + apply IH. intros rest. rewrite string_app_assoc.
      destruct (Hinv (byte_str b +:+ rest)) as [H1 H2].
      rewrite H1, H2. unfold byte_str. rewrite append_cons, append_nil.
      by cbn [utf8_chars_go utf8_state].
Qed.

Lemma utf8_chars_self_decoding s : Forall self_decoding (utf8_chars s).
Proof. unfold utf8_chars. by apply self_decoding_go. Qed.

Lemma self_decoding_spelling w :
  Forall self_decoding w →
  utf8_chars (spelling w) = w ∧ utf8_state (spelling w) 0 = 0.
Proof.
  induction 1 as [|c w [Hc Hs] _ [IH1 IH2]]; [done|].
  cbn [spelling foldr]. fold (spelling w).
  rewrite utf8_chars_app, utf8_state_app by done.
  by rewrite Hc, Hs, IH1.
Qed.

(** ** Parsing the tokens of a printed formula *)

Lemma level_parser_step equiv f k :
  k ≤ 4 →
  level_parser equiv f k
  = binary_level (level_tok k) (level_op k) (level_parser equiv f (S k)) f.
Proof. intros Hk. destruct k as [|[|[|[|[|]]]]]; try done. lia. Qed.

Lemma tok_level_level_tok k : k ≤ 4 → tok_level (level_tok k) = Some k.
Proof. intros Hk. destruct k as [|[|[|[|[|]]]]]; try done. lia. Qed.

Lemma binary_loop_stops k op operand fuel acc rest :
  k ≤ 4 → stops k rest →
  binary_loop (level_tok k) op operand fuel acc rest = OK (acc, rest).
Proof.
  intros Hk Hst. destruct rest as [|t rest]; [done|].
  pose proof (tok_level_level_tok k Hk) as Hlt.
  destruct fuel; cbn [binary_loop current res_bind]; case_decide as Ht;
    try done; exfalso; simpl in Hst;
    rewrite Ht in Hst; specialize (Hst _ Hlt); lia.
Qed.

(** An operand read at the level of NOT is read the same at any looser
    level, when no operator of that level or above follows. *)
Lemma level_parser_down equiv f ts a rest d :
  ∀ j, j + d ≤ 5 →
    level_parser equiv f (j + d) ts = OK (a, rest) → stops j rest →
    level_parser equiv f j ts = OK (a, rest).
Proof.
  induction d as [|d IH]; intros j Hj Hp Hst.
  - by rewrite Nat.add_0_r in Hp.
  - rewrite level_parser_step by lia. unfold binary_level.
    rewrite (IH (S j));
      [|lia|by replace (S j + d) with (j + S d) by lia
       |by eapply stops_mono; [|done]; lia].
    cbn [res_bind]. apply binary_loop_stops; [lia|done].
Qed.

Lemma repr_toks_length t : 5 ≤ length (repr_toks t) ∨ ∃ o, t = NotNode o.
Proof.
  induction t as [v s|o IH|op l IHl r IHr].
  - left. simpl. lia.
  - right. by exists o.
  - left. cbn [repr_toks length]. rewrite !length_app. cbn [length].
    assert (1 ≤ length (repr_toks l)) by (destruct l; simpl; lia).
    assert (1 ≤ length (repr_toks r)) by (destruct r; simpl; lia). lia.
Qed.

Lemma parse_not_repr t :
  ∀ f rest,
    ops_ok t → length (repr_toks t) ≤ f →
    _parse_not (_parse_equiv f) (repr_toks t ++ rest) = OK (t, rest).
Proof.
  induction t as [v s|o IH|op l IHl r IHr]; intros f rest Hok Hlen.
  - cbn [repr_toks app _parse_not type tok]. rewrite decide_False by done.
    unfold _parse_atom. cbn [current res_bind type tok _advance tail].
    rewrite decide_True by done.
    pose proof (parse_equiv_render f (MembershipNode v s)
                  (tok RPAREN ")" :: rest)) as He.
    cbn [render app] in He. rewrite He; [done|done| |by simpl].
    simpl in *. lia.
  - cbn [repr_toks app _parse_not type tok]. rewrite decide_True by done.
    rewrite IH; [done|done|]. simpl in Hlen. lia.
  - destruct Hok as (Hop & Hl & Hr).
    destruct (known_op_level op Hop) as (Hk & Hname & Htok).
    cbn [repr_toks length] in Hlen. rewrite !length_app in Hlen.
    cbn [length] in Hlen.
    assert (1 ≤ length (repr_toks l)) by (destruct l; simpl; lia).
    destruct f as [|f]; [lia|]. destruct f as [|f]; [lia|].
    cbn [repr_toks app _parse_not type tok]. rewrite decide_False by done.
    unfold _parse_atom. cbn [current res_bind type tok _advance tail].
    rewrite decide_True by done.
    repeat (rewrite <- app_assoc; cbn [app]).
    change (_parse_equiv (S (S f)))
      with (level_parser (_parse_equiv (S f)) (S f) 0).
    rewrite (level_parser_down _ _ _ (BinaryNode op l r)
               (tok RPAREN ")" :: rest) (op_level op) 0);
      [done|simpl; lia| |by simpl].
    cbn [Nat.add]. rewrite level_parser_step by done. unfold binary_level.
    rewrite (level_parser_down _ _ _ l
               (tok (op_token op) op :: repr_toks r ++ tok RPAREN ")" :: rest)
               (4 - op_level op) (S (op_level op))).
    + cbn [res_bind binary_loop current type tok]. rewrite Htok.
      rewrite decide_True by done. cbn [_advance tail].
      rewrite (level_parser_down _ _ _ r (tok RPAREN ")" :: rest)
                 (4 - op_level op) (S (op_level op))).
      * cbn [res_bind]. rewrite Hname, <- Htok.
        apply binary_loop_stops; [done|by simpl].
      * lia.
      * replace (S (op_level op) + (4 - op_level op)) with 5 by lia.
        apply IHr; [done|lia].
      * by simpl.
    + lia.
    + replace (S (op_level op) + (4 - op_level op)) with 5 by lia.
      apply IHl; [done|lia].
    + simpl. intros j Hj. rewrite <- Htok, tok_level_level_tok in Hj by done.
      injection Hj as <-. lia.
Qed.

Lemma parse_repr_toks t :
  ops_ok t → parse (repr_toks t ++ [tok EOF EmptyString]) = OK t.
Proof.
  intros Hok. unfold parse.
  change (_parse_equiv (S (length (repr_toks t ++ [tok EOF EmptyString]))))
    with (level_parser
            (_parse_equiv (length (repr_toks t ++ [tok EOF EmptyString])))
            (length (repr_toks t ++ [tok EOF EmptyString])) 0).
  rewrite (level_parser_down _ _ _ t [tok EOF EmptyString] 5 0);
    [done|simpl; lia| |by simpl].
  apply parse_not_repr; [done|]. rewrite length_app. lia.
Qed.

(** ** Character classes *)

Lemma lower_cases x :
  (lower x = x + 32 ∧ 65 ≤ x ≤ 90
   ∨ lower x = 105 ∧ x = 304
   ∨ lower x = 107 ∧ x = 8490
   ∨ lower x = x ∧ ¬ (65 ≤ x ≤ 90) ∧ x ≠ 304 ∧ x ≠ 8490)%N.
Proof.
  unfold lower.
  destruct (N.leb_spec 65 x), (N.leb_spec x 90), (N.eqb_spec x 304),
    (N.eqb_spec x 8490); cbn [andb]; lia.
Qed.

Ltac cp_bool :=
  repeat match goal with
  | H : (_ && _) = true |- _ => apply andb_true_iff in H as [? ?]
  | H : (_ || _) = true |- _ => apply orb_true_iff in H as [?|?]
  | H : (_ && _) = false |- _ => apply andb_false_iff in H as [?|?]
  | H : (_ || _) = false |- _ => apply orb_false_iff in H as [? ?]
  | H : (_ <=? _)%N = true |- _ => apply N.leb_le in H
  | H : (_ <=? _)%N = false |- _ => apply N.leb_gt in H
  | H : (_ <? _)%N = true |- _ => apply N.ltb_lt in H
  | H : (_ <? _)%N = false |- _ => apply N.ltb_ge in H
  | H : (_ =? _)%N = true |- _ => apply N.eqb_eq in H
  | H : (_ =? _)%N = false |- _ => apply N.eqb_neq in H
  end.

Lemma ident_start_lower c :
  is_ident_start c = true →
  (97 ≤ lower c ≤ 122 ∨ lower c = 95 ∨ lower c = 305 ∨ lower c = 383)%N
  ∧ (c = 305 ∨ c = 383 → lower c = c)%N.
Proof.
  unfold is_ident_start, is_letter. intros H.
  destruct (lower_cases c) as [[? ?]|[[? ?]|[[? ?]|[? ?]]]];
    cp_bool; lia.
Qed.

Lemma ident_start_not_space c :
  is_ident_start c = true → is_space c = false.
Proof.
  intros H. apply ident_start_lower in H as [H1 H2].
  destruct (is_space c) eqn:E; [|done]. exfalso.
  unfold is_space in E.
  destruct (lower_cases c) as [[? ?]|[[? ?]|[[? ?]|[? ?]]]];
    cp_bool; lia.
Qed.

(** A literal that starts with a symbol does not match at a letter or an
    underscore. *)
Lemma ident_start_ci_eq p c :
  ((97 <=? lower p) && (lower p <=? 122) || (lower p =? 95)
   || (lower p =? 305) || (lower p =? 383))%N = false →
  is_ident_start c = true → ci_eq p c = false.
Proof.
  intros Hp H. apply ident_start_lower in H as [H1 H2].
  destruct (ci_eq p c) eqn:E; [|done]. exfalso.
  unfold ci_eq in E. cp_bool; lia.
Qed.

(** What matches a letter of a pattern is an identifier character. *)
Lemma ci_eq_letter p x :
  is_letter p = true → ci_eq p x = true → is_ident_char x = true.
Proof.
  intros Hp E. unfold is_ident_char, is_ident_start.
  assert (is_letter x = true) as ->; [|done].
  unfold is_letter, ci_eq in *. apply orb_true_iff.
  destruct (N.eqb_spec x 383) as [|Hx]; [by right|]. left.
  apply orb_true_iff.
  destruct (N.eqb_spec x 305) as [|Hx']; [by right|]. left.
  apply andb_true_iff. rewrite N.leb_le, N.leb_le.
  destruct (lower_cases x) as [[? ?]|[[? ?]|[[? ?]|[? ?]]]];
    destruct (lower_cases p) as [[? ?]|[[? ?]|[[? ?]|[? ?]]]];
    cp_bool; lia.
Qed.

Lemma count_while_ident w cs :
  Forall (λ c : uchar, is_ident_char c.1 = true) w →
  count_while is_ident_char (w ++ cs)
  = length w + count_while is_ident_char cs.
Proof.
  induction 1 as [|c w Hc _ IH]; [done|].
  cbn [app count_while length]. by rewrite Hc, IH.
Qed.

Lemma count_while_take f cs :
  Forall (λ c : uchar, f c.1 = true) (take (count_while f cs) cs)
  ∧ count_while f (drop (count_while f cs) cs) = 0.
Proof.
  induction cs as [|c cs [IH1 IH2]]; [by split|].
  cbn [count_while]. destruct (f c.1) eqn:E.
  - cbn [take drop]. split; [by constructor|done].
  - cbn [take drop count_while]. rewrite E. by split.
Qed.

Lemma match_lit_length pat : ∀ cs n, match_lit pat cs = Some n → n = length pat.
Proof.
  induction pat as [|p pat IH]; intros cs n H.
  - by injection H as <-.
  - cbn [match_lit] in H. destruct cs as [|c cs]; [done|].
    destruct (ci_eq p c.1); [|done].
    destruct (match_lit pat cs) as [n'|] eqn:Hm; [|done].
    injection H as <-. cbn [length]. f_equal. by eapply IH.
Qed.

Lemma match_lit_app pat : ∀ w cs n,
  match_lit pat w = Some n → match_lit pat (w ++ cs) = Some n.
Proof.
  induction pat as [|p pat IH]; intros w cs n H; [done|].
  cbn [match_lit] in *. destruct w as [|c w]; [done|]. cbn [app].
  destruct (ci_eq p c.1); [|done].
  destruct (match_lit pat w) as [n'|] eqn:Hm; [|done].
  by rewrite (IH w cs n' Hm).
Qed.

(** ** Patterns that do not match at an identifier *)

Lemma lit_alt_fails s p pat c cs :
  lit s = p :: pat →
  ((97 <=? lower p) && (lower p <=? 122) || (lower p =? 95)
   || (lower p =? 305) || (lower p =? 383))%N = false →
  is_ident_start c.1 = true →
  match_alt (Lit s) (c :: cs) = None.
Proof.
  intros Hs Hp Hc. cbn [match_alt]. rewrite Hs. cbn [match_lit].
  by rewrite ident_start_ci_eq.
Qed.

Lemma bar_alt_fails c cs :
  is_ident_start c.1 = true → match_alt BarNotBar (c :: cs) = None.
Proof.
  intros Hc. cbn [match_alt match_lit]. by rewrite ident_start_ci_eq.
Qed.

(** A word of letters that matches at an identifier, up to a word
    boundary, matches the whole identifier. *)
Lemma word_match pat :
  Forall (λ p, is_letter p = true) pat →
  ∀ w cs n,
    Forall (λ c : uchar, is_ident_char c.1 = true) w →
    count_while is_ident_char cs = 0 →
    match_lit pat (w ++ cs) = Some n →
    at_word_end (w ++ cs) n = true →
    match_lit pat w = Some (length w).
Proof.
  induction 1 as [|p pat Hp _ IH]; intros w cs n Hw Hcs Hm Hend.
  - cbn [match_lit] in Hm. injection Hm as <-.
    destruct Hw as [|c w Hc _]; [done|].
    unfold at_word_end in Hend. cbn [drop app] in Hend.
    unfold is_word in Hend. by rewrite Hc in Hend.
  - destruct Hw as [|c w Hc Hw].
    + cbn [app] in Hm. destruct cs as [|c cs]; [done|].
      cbn [match_lit] in Hm. destruct (ci_eq p c.1) eqn:E; [|done].
      cbn [count_while] in Hcs.
      by rewrite (ci_eq_letter p c.1 Hp E) in Hcs.
    + cbn [app match_lit length] in *.
      destruct (ci_eq p c.1); [|done].
      destruct (match_lit pat (w ++ cs)) as [n'|] eqn:Hm'; [|done].
      injection Hm as <-. unfold at_word_end in Hend. cbn [drop] in Hend.
      by rewrite (IH w cs n' Hw Hcs Hm' Hend).
Qed.

Lemma word_alt_fails kw w cs :
  Forall (λ p, is_letter p = true) (lit kw) →
  Forall (λ c : uchar, is_ident_char c.1 = true) w →
  count_while is_ident_char cs = 0 →
  match_lit (lit kw) w ≠ Some (length w) →
  match_alt (Word kw) (w ++ cs) = None.
Proof.
  intros Hkw Hw Hcs Hk. cbn [match_alt].
  destruct (match_lit (lit kw) (w ++ cs)) as [n|] eqn:Hm; [|done].
  cbn [mbind option_bind].
  destruct (at_word_end (w ++ cs) n) eqn:Hend; [|done].
  exfalso. apply Hk. by eapply word_match.
Qed.

(** Conversely, a word that matches the whole identifier matches in the
    text, where the identifier ends at a word boundary. *)
Lemma word_alt_matches kw w cs :
  count_while is_ident_char cs = 0 →
  match_lit (lit kw) w = Some (length w) →
  match_alt (Word kw) (w ++ cs) = Some (length w).
Proof.
  intros Hcs Hm. cbn [match_alt]. rewrite (match_lit_app _ _ cs _ Hm).
  cbn [mbind option_bind]. unfold at_word_end.
  rewrite drop_app_length. destruct cs as [|c cs]; [done|].
  cbn [count_while] in Hcs. unfold is_word.
  by destruct (is_ident_char c.1).
Qed.

Lemma keywords_letters :
  Forall (λ kw, Forall (λ p, is_letter p = true) (lit kw)) keywords.
Proof. repeat constructor. Qed.

Lemma ident_word_chars w :
  ident_word w → Forall (λ c : uchar, is_ident_char c.1 = true) w.
Proof.
  destruct w as [|c w]; [done|]. intros [Hc Hw]. constructor; [|done].
  unfold is_ident_char. by rewrite Hc.
Qed.

(** The lexer reads an identifier as such, up to the next character that
    cannot stand in an identifier. *)
Lemma first_match_identifier w cs :
  ident_word w → not_keyword w → count_while is_ident_char cs = 0 →
  first_match TOKEN_PATTERNS (w ++ cs) = Some (Some IDENTIFIER, length w).
Proof.
  intros Hw Hkw Hcs.
  pose proof (ident_word_chars w Hw) as Hall.
  pose proof keywords_letters as Hl. unfold not_keyword, keywords in Hkw, Hl.
  repeat match goal with
  | H : Forall _ (_ :: _) |- _ => apply Forall_cons in H as [? H]
  end.
  assert (∀ kw, Forall (λ p, is_letter p = true) (lit kw) →
            match_lit (lit kw) w ≠ Some (length w) →
            match_alt (Word kw) (w ++ cs) = None) as Hword
    by (intros; by apply word_alt_fails).
  repeat match goal with
  | H1 : Forall _ (lit ?kw), H2 : match_lit (lit ?kw) w ≠ _ |- _ =>
    pose proof (Hword kw H1 H2); clear H1 H2
  end.
  clear Hword Hkw Hl Hall.
  destruct w as [|c w]; [done|]. destruct Hw as [Hc Hrest].
  cbn [app] in *.
  unfold TOKEN_PATTERNS.
  cbn [first_match match_pattern match_alts count_while].
  rewrite (ident_start_not_space c.1 Hc).
  repeat first
    [ erewrite lit_alt_fails by (reflexivity || done)
    | rewrite bar_alt_fails by done
    | match goal with H : match_alt (Word _) _ = None |- _ =>
        rewrite H; clear H end ].
  rewrite Hc, count_while_ident, Hcs by done.
  cbn [length]. by rewrite Nat.add_0_r.
Qed.

(** ** Lexing a printed formula *)

Lemma prepend_prepend a b r : prepend a (prepend b r) = prepend (a ++ b) r.
Proof.
  unfold prepend. destruct r as [rest|e]; cbn [res_bind]; [|done].
  by rewrite app_assoc.
Qed.

Lemma prepend_nil r : prepend [] r = r.
Proof. by destruct r. Qed.

Lemma tokenize_skip pre :
  ∀ cs pos,
    _tokenize (pre ++ cs) (length pre) pos = _tokenize cs 0 (pos + length pre).
Proof.
  induction pre as [|c pre IH]; intros cs pos.
  - cbn [app length]. by rewrite Nat.add_0_r.
  - cbn [app length _tokenize]. rewrite IH. f_equal. lia.
Qed.

(** One round of the loop of [_tokenize]: the lexeme [c :: pre] is turned
    into its token, or dropped, and the loop goes on behind it. *)
Lemma tokenize_lexeme c pre cs ty pos :
  first_match TOKEN_PATTERNS (c :: pre ++ cs) = Some (ty, S (length pre)) →
  _tokenize (c :: pre ++ cs) 0 pos
  = prepend match ty with
            | Some t => [mkToken t (spelling (c :: pre)) pos]
            | None => []
            end
      (_tokenize cs 0 (S pos + length pre)).
Proof.
  intros H. cbn [_tokenize]. rewrite H. cbn [Nat.pred].
  rewrite tokenize_skip. cbn [take]. rewrite take_app_length.
  unfold prepend. destruct (_tokenize cs 0 (S pos + length pre)); [|done].
  cbn [res_bind]. by destruct ty.
Qed.

Lemma tokenize_symbol c cs ty pos :
  first_match TOKEN_PATTERNS (c :: cs) = Some (Some ty, 1) →
  _tokenize (c :: cs) 0 pos
  = prepend [mkToken ty (spelling [c]) pos] (_tokenize cs 0 (S pos)).
Proof.
  intros H. pose proof (tokenize_lexeme c [] cs (Some ty) pos H) as He.
  cbn [app length] in He. by rewrite Nat.add_0_r in He.
Qed.

Lemma tokenize_space cs pos :
  count_while is_space cs = 0 →
  _tokenize ((32%N, " ") :: cs) 0 pos = _tokenize cs 0 (S pos).
Proof.
  intros H. pose proof (tokenize_lexeme (32%N, " ") [] cs None pos) as He.
  cbn [app length] in He. rewrite prepend_nil, Nat.add_0_r in He.
  apply He. unfold TOKEN_PATTERNS.
  cbn [first_match match_pattern count_while fst]. by rewrite H.
Qed.

Lemma tokenize_identifier name cs pos :
  identifier_name name → count_while is_ident_char cs = 0 →
  _tokenize (utf8_chars name ++ cs) 0 pos
  = prepend [mkToken IDENTIFIER name pos]
      (_tokenize cs 0 (pos + length (utf8_chars name))).
Proof.
  intros (Hst & Hw & Hkw) Hcs.
  pose proof (first_match_identifier _ cs Hw Hkw Hcs) as Hm.
  pose proof (spelling_chars name Hst) as Hsp.
  destruct (utf8_chars name) as [|c w]; [done|].
  cbn [app length] in *.
  rewrite (tokenize_lexeme _ _ _ _ pos Hm).
  replace (S pos + length w) with (pos + S (length w)) by lia.
  f_equal. f_equal. f_equal. exact Hsp.
Qed.

(** ** The characters of a printed formula *)

Lemma chars_lparen s : utf8_chars ("(" +:+ s) = (40%N, "(") :: utf8_chars s.
Proof. reflexivity. Qed.

Lemma chars_not s : utf8_chars ("¬" +:+ s) = (172%N, "¬") :: utf8_chars s.
Proof. reflexivity. Qed.

Lemma chars_space s : utf8_chars (" " +:+ s) = (32%N, " ") :: utf8_chars s.
Proof. reflexivity. Qed.

Lemma chars_in s :
  utf8_chars (" ∈ " +:+ s)
  = (32%N, " ") :: (8712%N, "∈") :: (32%N, " ") :: utf8_chars s.
Proof. reflexivity. Qed.

Lemma chars_op_symbol op s :
  known_op op →
  ∃ c, utf8_chars (op_symbol op +:+ s) = c :: utf8_chars s
       ∧ is_space c.1 = false
       ∧ ∀ cs, first_match TOKEN_PATTERNS (c :: cs) = Some (Some (op_token op), 1).
Proof.
  unfold known_op. rewrite !elem_of_cons, elem_of_nil.
  intros [->|[->|[->|[->|[->|[]]]]]].
  - by exists (8743%N, "∧").
  - by exists (8744%N, "∨").
  - by exists (8594%N, "→").
  - by exists (8801%N, "≡").
  - by exists (8853%N, "⊕").
Qed.

Lemma op_symbol_state op : known_op op → utf8_state (op_symbol op) 0 = 0.
Proof.
  unfold known_op. rewrite !elem_of_cons, elem_of_nil.
  by intros [->|[->|[->|[->|[->|[]]]]]].
Qed.

Lemma repr_state t :
  ops_ok t → names_ok t → utf8_state (ASTNode_repr t) 0 = 0.
Proof.
  induction t as [v s|o IH|op l IHl r IHr]; intros Hok Hn;
    cbn [ASTNode_repr]; rewrite !utf8_state_app.
  - destruct Hn as [[Hv _] [Hs _]].
    change (utf8_state "(" 0) with 0. rewrite Hv.
    change (utf8_state " ∈ " 0) with 0. by rewrite Hs.
  - change (utf8_state "¬" 0) with 0. by apply IH.
  - destruct Hok as (Hop & Hl & Hr). destruct Hn as [Hnl Hnr].
    change (utf8_state "(" 0) with 0. rewrite (IHl Hl Hnl).
    change (utf8_state " " 0) with 0. rewrite (op_symbol_state op Hop).
    change (utf8_state " " 0) with 0. by rewrite (IHr Hr Hnr).
Qed.

Lemma repr_head_not_space t cs :
  count_while is_space (utf8_chars (ASTNode_repr t) ++ cs) = 0.
Proof.
  destruct t; cbn [ASTNode_repr]; by rewrite ?chars_lparen, ?chars_not.
Qed.

Lemma identifier_not_space name cs :
  identifier_name name → count_while is_space (utf8_chars name ++ cs) = 0.
Proof.
  intros (_ & Hw & _). destruct (utf8_chars name) as [|c w]; [done|].
  destruct Hw as [Hc _]. cbn [app count_while].
  by rewrite (ident_start_not_space c.1 Hc).
Qed.

Lemma same_kind_tok ty v p v' :
  ty ≠ IDENTIFIER → same_kind (mkToken ty v p) (tok ty v').
Proof. intros H. split; [done|]. by intros ?. Qed.

Lemma same_kind_identifier v p :
  same_kind (mkToken IDENTIFIER v p) (tok IDENTIFIER v).
Proof. by split. Qed.

(** The lexer turns the text of a printed formula into the tokens of
    [repr_toks], whatever text follows. *)
Lemma tokenize_repr t :
  ops_ok t → names_ok t →
  ∀ cs pos, ∃ toks n,
    Forall2 same_kind toks (repr_toks t)
    ∧ _tokenize (utf8_chars (ASTNode_repr t) ++ cs) 0 pos
      = prepend toks (_tokenize cs 0 n).
Proof.
  induction t as [v s|o IH|op l IHl r IHr]; intros Hok Hn cs pos;
    cbn [ASTNode_repr repr_toks].
  - destruct Hn as [Hv Hs].
    rewrite chars_lparen, (utf8_chars_app v) by apply Hv.
    rewrite chars_in, (utf8_chars_app s) by apply Hs.
    change (utf8_chars ")") with [(41%N, ")")].
    repeat (cbn [app]; rewrite <- app_assoc). cbn [app].
    rewrite (tokenize_symbol _ _ LPAREN) by reflexivity.
    rewrite (tokenize_identifier v) by done.
    rewrite tokenize_space by reflexivity.
    rewrite (tokenize_symbol _ _ IN) by reflexivity.
    rewrite tokenize_space by by apply identifier_not_space.
    rewrite (tokenize_identifier s) by done.
    rewrite (tokenize_symbol _ _ RPAREN) by reflexivity.
    rewrite !prepend_prepend. eexists _, _. split; [|reflexivity].
    cbn [app]. repeat constructor; done.
  - rewrite chars_not. cbn [app].
    rewrite (tokenize_symbol _ _ NOT) by reflexivity.
    destruct (IH Hok Hn cs (S pos)) as (toks & n & Hk & ->).
    rewrite prepend_prepend. eexists _, _. split; [|reflexivity].
    cbn [app]. constructor; [by apply same_kind_tok|done].
  - destruct Hok as (Hop & Hl & Hr). destruct Hn as [Hnl Hnr].
    rewrite chars_lparen, (utf8_chars_app (ASTNode_repr l))
      by by apply repr_state.
    rewrite chars_space.
    destruct (chars_op_symbol op (" " +:+ ASTNode_repr r +:+ ")") Hop)
      as (c & -> & Hc & Hm).
    rewrite chars_space, (utf8_chars_app (ASTNode_repr r))
      by by apply repr_state.
    change (utf8_chars ")") with [(41%N, ")")].
    repeat (cbn [app]; rewrite <- app_assoc). cbn [app].
    rewrite (tokenize_symbol _ _ LPAREN) by reflexivity.
    match goal with
    | |- context [_tokenize (utf8_chars (ASTNode_repr l) ++ ?cs') 0 ?p] =>
      destruct (IHl Hl Hnl cs' p) as (tl & nl & Hkl & ->)
    end.
    rewrite tokenize_space by (cbn [count_while]; by rewrite Hc).
    rewrite (tokenize_symbol _ _ (op_token op)) by apply Hm.
    rewrite tokenize_space by apply repr_head_not_space.
    match goal with
    | |- context [_tokenize (utf8_chars (ASTNode_repr r) ++ ?cs') 0 ?p] =>
      destruct (IHr Hr Hnr cs' p) as (tr & nr & Hkr & ->)
    end.
    rewrite (tokenize_symbol _ _ RPAREN) by reflexivity.
    rewrite !prepend_prepend. eexists _, _. split; [|reflexivity].
    rewrite <- !app_assoc. cbn [app]. constructor; [by apply same_kind_tok|].
    apply Forall2_app; [done|].
    constructor.
    { apply same_kind_tok. unfold op_token. by repeat case_decide. }
    apply Forall2_app; [done|].
    constructor; [by apply same_kind_tok|constructor].
Qed.

Lemma parse_formula_repr node :
  ops_ok node → names_ok node → parse_formula (ASTNode_repr node) = OK node.
Proof.
  intros Hok Hn. unfold parse_formula, Lexer.
  destruct (tokenize_repr node Hok Hn [] 0) as (toks & n & Hk & He).
  rewrite app_nil_r in He. rewrite He.
  cbn [_tokenize prepend res_bind].
  assert (Forall2 same_kind (toks ++ [mkToken EOF EmptyString n])
            (repr_toks node ++ [tok EOF EmptyString])) as H.
  { apply Forall2_app; [done|]. constructor; [by split|constructor]. }
  apply parse_respects_kind in H. rewrite (parse_repr_toks node Hok) in H.
  destruct (parse (toks ++ [mkToken EOF EmptyString n])); [by subst|done].
Qed.

(** ** Names of a parsed formula *)

Lemma match_alts_none al cs :
  match_alts al cs = None → Forall (λ a, match_alt a cs = None) al.
Proof.
  induction al as [|a al IH]; [constructor|]. cbn [match_alts].
  destruct (match_alt a cs) eqn:E; [done|]. intros H. constructor; auto.
Qed.

(** Where the lexer finds an identifier, its characters are those of an
    identifier and no operator word matches the whole of it. *)
Lemma first_match_identifier_inv cs n :
  first_match TOKEN_PATTERNS cs = Some (Some IDENTIFIER, n) →
  ident_word (take n cs) ∧ not_keyword (take n cs).
Proof.
  unfold TOKEN_PATTERNS. cbn [first_match]. intros H.
  repeat match type of H with
  | match match_pattern ?p cs with _ => _ end = _ =>
    let E := fresh "E" in
    destruct (match_pattern p cs) eqn:E; [try discriminate H|]
  end; [|done].
  injection H as ->.
  destruct cs as [|c cs']; [done|]. cbn [match_pattern] in *.
  destruct (is_ident_start c.1) eqn:Hc; [|done].
  match goal with H : Some _ = Some _ |- _ => injection H as <- end.
  destruct (count_while_take is_ident_char cs') as [Htake Hdrop].
  cbn [take]. split; [by split|].
  assert (∀ kw, match_alt (Word kw) (c :: cs') = None →
            match_lit (lit kw)
              (c :: take (count_while is_ident_char cs') cs')
            ≠ Some (length (c :: take (count_while is_ident_char cs') cs')))
    as Hword.
  { intros kw Hnone Hm.
    pose proof (word_alt_matches kw _
                  (drop (count_while is_ident_char cs') cs') Hdrop Hm) as Hs.
    rewrite <- app_comm_cons, take_drop in Hs. by rewrite Hs in Hnone. }
  repeat match goal with
  | H : match_alts _ _ = None |- _ => apply match_alts_none in H
  end.
  repeat match goal with
  | H : Forall _ (_ :: _) |- _ => apply Forall_cons in H as [? H]
  end.
  unfold not_keyword, keywords. repeat constructor; by apply Hword.
Qed.

Lemma tokenize_identifier_tokens cs :
  Forall self_decoding cs →
  ∀ skip pos toks,
    _tokenize cs skip pos = OK toks → Forall identifier_token toks.
Proof.
  induction 1 as [|c cs Hc Hcs IH]; intros skip pos toks Htok.
  - cbn [_tokenize] in Htok. injection Htok as <-.
    constructor; [by intros ?|constructor].
  - cbn [_tokenize] in Htok. destruct skip as [|k]; [|by eapply IH].
    destruct (first_match TOKEN_PATTERNS (c :: cs)) as [[ty n]|] eqn:Hm;
      [|done].
    destruct (_tokenize cs (Nat.pred n) (S pos)) as [toks'|] eqn:Hrest;
      [|done].
    apply IH in Hrest. cbn [res_bind] in Htok.
    destruct ty as [t|]; injection Htok as <-; [|done].
    constructor; [|done]. intros Ht. cbn [type value] in *. subst t.
    apply first_match_identifier_inv in Hm as [Hw Hkw].
    assert (Forall self_decoding (take n (c :: cs))) as Hself
      by by apply Forall_take, Forall_cons.
    apply self_decoding_spelling in Hself as [Hchars Hst].
    split; [done|]. by rewrite Hchars.
Qed.

Lemma Lexer_identifier_tokens text toks :
  Lexer text = OK toks → Forall identifier_token toks.
Proof.
  apply tokenize_identifier_tokens, utf8_chars_self_decoding.
Qed.

Lemma expect_keeps_names ty ts t ts' :
  Forall identifier_token ts → _expect ty ts = OK (t, ts') →
  identifier_token t ∧ type t = ty ∧ Forall identifier_token ts'.
Proof.
  intros Hts He. apply expect_inv in He as [-> Hty].
  apply Forall_cons in Hts as [? ?]. done.
Qed.

Lemma parse_membership_keeps_names : keeps_names _parse_membership.
Proof.
  intros ts Hts. unfold _parse_membership.
  destruct (_expect IDENTIFIER ts) as [[t1 ts1]|e] eqn:E1; [|done].
  apply (expect_keeps_names _ _ _ _ Hts) in E1 as (H1 & Ht1 & Hts1).
  cbn [res_bind].
  destruct (_expect IN ts1) as [[t2 ts2]|e] eqn:E2; [|done].
  apply (expect_keeps_names _ _ _ _ Hts1) in E2 as (_ & _ & Hts2).
  cbn [res_bind].
  destruct (_expect IDENTIFIER ts2) as [[t3 ts3]|e] eqn:E3; [|done].
  apply (expect_keeps_names _ _ _ _ Hts2) in E3 as (H3 & Ht3 & Hts3).
  cbn [res_bind names_ok]. split; [|done]. split; [by apply H1|by apply H3].
Qed.

Lemma parse_atom_keeps_names equiv :
  keeps_names equiv → keeps_names (_parse_atom equiv).
Proof.
  intros Hq ts Hts. unfold _parse_atom.
  destruct ts as [|t ts0]; [done|]. cbn [current res_bind].
  case_decide.
  - cbn [_advance tail]. apply Forall_cons in Hts as [_ Hts0].
    specialize (Hq ts0 Hts0).
    destruct (equiv ts0) as [[a ts1]|e]; [|done]. destruct Hq as [Ha Hts1].
    cbn [res_bind].
    destruct (_expect RPAREN ts1) as [[t2 ts2]|e] eqn:E2; [|done].
    apply (expect_keeps_names _ _ _ _ Hts1) in E2 as (_ & _ & Hts2).
    done.
  - by apply parse_membership_keeps_names.
Qed.

Lemma parse_not_keeps_names equiv :
  keeps_names equiv → keeps_names (_parse_not equiv).
Proof.
  intros Hq ts. induction ts as [|t ts0 IH]; intros Hts; [done|].
  cbn [_parse_not]. case_decide.
  - apply Forall_cons in Hts as [_ Hts0]. specialize (IH Hts0).
    by destruct (_parse_not equiv ts0) as [[a ts1]|e].
  - by apply parse_atom_keeps_names.
Qed.

Lemma binary_loop_keeps_names ty op operand :
  keeps_names operand →
  ∀ fuel left_ ts, names_ok left_ → Forall identifier_token ts →
    match binary_loop ty op operand fuel left_ ts with
    | OK (a, ts') => names_ok a ∧ Forall identifier_token ts'
    | Err _ => True
    end.
Proof.
  intros Hp fuel. induction fuel as [|fuel IH]; intros left_ ts Hl Hts.
  - destruct ts as [|t ts0]; [done|]. cbn [binary_loop current res_bind].
    by case_decide.
  - destruct ts as [|t ts0]; [done|]. cbn [binary_loop current res_bind].
    case_decide; [|done]. cbn [_advance tail].
    apply Forall_cons in Hts as [_ Hts0]. specialize (Hp ts0 Hts0).
    destruct (operand ts0) as [[r ts1]|e]; [|done]. destruct Hp as [Hr Hts1].
    cbn [res_bind]. by apply IH.
Qed.

Lemma binary_level_keeps_names ty op operand fuel :
  keeps_names operand → keeps_names (binary_level ty op operand fuel).
Proof.
  intros Hp ts Hts. unfold binary_level. pose proof (Hp ts Hts) as Ho.
  destruct (operand ts) as [[l ts1]|e]; [|done]. destruct Ho as [Hl Hts1].
  cbn [res_bind]. by apply binary_loop_keeps_names.
Qed.

Lemma parse_equiv_keeps_names fuel : keeps_names (_parse_equiv fuel).
Proof.
  induction fuel as [|fuel IH]; [by intros ts _|].
  change (keeps_names
            (binary_level EQUIV "EQUIV"
               (_parse_implies (_parse_equiv fuel) fuel) fuel)).
  unfold _parse_implies, _parse_xor, _parse_or, _parse_and.
  repeat apply binary_level_keeps_names. by apply parse_not_keeps_names.
Qed.

Lemma parse_names_ok tokens a :
  Forall identifier_token tokens → parse tokens = OK a → names_ok a.
Proof.
  intros Hts. unfold parse.
  pose proof (parse_equiv_keeps_names (S (length tokens)) tokens Hts) as H.
  destruct (_parse_equiv _ tokens) as [[r ts]|e]; [|done].
  destruct H as [Hr _]. cbn [res_bind].
  destruct (current ts) as [cur|]; [|done]. cbn [res_bind].
  case_decide; [done|]. by intros [= <-].
Qed.

Lemma parse_formula_names_ok formula a :
  parse_formula formula = OK a → names_ok a.
Proof.
  unfold parse_formula.
  destruct (Lexer formula) as [toks|] eqn:E; [|done]. cbn [res_bind].
  apply parse_names_ok. by eapply Lexer_identifier_tokens.
Qed.

(** ** Printing and reading back *)

Lemma example_names_ok : names_ok (ast example_solver).
Proof.
  assert (∀ s, s ∈ ["x"; "P"; "Q"; "A"] → identifier_name s) as H.
  { intros s Hs. rewrite !elem_of_cons, elem_of_nil in Hs.
    destruct Hs as [->|[->|[->|[->|[]]]]];
      (split; [done|]; split; [by split|]);
      repeat constructor; by vm_compute. }
  cbn [ast example_solver names_ok].
  split; [split; split|split]; apply H; rewrite !elem_of_cons; tauto.
Qed.

Lemma example_ops_ok : ops_ok (ast example_solver).
Proof.
  cbn [ast example_solver ops_ok].
  repeat split; apply known_op_cases; tauto.
Qed.

(** X11.  [__repr__] writes a formula that [parse_formula] reads back to
    the same tree: for every tree whose binary nodes carry one of the five
    operators and whose variable and set names are identifiers of the
    lexer, parsing the printed text returns the tree. *)
Theorem repr_parses_back node :
  ops_ok node → names_ok node →
  parse_formula (ASTNode_repr node) = OK node.
Proof. exact (parse_formula_repr node). Qed.

Lemma repr_parses_back_witness :
  (ops_ok (ast example_solver) ∧ names_ok (ast example_solver))
  ∧ parse_formula (ASTNode_repr (ast example_solver))
    = OK (ast example_solver).
Proof.
  split; [split; [exact example_ops_ok|exact example_names_ok]|].
  exact (repr_parses_back _ example_ops_ok example_names_ok).
Defined.

(** X12.  Printing is a normal form of the input syntax: whatever text
    [parse_formula] accepts, in ASCII or Unicode spelling and with any
    parentheses, the [__repr__] of the tree it returns is accepted too and
    gives the same tree. *)
Theorem parsed_repr_parses_back formula node :
  parse_formula formula = OK node →
  parse_formula (ASTNode_repr node) = OK node.
Proof.
  intros H. apply parse_formula_repr.
  - by eapply parse_formula_ops_ok.
  - by eapply parse_formula_names_ok.
Qed.

Lemma parsed_repr_parses_back_witness :
  parse_formula "!(x in P) | x in Q <-> (x in A)"
  = OK (BinaryNode "EQUIV"
          (BinaryNode "OR" (NotNode (MembershipNode "x" "P"))
             (MembershipNode "x" "Q"))
          (MembershipNode "x" "A"))
  ∧ parse_formula
      (ASTNode_repr
         (BinaryNode "EQUIV"
            (BinaryNode "OR" (NotNode (MembershipNode "x" "P"))
               (MembershipNode "x" "Q"))
            (MembershipNode "x" "A")))
    = OK (BinaryNode "EQUIV"
            (BinaryNode "OR" (NotNode (MembershipNode "x" "P"))
               (MembershipNode "x" "Q"))
            (MembershipNode "x" "A")).
Proof.
  assert (parse_formula "!(x in P) | x in Q <-> (x in A)"
          = OK (BinaryNode "EQUIV"
                  (BinaryNode "OR" (NotNode (MembershipNode "x" "P"))
                     (MembershipNode "x" "Q"))
                  (MembershipNode "x" "A"))) as H by by vm_compute.
  split; [exact H|]. exact (parsed_repr_parses_back _ _ H).
Defined.

(** X13.  Two different trees, with known operators and identifier names,
    never print to the same text. *)
Theorem repr_distinct t1 t2 :
  ops_ok t1 → names_ok t1 → ops_ok t2 → names_ok t2 →
  t1 ≠ t2 → ASTNode_repr t1 ≠ ASTNode_repr t2.
Proof.
  intros Ho1 Hn1 Ho2 Hn2 Hne Heq. apply Hne.
  pose proof (parse_formula_repr t1 Ho1 Hn1) as H1.
  pose proof (parse_formula_repr t2 Ho2 Hn2) as H2.
  rewrite Heq, H2 in H1. by injection H1.
Qed.

Lemma repr_distinct_witness :
  (ops_ok (ast example_solver) ∧ names_ok (ast example_solver)
   ∧ ops_ok (NotNode (ast example_solver))
   ∧ names_ok (NotNode (ast example_solver))
   ∧ ast example_solver ≠ NotNode (ast example_solver))
  ∧ ASTNode_repr (ast example_solver)
    ≠ ASTNode_repr (NotNode (ast example_solver)).
Proof.
  assert (ast example_solver ≠ NotNode (ast example_solver)) as Hne by done.
  split.
  - exact (conj example_ops_ok (conj example_names_ok
             (conj example_ops_ok (conj example_names_ok Hne)))).
  - exact (repr_distinct (ast example_solver) (NotNode (ast example_solver))
             example_ops_ok example_names_ok
             example_ops_ok example_names_ok Hne).
Defined.

(** ** What [solve] leaves in the solver object *)

Lemma format_step_cases str_float parts a b i :
  ∃ parts',
    (is_finite_interval i = false
     ∧ _format_step str_float (parts, a, b) i = (parts', a, b))
    ∨ (is_finite_interval i = true
       ∧ _format_step str_float (parts, a, b) i
         = (parts', Z.max (int_width i) a, Z.min (int_width i) b)).
Proof.
  unfold _format_step, is_finite_interval, int_width.
  destruct (isinf (left i)), (isinf (right i)); cbn [andb negb];
    eexists; (by left) || by right.
Qed.

Lemma format_fold_parts str_float l :
  ∀ parts a b,
    ∃ parts' pmax pmin,
      foldl (_format_step str_float) (parts, a, b) l = (parts', pmax, pmin)
      ∧ (a ≤ pmax)%Z ∧ (pmin ≤ b)%Z
      ∧ (∀ i, i ∈ l → is_finite_interval i = true →
           (pmin ≤ int_width i ≤ pmax)%Z)
      ∧ (pmax = a
         ∨ ∃ i, i ∈ l ∧ is_finite_interval i = true ∧ pmax = int_width i)
      ∧ (pmin = b
         ∨ ∃ i, i ∈ l ∧ is_finite_interval i = true ∧ pmin = int_width i).
Proof.
  induction l as [|i l IH]; intros parts a b.
  - exists parts, a, b. cbn [foldl]. split_and!; try done; try lia; try by left.
    intros i Hi. by apply elem_of_nil in Hi.
  - cbn [foldl].
    destruct (format_step_cases str_float parts a b i)
      as (p1 & [[Hfin ->]|[Hfin ->]]).
    + destruct (IH p1 a b) as (p' & pmax & pmin & -> & Ha & Hb & Hall & Hx & Hn).
      exists p', pmax, pmin. split_and!; try done.
      * intros j Hj Hjf. apply elem_of_cons in Hj as [->|Hj]; [congruence|].
        by apply Hall.
      * destruct Hx as [?|(j & ? & ? & ?)]; [by left|right].
        exists j. split; [by right|done].
      * destruct Hn as [?|(j & ? & ? & ?)]; [by left|right].
        exists j. split; [by right|done].
    + destruct (IH p1 (Z.max (int_width i) a) (Z.min (int_width i) b))
        as (p' & pmax & pmin & -> & Ha & Hb & Hall & Hx & Hn).
      exists p', pmax, pmin. split_and!; try done; try lia.
      * intros j Hj Hjf. apply elem_of_cons in Hj as [->|Hj]; [lia|].
        by apply Hall.
      * destruct Hx as [Hx|(j & ? & ? & ?)].
        -- destruct (Z.max_spec (int_width i) a) as [[_ Hm]|[_ Hm]];
             rewrite Hm in Hx; [by left|right].
           exists i. split; [left|done].
        -- right. exists j. split; [by right|done].
      * destruct Hn as [Hn|(j & ? & ? & ?)].
        -- destruct (Z.min_spec (int_width i) b) as [[_ Hm]|[_ Hm]];
             rewrite Hm in Hn; [right|by left].
           exists i. split; [left|done].
        -- right. exists j. split; [by right|done].
Qed.

Lemma format_result_parts str_float self i l total :
  ∃ pmax pmin,
    parts_max (_format_result str_float self (i :: l) total).2 = Some pmax
    ∧ parts_min (_format_result str_float self (i :: l) total).2 = Some pmin
    ∧ parts_spec (i :: l) pmax pmin.
Proof.
  unfold _format_result.
  destruct (format_fold_parts str_float (i :: l) [] (-1)%Z 1000000%Z)
    as (p' & pmax & pmin & -> & ? & ? & ? & ? & ?).
  exists pmax, pmin.
  by destruct (negb (existsb _ (i :: l))).
Qed.

(** X14.  [solve] changes nothing of the solver object but [parts_max]
    and [parts_min], so that [get_analysis] answers the same after it as
    before.  With an empty result, or none, even these two stay; otherwise
    they hold the largest and the smallest integer width of the bounded
    intervals of the result, and -1 and 1000000 when no interval is
    bounded. *)
Theorem solve_leaves_inputs str_float self r self' :
  solve str_float self = OK (r, self') →
  same_inputs self self'
  ∧ get_analysis self' = get_analysis self
  ∧ match intervals r with
    | [] => parts_max self' = parts_max self ∧ parts_min self' = parts_min self
    | l =>
      ∃ pmax pmin,
        parts_max self' = Some pmax ∧ parts_min self' = Some pmin
        ∧ parts_spec l pmax pmin
    end.
Proof.
  intros Hs. apply solve_inv in Hs as (analysis & Ha & Ho).
  destruct (optimize_same str_float self self analysis) as [_ Hsame]; [done|].
  rewrite Ho in Hsame. cbn [snd] in Hsame.
  split; [done|]. split.
  { unfold get_analysis. apply analyze_same.
    destruct Hsame as (? & ? & ? & ? & ? & ?). by repeat split. }
  unfold _optimize in Ho. destruct (first_impossible analysis).
  { by injection Ho as <- <-. }
  destruct (_merge_intervals (collect_included self analysis)) as [|i l].
  { by injection Ho as <- <-. }
  pose proof (format_result_parts str_float self i l
                (finite_length_sum (i :: l))) as Hp.
  destruct (_format_result str_float self (i :: l) _) as [msg s'].
  injection Ho as <- <-. exact Hp.
Qed.

Lemma solve_leaves_inputs_witness :
  solve example_str_float example_solver
  = OK (mkResult true example_result_intervals (Fin 16)
          "A = [5/1, 14/1] ∪ [23/1, 30/1]  max: 9 min: 7, суммарная длина = 16/1",
        mkSolver example_formula (ast example_solver) example_known_sets "A"
          true true (Some 9%Z) (Some 7%Z))
  ∧ same_inputs example_solver
      (mkSolver example_formula (ast example_solver) example_known_sets "A"
         true true (Some 9%Z) (Some 7%Z))
  ∧ get_analysis
      (mkSolver example_formula (ast example_solver) example_known_sets "A"
         true true (Some 9%Z) (Some 7%Z))
    = get_analysis example_solver
  ∧ ∃ pmax pmin,
      Some 9%Z = Some pmax ∧ Some 7%Z = Some pmin
      ∧ parts_spec example_result_intervals pmax pmin.
Proof.
  split; [exact example_solve|].
  exact (solve_leaves_inputs example_str_float example_solver _ _
           example_solve).
Defined.

(** ** Lexing a text that is followed by a closing parenthesis *)

Lemma count_while_app_stop f cs (c' : uchar) cs' :
  f c'.1 = false → count_while f (cs ++ c' :: cs') = count_while f cs.
Proof.
  intros Hc. induction cs as [|c cs IH]; cbn [app count_while].
  - by rewrite Hc.
  - by rewrite IH.
Qed.

Lemma count_while_le f cs : count_while f cs ≤ length cs.
Proof.
  induction cs as [|c cs IH]; cbn [count_while length]; [lia|].
  destruct (f c.1); lia.
Qed.

Lemma match_lit_le pat : ∀ cs n, match_lit pat cs = Some n → n ≤ length cs.
Proof.
  induction pat as [|p pat IH]; intros cs n H.
  - injection H as <-. lia.
  - cbn [match_lit] in H. destruct cs as [|c cs]; [done|].
    destruct (ci_eq p c.1); [|done].
    destruct (match_lit pat cs) as [n'|] eqn:Hm; [|done].
    injection H as <-. apply IH in Hm. cbn [length]. lia.
Qed.

(** A literal matches the same in a longer text, when the character that
    follows the text matches none of the literal's later characters. *)
Lemma match_lit_ext pat :
  ∀ cs (c' : uchar) cs',
    cs ≠ [] → Forall (λ p, ci_eq p c'.1 = false) (tail pat) →
    match_lit pat (cs ++ c' :: cs') = match_lit pat cs.
Proof.
  induction pat as [|p pat IH]; intros cs c' cs' Hcs Hpat; [done|].
  destruct cs as [|c cs]; [done|]. cbn [app match_lit tail] in *.
  destruct (ci_eq p c.1); [|done]. f_equal.
  destruct cs as [|c2 cs].
  - cbn [app]. destruct pat as [|p2 pat]; [done|].
    apply Forall_cons in Hpat as [Hp2 _]. cbn [match_lit]. by rewrite Hp2.
  - apply IH; [done|]. destruct pat as [|p2 pat]; [constructor|].
    by apply Forall_cons in Hpat as [_ ?].
Qed.

Lemma at_word_end_ext cs (c' : uchar) cs' :
  is_word c'.1 = false →
  ∀ n, n ≤ length cs →
    at_word_end (cs ++ c' :: cs') n = at_word_end cs n.
Proof.
  intros Hc. unfold at_word_end.
  induction cs as [|c cs IH]; intros n Hn.
  - cbn [length] in Hn. replace n with 0 by lia. cbn [app drop].
    by rewrite Hc.
  - destruct n as [|n]; [done|]. cbn [app drop]. apply IH.
    cbn [length] in Hn. lia.
Qed.

Lemma not_followed_by_bar_ext cs (c' : uchar) cs' :
  (c'.1 =? 124)%N = false →
  ∀ n, n ≤ length cs →
    not_followed_by_bar (cs ++ c' :: cs') n = not_followed_by_bar cs n.
Proof.
  intros Hc. unfold not_followed_by_bar.
  induction cs as [|c cs IH]; intros n Hn.
  - cbn [length] in Hn. replace n with 0 by lia. cbn [app drop].
    by rewrite Hc.
  - destruct n as [|n]; [done|]. cbn [app drop]. apply IH.
    cbn [length] in Hn. lia.
Qed.

Lemma match_alt_ext a cs (c' : uchar) cs' :
  cs ≠ [] → is_word c'.1 = false → (c'.1 =? 124)%N = false →
  match a with
  | Lit s | Word s => Forall (λ p, ci_eq p c'.1 = false) (tail (lit s))
  | BarNotBar => True
  end →
  match_alt a (cs ++ c' :: cs') = match_alt a cs.
Proof.
  intros Hcs Hw Hb Ha. destruct a as [s|s|]; cbn [match_alt].
  - by apply match_lit_ext.
  - rewrite match_lit_ext by done.
    destruct (match_lit (lit s) cs) as [n|] eqn:Hm; [|done].
    cbn [mbind option_bind]. rewrite at_word_end_ext; [done|done|].
    by eapply match_lit_le.
  - rewrite match_lit_ext by (done || constructor).
    destruct (match_lit [124%N] cs) as [n|] eqn:Hm; [|done].
    cbn [mbind option_bind]. rewrite not_followed_by_bar_ext; [done|done|].
    by eapply match_lit_le.
Qed.

Lemma match_alts_ext al cs (c' : uchar) cs' :
  cs ≠ [] → is_word c'.1 = false → (c'.1 =? 124)%N = false →
  Forall (λ a, match a with
               | Lit s | Word s =>
                 Forall (λ p, ci_eq p c'.1 = false) (tail (lit s))
               | BarNotBar => True
               end) al →
  match_alts al (cs ++ c' :: cs') = match_alts al cs.
Proof.
  intros Hcs Hw Hb. induction 1 as [|a al Ha _ IH]; [done|].
  cbn [match_alts]. by rewrite match_alt_ext, IH.
Qed.

Lemma match_pattern_ext p cs (c' : uchar) cs' :
  cs ≠ [] → is_space c'.1 = false → is_word c'.1 = false →
  (c'.1 =? 124)%N = false →
  match p with
  | Alts al =>
    Forall (λ a, match a with
                 | Lit s | Word s =>
                   Forall (λ p, ci_eq p c'.1 = false) (tail (lit s))
                 | BarNotBar => True
                 end) al
  | _ => True
  end →
  match_pattern p (cs ++ c' :: cs') = match_pattern p cs.
Proof.
  intros Hcs Hs Hw Hb Hp. destruct p as [|al|]; cbn [match_pattern].
  - by rewrite count_while_app_stop.
  - by apply match_alts_ext.
  - destruct cs as [|c cs]; [done|]. cbn [app].
    by rewrite count_while_app_stop.
Qed.

Lemma first_match_ext cs cs' :
  cs ≠ [] →
  first_match TOKEN_PATTERNS (cs ++ (41%N, ")") :: cs')
  = first_match TOKEN_PATTERNS cs.
Proof.
  intros Hcs. unfold TOKEN_PATTERNS. cbn [first_match].
  by rewrite !match_pattern_ext by first [done | repeat constructor].
Qed.

Lemma match_alts_le al cs n : match_alts al cs = Some n → n ≤ length cs.
Proof.
  induction al as [|a al IH]; [done|]. cbn [match_alts].
  destruct (match_alt a cs) as [m|] eqn:Ha; [|done].
  intros [= <-]. destruct a as [s|s|]; cbn [match_alt] in Ha.
  - by eapply match_lit_le.
  - destruct (match_lit (lit s) cs) as [k|] eqn:Hm; [|done].
    cbn [mbind option_bind] in Ha. destruct (at_word_end cs k); [|done].
    injection Ha as <-. by eapply match_lit_le.
  - destruct (match_lit [124%N] cs) as [k|] eqn:Hm; [|done].
    cbn [mbind option_bind] in Ha. destruct (not_followed_by_bar cs k); [|done].
    injection Ha as <-. by eapply match_lit_le.
Qed.

Lemma match_pattern_le p cs n : match_pattern p cs = Some n → n ≤ length cs.
Proof.
  destruct p as [|al|]; cbn [match_pattern].
  - pose proof (count_while_le is_space cs).
    destruct (count_while is_space cs); [done|]. by intros [= <-].
  - apply match_alts_le.
  - destruct cs as [|c cs]; [done|]. destruct (is_ident_start c.1); [|done].
    intros [= <-]. pose proof (count_while_le is_ident_char cs).
    cbn [length]. lia.
Qed.

Lemma first_match_le ps cs ty n :
  first_match ps cs = Some (ty, n) → n ≤ length cs.
Proof.
  induction ps as [|[p t] ps IH]; [done|]. cbn [first_match].
  destruct (match_pattern p cs) as [m|] eqn:Hm; [|done].
  intros [= _ <-]. by eapply match_pattern_le.
Qed.

(** The tokens of a text do not change when a closing parenthesis follows
    the text; only their positions move with the text. *)
Lemma tokenize_ext cs :
  ∀ skip pos toks,
    _tokenize cs skip pos = OK toks → skip ≤ length cs →
    ∀ cs' pos', ∃ body body',
      toks = body ++ [mkToken EOF EmptyString (pos + length cs)]
      ∧ Forall2 same_kind body' body
      ∧ _tokenize (cs ++ (41%N, ")") :: cs') skip pos'
        = prepend body'
            (_tokenize ((41%N, ")") :: cs') 0 (pos' + length cs)).
Proof.
  induction cs as [|c cs IH]; intros skip pos toks Htok Hskip cs' pos'.
  - cbn [length] in Hskip. replace skip with 0 in * by lia.
    cbn [_tokenize] in Htok. injection Htok as <-.
    exists [], []. rewrite !Nat.add_0_r. cbn [app length].
    rewrite prepend_nil. done.
  - assert (∀ p, S p + length cs = p + length (c :: cs)) as Epos
      by (intros p; cbn [length]; lia).
    cbn [_tokenize] in Htok. destruct skip as [|k].
    + destruct (first_match TOKEN_PATTERNS (c :: cs)) as [[ty n]|] eqn:Hm;
        [|done].
      destruct (_tokenize cs (Nat.pred n) (S pos)) as [toks1|] eqn:Hrest;
        [|done].
      pose proof (first_match_le _ _ _ _ Hm) as Hn. cbn [length] in Hn.
      destruct (IH _ _ _ Hrest ltac:(lia) cs' (S pos'))
        as (body & body' & -> & Hk & He).
      rewrite Epos in He. cbn [res_bind] in Htok. rewrite Epos in Htok.
      remember (_tokenize ((41%N, ")") :: cs') 0 (pos' + length (c :: cs)))
        as R eqn:HR. clear HR.
      rewrite <- app_comm_cons. cbn [_tokenize].
      rewrite app_comm_cons, first_match_ext, Hm by done.
      rewrite <- app_comm_cons, He.
      replace (take n (c :: cs ++ (41%N, ")") :: cs'))
        with (take n (c :: cs))
        by (rewrite app_comm_cons, take_app_le by (cbn [length]; lia); done).
      destruct ty as [t|]; injection Htok as <-.
      * exists (mkToken t (spelling (take n (c :: cs))) pos :: body),
          (mkToken t (spelling (take n (c :: cs))) pos' :: body').
        split; [done|]. split; [by constructor|].
        unfold prepend. by destruct R.
      * exists body, body'. split; [done|]. split; [done|].
        unfold prepend. by destruct R.
    + cbn [length] in Hskip.
      destruct (IH _ _ _ Htok ltac:(lia) cs' (S pos'))
        as (body & body' & -> & Hk & He).
      rewrite Epos in He.
      remember (_tokenize ((41%N, ")") :: cs') 0 (pos' + length (c :: cs)))
        as R eqn:HR. clear HR.
      exists body, body'. rewrite <- app_comm_cons. cbn [_tokenize].
      rewrite He, Epos. done.
Qed.

(** ** The parser and the tokens behind an operand *)

Lemma agree_app pre ts rest : agree ts rest → agree (pre ++ ts) (pre ++ rest).
Proof. by destruct pre. Qed.

Lemma agree_type ty k t ts0 r rest0 :
  tok_level ty = Some k → agree (t :: ts0) (r :: rest0) →
  (type t = ty ↔ type r = ty).
Proof.
  intros Hty. cbn [agree]. intros Hag. split; intros H.
  - rewrite H, Hty in Hag.
    destruct (type r), ty; simpl in *; congruence.
  - rewrite H, Hty in Hag.
    destruct (type t), ty; simpl in *; congruence.
Qed.

Lemma expect_ok ty t ts : type t = ty → _expect ty (t :: ts) = OK (t, ts).
Proof.
  intros H. unfold _expect. cbn [current res_bind _advance tail].
  by rewrite decide_False by (intros Hn; by apply Hn).
Qed.

Lemma parse_membership_ext : parser_ext _parse_membership.
Proof.
  intros ts a ts'. unfold _parse_membership.
  destruct (_expect IDENTIFIER ts) as [[t1 ts1]|e] eqn:E1; [|done].
  cbn [res_bind].
  destruct (_expect IN ts1) as [[t2 ts2]|e] eqn:E2; [|done].
  cbn [res_bind].
  destruct (_expect IDENTIFIER ts2) as [[t3 ts3]|e] eqn:E3; [|done].
  cbn [res_bind]. intros [= <- <-].
  apply expect_inv in E1 as [-> H1], E2 as [-> H2], E3 as [-> H3].
  exists [t1; t2; t3]. split; [done|]. split; [done|]. intros rest _.
  cbn [app]. by repeat (rewrite expect_ok by done; cbn [res_bind]).
Qed.

Lemma parse_atom_ext equiv : parser_ext equiv → parser_ext (_parse_atom equiv).
Proof.
  intros Hq ts a ts'. unfold _parse_atom.
  destruct ts as [|t ts0]; [done|]. cbn [current res_bind].
  case_decide as Ht.
  - cbn [_advance tail].
    destruct (equiv ts0) as [[a0 ts1]|e] eqn:E0; [|done]. cbn [res_bind].
    destruct (_expect RPAREN ts1) as [[t2 ts2]|e] eqn:E2; [|done].
    cbn [res_bind]. intros [= <- <-].
    apply expect_inv in E2 as [-> H2].
    destruct (Hq _ _ _ E0) as (pre & _ & -> & Hext).
    exists (t :: pre ++ [t2]). split; [done|].
    split; [cbn [app]; by rewrite <- app_assoc|].
    intros rest _. cbn [app current res_bind]. rewrite decide_True by done.
    cbn [_advance tail]. rewrite <- app_assoc. cbn [app].
    rewrite (Hext (t2 :: rest)) by done. cbn [res_bind].
    rewrite expect_ok by done. done.
  - intros H.
    destruct (parse_membership_ext _ _ _ H) as (pre & Hne & Heq & Hext).
    exists pre. split; [done|]. split; [done|]. intros rest Hag.
    destruct pre as [|p pre]; [done|].
    cbn [app] in Heq. injection Heq as <- ->.
    cbn [app current res_bind]. rewrite decide_False by done.
    by apply Hext.
Qed.

Lemma parse_not_ext equiv : parser_ext equiv → parser_ext (_parse_not equiv).
Proof.
  intros Hq ts. induction ts as [|t ts0 IH]; intros a ts'; [done|].
  cbn [_parse_not]. case_decide as Ht.
  - destruct (_parse_not equiv ts0) as [[o ts1]|e] eqn:E0; [|done].
    cbn [res_bind]. intros [= <- <-].
    destruct (IH _ _ eq_refl) as (pre & _ & -> & Hext).
    exists (t :: pre). split; [done|]. split; [done|]. intros rest Hag.
    cbn [app _parse_not]. rewrite decide_True by done.
    by rewrite (Hext rest Hag).
  - intros H.
    destruct (parse_atom_ext equiv Hq _ _ _ H) as (pre & Hne & Heq & Hext).
    exists pre. split; [done|]. split; [done|]. intros rest Hag.
    destruct pre as [|p pre]; [done|].
    cbn [app] in Heq. injection Heq as <- ->.
    cbn [app _parse_not]. rewrite decide_False by done. by apply Hext.
Qed.

Lemma binary_loop_ext ty k op operand :
  tok_level ty = Some k → parser_ext operand →
  ∀ fuel acc ts a ts',
    binary_loop ty op operand fuel acc ts = OK (a, ts') →
    ∃ pre, ts = pre ++ ts'
           ∧ ∀ rest, agree ts' rest →
               binary_loop ty op operand fuel acc (pre ++ rest) = OK (a, rest).
Proof.
  intros Hty Hp fuel.
  assert (∀ acc t ts0,
            type t ≠ ty →
            ∃ pre, t :: ts0 = pre ++ t :: ts0
                   ∧ ∀ rest, agree (t :: ts0) rest →
                       binary_loop ty op operand fuel acc (pre ++ rest)
                       = OK (acc, rest)) as Hstop.
  { intros acc t ts0 Ht. exists []. split; [done|]. intros rest Hag.
    destruct rest as [|r rest0]; [done|]. cbn [app].
    pose proof (agree_type ty k t ts0 r rest0 Hty Hag) as Hiff.
    destruct fuel; cbn [binary_loop current res_bind];
      rewrite decide_False by tauto; done. }
  induction fuel as [|fuel IH]; intros acc ts a ts'.
  - destruct ts as [|t ts0]; [done|]. cbn [binary_loop current res_bind].
    case_decide as Ht; [done|]. intros [= <- <-]. by apply Hstop.
  - destruct ts as [|t ts0]; [done|]. cbn [binary_loop current res_bind].
    case_decide as Ht; [|intros [= <- <-]; by apply Hstop].
    cbn [_advance tail].
    destruct (operand ts0) as [[r ts1]|e] eqn:E0; [|done]. cbn [res_bind].
    intros Hloop.
    assert (∀ acc ts a ts',
              binary_loop ty op operand fuel acc ts = OK (a, ts') →
              ∃ pre, ts = pre ++ ts'
                     ∧ ∀ rest, agree ts' rest →
                         binary_loop ty op operand fuel acc (pre ++ rest)
                         = OK (a, rest)) as IH'.
    { intros acc0 ts2 a2 ts2' H2. apply IH; [|done].
      intros acc1 t1 ts3 Ht1. exists []. split; [done|]. intros rest Hag.
      destruct rest as [|r0 rest0]; [done|]. cbn [app].
      pose proof (agree_type ty k t1 ts3 r0 rest0 Hty Hag) as Hiff.
      destruct fuel; cbn [binary_loop current res_bind];
        rewrite decide_False by tauto; done. }
    destruct (IH' _ _ _ _ Hloop) as (pre1 & -> & Hext1).
    destruct (Hp _ _ _ E0) as (pre0 & _ & -> & Hext0).
    exists (t :: pre0 ++ pre1).
    split; [cbn [app]; by rewrite <- app_assoc|].
    intros rest Hag. cbn [app binary_loop current res_bind].
    rewrite decide_True by done. cbn [_advance tail].
    rewrite <- app_assoc, (Hext0 (pre1 ++ rest)) by by apply agree_app.
    cbn [res_bind]. by apply Hext1.
Qed.

Lemma binary_level_ext ty k op operand fuel :
  tok_level ty = Some k → parser_ext operand →
  parser_ext (binary_level ty op operand fuel).
Proof.
  intros Hty Hp ts a ts'. unfold binary_level.
  destruct (operand ts) as [[l ts1]|e] eqn:E0; [|done]. cbn [res_bind].
  intros Hloop.
  destruct (binary_loop_ext ty k op operand Hty Hp _ _ _ _ _ Hloop)
    as (pre1 & -> & Hext1).
  destruct (Hp _ _ _ E0) as (pre0 & Hne & -> & Hext0).
  exists (pre0 ++ pre1). split; [by destruct pre0|].
  split; [by rewrite <- app_assoc|].
  intros rest Hag.
  rewrite <- app_assoc, (Hext0 (pre1 ++ rest)) by by apply agree_app.
  cbn [res_bind]. by apply Hext1.
Qed.

Lemma parse_equiv_ext fuel : parser_ext (_parse_equiv fuel).
Proof.
  induction fuel as [|fuel IH]; [by intros ts a ts'|].
  change (parser_ext
            (binary_level EQUIV "EQUIV"
               (_parse_implies (_parse_equiv fuel) fuel) fuel)).
  unfold _parse_implies, _parse_xor, _parse_or, _parse_and.
  repeat (eapply binary_level_ext; [reflexivity|]).
  by apply parse_not_ext.
Qed.

(** ** More fuel does not change a result *)

Lemma parse_atom_extends equiv equiv' :
  extends equiv equiv' → extends (_parse_atom equiv) (_parse_atom equiv').
Proof.
  intros Hq ts r. unfold _parse_atom.
  destruct (current ts) as [cur|]; [|done]. cbn [res_bind].
  case_decide; [|done].
  destruct (equiv (_advance ts)) as [[a ts1]|e] eqn:E0; [|done].
  by rewrite (Hq _ _ E0).
Qed.

Lemma parse_not_extends equiv equiv' :
  extends equiv equiv' → extends (_parse_not equiv) (_parse_not equiv').
Proof.
  intros Hq ts. induction ts as [|t ts0 IH]; intros r; [done|].
  cbn [_parse_not]. case_decide.
  - destruct (_parse_not equiv ts0) as [[o ts1]|e] eqn:E0; [|done].
    by rewrite (IH _ eq_refl).
  - by apply parse_atom_extends.
Qed.

Lemma binary_loop_extends ty op operand operand' :
  extends operand operand' →
  ∀ f f' acc ts r,
    f ≤ f' →
    binary_loop ty op operand f acc ts = OK r →
    binary_loop ty op operand' f' acc ts = OK r.
Proof.
  intros Hp f. induction f as [|f IH]; intros f' acc ts r Hf.
  - destruct ts as [|t ts0]; [done|]. cbn [binary_loop current res_bind].
    case_decide as Ht; [done|]. intros [= <-].
    destruct f'; cbn [binary_loop current res_bind];
      by rewrite decide_False by done.
  - destruct f' as [|f']; [lia|].
    destruct ts as [|t ts0]; [done|]. cbn [binary_loop current res_bind].
    case_decide as Ht; [|done]. cbn [_advance tail].
    destruct (operand ts0) as [[r0 ts1]|e] eqn:E0; [|done].
    rewrite (Hp _ _ E0). cbn [res_bind]. apply IH. lia.
Qed.

Lemma binary_level_extends ty op operand operand' f f' :
  extends operand operand' → f ≤ f' →
  extends (binary_level ty op operand f) (binary_level ty op operand' f').
Proof.
  intros Hp Hf ts r. unfold binary_level.
  destruct (operand ts) as [[l ts1]|e] eqn:E0; [|done].
  rewrite (Hp _ _ E0). cbn [res_bind]. by apply binary_loop_extends.
Qed.

Lemma parse_equiv_extends f :
  ∀ f', f ≤ f' → extends (_parse_equiv f) (_parse_equiv f').
Proof.
  induction f as [|f IH]; intros f' Hf; [by intros ts r|].
  destruct f' as [|f']; [lia|].
  change (extends
            (binary_level EQUIV "EQUIV"
               (_parse_implies (_parse_equiv f) f) f)
            (binary_level EQUIV "EQUIV"
               (_parse_implies (_parse_equiv f') f') f')).
  unfold _parse_implies, _parse_xor, _parse_or, _parse_and.
  repeat (apply binary_level_extends; [|lia]).
  apply parse_not_extends, IH. lia.
Qed.

(** ** Operands *)

Lemma parse_inv body e t :
  Forall (λ t, type t ≠ EOF) body →
  parse (body ++ [e]) = OK t →
  type e = EOF
  ∧ _parse_equiv (S (length (body ++ [e]))) (body ++ [e]) = OK (t, [e]).
Proof.
  intros Hbody. unfold parse.
  destruct (_parse_equiv _ (body ++ [e])) as [[r ts]|] eqn:Hp; [|done].
  cbn [res_bind]. destruct ts as [|cur ts]; [done|].
  cbn [current res_bind]. case_decide as Hcur; [done|]. intros [= ->].
  assert (type cur = EOF) as Hty by by destruct (decide (type cur = EOF)).
  destruct (parse_equiv_ext _ _ _ _ Hp) as (pre & _ & Heq & _).
  destruct ts as [|x ts _] using rev_ind.
  - apply app_inj_tail in Heq as [-> ->]. done.
  - exfalso. rewrite app_comm_cons, app_assoc in Heq.
    apply app_inj_tail in Heq as [-> _].
    apply Forall_app in Hbody as [_ Hbody].
    apply Forall_cons in Hbody as [Hc _]. done.
Qed.

Lemma reads_paren body e t f0 :
  _parse_equiv f0 (body ++ [e]) = OK (t, [e]) → type e = EOF →
  reads (tok LPAREN "(" :: body ++ [tok RPAREN ")"]) t f0.
Proof.
  intros Hp He f rest Hf.
  destruct (parse_equiv_ext f0 _ _ _ Hp) as (pre & _ & Heq & Hext).
  apply app_inj_tail in Heq as [<- _].
  cbn [app _parse_not type tok]. rewrite decide_False by done.
  unfold _parse_atom. cbn [current res_bind type tok].
  rewrite decide_True by done. cbn [_advance tail].
  rewrite <- app_assoc. cbn [app].
  rewrite (parse_equiv_extends f0 f Hf _ _
             (Hext (tok RPAREN ")" :: rest) ltac:(cbn; by rewrite He))).
  cbn [res_bind]. by rewrite expect_ok by done.
Qed.

Lemma reads_not ts t f0 v :
  reads ts t f0 → reads (tok NOT v :: ts) (NotNode t) f0.
Proof.
  intros H f rest Hf. cbn [app _parse_not type tok].
  rewrite decide_True by done. by rewrite (H f rest Hf).
Qed.

Lemma reads_parse ts t f0 :
  reads ts t f0 → f0 ≤ S (length ts) →
  parse (ts ++ [tok EOF EmptyString]) = OK t.
Proof.
  intros H Hf. unfold parse.
  change (_parse_equiv (S (length (ts ++ [tok EOF EmptyString]))))
    with (level_parser
            (_parse_equiv (length (ts ++ [tok EOF EmptyString])))
            (length (ts ++ [tok EOF EmptyString])) 0).
  rewrite (level_parser_down _ _ _ t [tok EOF EmptyString] 5 0);
    [done|simpl; lia| |by simpl].
  apply H. rewrite length_app. cbn [length]. lia.
Qed.

(** Two operands around a binary operator. *)
Lemma reads_binary ts1 t1 f1 ts2 t2 f2 op v f rest :
  reads ts1 t1 f1 → reads ts2 t2 f2 → known_op op → stops 0 rest →
  f1 ≤ f → f2 ≤ f → 1 ≤ f →
  level_parser (_parse_equiv f) f 0
    (ts1 ++ tok (op_token op) v :: ts2 ++ rest)
  = OK (BinaryNode op t1 t2, rest).
Proof.
  intros H1 H2 Hop Hst Hf1 Hf2 Hf.
  destruct (known_op_level op Hop) as (Hk & Hname & Htok).
  destruct f as [|f]; [lia|].
  rewrite (level_parser_down _ _ _ (BinaryNode op t1 t2) rest
             (op_level op) 0); [done|simpl; lia| |done].
  cbn [Nat.add]. rewrite level_parser_step by done. unfold binary_level.
  rewrite (level_parser_down _ _ _ t1
             (tok (op_token op) v :: ts2 ++ rest)
             (4 - op_level op) (S (op_level op))).
  - cbn [res_bind binary_loop current type tok]. rewrite Htok.
    rewrite decide_True by done. cbn [_advance tail].
    rewrite (level_parser_down _ _ _ t2 rest
               (4 - op_level op) (S (op_level op))).
    + cbn [res_bind]. rewrite Hname, <- Htok.
      apply binary_loop_stops; [done|].
      by eapply stops_mono; [|done]; lia.
    + lia.
    + replace (S (op_level op) + (4 - op_level op)) with 5 by lia.
      by apply H2.
    + by eapply stops_mono; [|done]; lia.
  - lia.
  - replace (S (op_level op) + (4 - op_level op)) with 5 by lia.
    by apply H1.
  - simpl. intros j Hj. rewrite <- Htok, tok_level_level_tok in Hj by done.
    injection Hj as <-. lia.
Qed.

Lemma whole_parenthesised s : whole s → whole (parenthesised s).
Proof.
  unfold whole, parenthesised. intros H. rewrite !utf8_state_app.
  change (utf8_state "(" 0) with 0. by rewrite H.
Qed.

Lemma chars_parenthesised s :
  whole s →
  utf8_chars (parenthesised s)
  = (40%N, "(") :: utf8_chars s ++ [(41%N, ")")].
Proof.
  intros H. unfold parenthesised. by rewrite chars_lparen, utf8_chars_app.
Qed.

(** A formula that parses is, between parentheses, an operand: its tokens
    are read to the same tree whatever follows, and the lexer finds them
    whatever text follows. *)
Lemma formula_operand s t :
  parse_formula s = OK t → whole s →
  ∃ ts f0,
    reads ts t f0 ∧ f0 ≤ S (length ts)
    ∧ ∀ cs' pos', ∃ toks' n,
        Forall2 same_kind toks' ts
        ∧ _tokenize (utf8_chars (parenthesised s) ++ cs') 0 pos'
          = prepend toks' (_tokenize cs' 0 n).
Proof.
  unfold parse_formula, Lexer. intros Hp Hs.
  destruct (_tokenize (utf8_chars s) 0 0) as [toks|] eqn:Hlex; [|done].
  cbn [res_bind] in Hp.
  destruct (tokenize_shape _ _ _ _ Hlex) as (body & -> & Hbody & _).
  assert (Forall (λ t, type t ≠ EOF) body) as Hne
    by (eapply Forall_impl; [exact Hbody|]; by intros ? [? _]).
  apply parse_inv in Hp as [He Hp]; [|done].
  eexists _, _. split; [eapply reads_paren; [exact Hp|exact He]|].
  split; [cbn [length]; rewrite !length_app; cbn [length]; lia|].
  intros cs' pos'. rewrite chars_parenthesised by done.
  rewrite <- app_comm_cons, <- app_assoc. cbn [app].
  rewrite (tokenize_symbol _ _ LPAREN) by reflexivity.
  destruct (tokenize_ext _ _ _ _ Hlex ltac:(lia) cs' (S pos'))
    as (body0 & body' & Heq & Hk & Hext).
  unfold uchar in *. rewrite Hext.
  apply app_inj_tail in Heq as [<- _].
  rewrite (tokenize_symbol _ _ RPAREN) by reflexivity.
  rewrite !prepend_prepend. eexists _, _. split; [|reflexivity].
  rewrite <- app_assoc. cbn [app].
  constructor; [by apply same_kind_tok|].
  apply Forall2_app; [done|].
  constructor; [by apply same_kind_tok|constructor].
Qed.

Lemma parse_formula_tokens text toks' n ts t :
  _tokenize (utf8_chars text) 0 0
  = prepend toks' (_tokenize [] 0 n) →
  Forall2 same_kind toks' ts →
  parse (ts ++ [tok EOF EmptyString]) = OK t →
  parse_formula text = OK t.
Proof.
  intros Hlex Hk Hp. unfold parse_formula, Lexer. rewrite Hlex.
  cbn [_tokenize prepend res_bind].
  assert (Forall2 same_kind (toks' ++ [mkToken EOF EmptyString n])
            (ts ++ [tok EOF EmptyString])) as H.
  { apply Forall2_app; [done|]. constructor; [by split|constructor]. }
  apply parse_respects_kind in H. rewrite Hp in H.
  destruct (parse (toks' ++ [mkToken EOF EmptyString n])); [by subst|done].
Qed.

Lemma parse_formula_parenthesised s t :
  parse_formula s = OK t → whole s →
  parse_formula (parenthesised s) = OK t.
Proof.
  intros Hp Hs.
  destruct (formula_operand s t Hp Hs) as (ts & f0 & Hr & Hf & Hlex).
  destruct (Hlex [] 0) as (toks' & n & Hk & He). rewrite app_nil_r in He.
  eapply parse_formula_tokens; [exact He|exact Hk|].
  by eapply reads_parse.
Qed.

Lemma parse_formula_negated s t :
  parse_formula s = OK t → whole s →
  parse_formula ("¬" +:+ parenthesised s) = OK (NotNode t).
Proof.
  intros Hp Hs.
  destruct (formula_operand s t Hp Hs) as (ts & f0 & Hr & Hf & Hlex).
  destruct (Hlex [] 1) as (toks' & n & Hk & He). rewrite app_nil_r in He.
  eapply (parse_formula_tokens _ _ n (tok NOT "¬" :: ts)).
  - rewrite chars_not, (tokenize_symbol _ _ NOT) by reflexivity.
    by rewrite He, prepend_prepend.
  - cbn [app]. constructor; [by apply same_kind_tok|done].
  - eapply (reads_parse _ _ f0).
    + by apply reads_not.
    + cbn [length]. lia.
Qed.

Lemma parse_formula_binary op s1 t1 s2 t2 :
  known_op op →
  parse_formula s1 = OK t1 → whole s1 →
  parse_formula s2 = OK t2 → whole s2 →
  parse_formula (parenthesised s1 +:+ " " +:+ op_symbol op +:+ " "
                 +:+ parenthesised s2)
  = OK (BinaryNode op t1 t2).
Proof.
  intros Hop Hp1 Hs1 Hp2 Hs2.
  destruct (formula_operand s1 t1 Hp1 Hs1) as (ts1 & f1 & Hr1 & Hf1 & Hlex1).
  destruct (formula_operand s2 t2 Hp2 Hs2) as (ts2 & f2 & Hr2 & Hf2 & Hlex2).
  assert (∃ toks' n,
            Forall2 same_kind toks' (ts1 ++ tok (op_token op) op :: ts2)
            ∧ _tokenize
                (utf8_chars (parenthesised s1 +:+ " " +:+ op_symbol op
                             +:+ " " +:+ parenthesised s2)) 0 0
              = prepend toks' (_tokenize [] 0 n))
    as (toks' & n & Hk & He).
  { rewrite utf8_chars_app by by apply whole_parenthesised.
    rewrite chars_space.
    destruct (chars_op_symbol op (" " +:+ parenthesised s2) Hop)
      as (c & -> & Hc & Hm).
    rewrite chars_space.
    match goal with
    | |- context [_tokenize (utf8_chars (parenthesised s1) ++ ?cs') 0 ?p] =>
      destruct (Hlex1 cs' p) as (tl & nl & Hkl & ->)
    end.
    rewrite tokenize_space by (cbn [count_while]; by rewrite Hc).
    rewrite (tokenize_symbol _ _ (op_token op)) by apply Hm.
    rewrite tokenize_space
      by (rewrite chars_parenthesised by done; reflexivity).
    destruct (Hlex2 [] (S (S (S nl)))) as (tr & nr & Hkr & Her).
    rewrite app_nil_r in Her. rewrite Her, !prepend_prepend.
    eexists _, _. split; [|reflexivity].
    rewrite <- app_assoc. cbn [app].
    apply Forall2_app; [done|].
    constructor; [|done].
    apply same_kind_tok. unfold op_token. by repeat case_decide. }
  eapply parse_formula_tokens; [exact He|exact Hk|].
  unfold parse. rewrite <- app_assoc, <- app_comm_cons.
  set (n0 := length (ts1 ++ tok (op_token op) op :: ts2
                     ++ [tok EOF EmptyString])).
  assert (length ts1 + length ts2 + 2 = n0) as Hn0.
  { unfold n0. rewrite !length_app. cbn [length]. rewrite length_app.
    cbn [length]. lia. }
  change (_parse_equiv (S n0)) with (level_parser (_parse_equiv n0) n0 0).
  rewrite (reads_binary ts1 t1 f1 ts2 t2 f2 op op n0 [tok EOF EmptyString]);
    try done; try lia.
Qed.

(** X15.  Parentheses around a whole formula change nothing, and a
    negation sign in front of them negates it: when [parse_formula]
    accepts a text, it accepts the text between parentheses with the same
    tree, and the text between parentheses behind [¬] with that tree under
    a [NotNode]. *)
Theorem parse_formula_in_parentheses s t :
  parse_formula s = OK t → whole s →
  parse_formula ("(" +:+ s +:+ ")") = OK t
  ∧ parse_formula ("¬" +:+ "(" +:+ s +:+ ")") = OK (NotNode t).
Proof.
  intros Hp Hs. split.
  - by apply parse_formula_parenthesised.
  - by apply parse_formula_negated.
Qed.

Lemma parse_formula_in_parentheses_witness :
  (parse_formula "x in P | x in Q"
   = OK (BinaryNode "OR" (MembershipNode "x" "P") (MembershipNode "x" "Q"))
   ∧ whole "x in P | x in Q")
  ∧ parse_formula ("(" +:+ "x in P | x in Q" +:+ ")")
    = OK (BinaryNode "OR" (MembershipNode "x" "P") (MembershipNode "x" "Q"))
  ∧ parse_formula ("¬" +:+ "(" +:+ "x in P | x in Q" +:+ ")")
    = OK (NotNode
            (BinaryNode "OR" (MembershipNode "x" "P")
               (MembershipNode "x" "Q"))).
Proof.
  assert (parse_formula "x in P | x in Q"
          = OK (BinaryNode "OR" (MembershipNode "x" "P")
                  (MembershipNode "x" "Q"))) as Hp by by vm_compute.
  assert (whole "x in P | x in Q") as Hs by reflexivity.
  split; [by split|].
  exact (parse_formula_in_parentheses _ _ Hp Hs).
Defined.

(** X16.  Formulas compose: two texts that [parse_formula] accepts, each
    between parentheses and joined by the symbol of one of the five binary
    operators, are accepted as the [BinaryNode] of that operator over the
    two trees, whatever operators the two texts use inside. *)
Theorem parse_formula_connective op s1 t1 s2 t2 :
  known_op op →
  parse_formula s1 = OK t1 → whole s1 →
  parse_formula s2 = OK t2 → whole s2 →
  parse_formula ("(" +:+ s1 +:+ ")" +:+ " " +:+ op_symbol op +:+ " "
                 +:+ "(" +:+ s2 +:+ ")")
  = OK (BinaryNode op t1 t2).
Proof.
  intros Hop Hp1 Hs1 Hp2 Hs2.
  pose proof (parse_formula_binary op s1 t1 s2 t2 Hop Hp1 Hs1 Hp2 Hs2) as H.
  unfold parenthesised in H. by rewrite !string_app_assoc in H.
Qed.

Lemma parse_formula_connective_witness :
  (known_op "AND"
   ∧ parse_formula "x in P -> x in Q"
     = OK (BinaryNode "IMPLIES" (MembershipNode "x" "P")
             (MembershipNode "x" "Q"))
   ∧ whole "x in P -> x in Q"
   ∧ parse_formula "!x in A" = OK (NotNode (MembershipNode "x" "A"))
   ∧ whole "!x in A")
  ∧ parse_formula ("(" +:+ "x in P -> x in Q" +:+ ")" +:+ " "
                   +:+ op_symbol "AND" +:+ " " +:+ "(" +:+ "!x in A" +:+ ")")
    = OK (BinaryNode "AND"
            (BinaryNode "IMPLIES" (MembershipNode "x" "P")
               (MembershipNode "x" "Q"))
            (NotNode (MembershipNode "x" "A"))).
Proof.
  assert (known_op "AND") as Hop by (apply known_op_cases; tauto).
  assert (parse_formula "x in P -> x in Q"
          = OK (BinaryNode "IMPLIES" (MembershipNode "x" "P")
                  (MembershipNode "x" "Q"))) as Hp1 by by vm_compute.
  assert (parse_formula "!x in A" = OK (NotNode (MembershipNode "x" "A")))
    as Hp2 by by vm_compute.
  assert (whole "x in P -> x in Q") as Hs1 by reflexivity.
  assert (whole "!x in A") as Hs2 by reflexivity.
  split; [done|].
  exact (parse_formula_connective _ _ _ _ _ Hop Hp1 Hs1 Hp2 Hs2).
Defined.

(** ** Asking for a false formula *)

Lemma validate_loop_indep s1 s2 names :
  target_set s1 = target_set s2 → known_sets s1 = known_sets s2 →
  _validate_loop s1 names = _validate_loop s2 names.
Proof.
  intros Ht Hk. induction names as [|n names IH]; [done|].
  cbn [_validate_loop]. rewrite Ht, Hk, IH. done.
Qed.

Lemma validate_indep s1 s2 :
  get_sets_from_ast (ast s1) = get_sets_from_ast (ast s2) →
  target_set s1 = target_set s2 → known_sets s1 = known_sets s2 →
  _validate s1 = _validate s2.
Proof.
  intros Ha Ht Hk. unfold _validate. rewrite Ha, Ht.
  case_decide; [done|]. by apply validate_loop_indep.
Qed.

Lemma base_values_indep s1 s2 x :
  known_sets s1 = known_sets s2 → base_values s1 x = base_values s2 x.
Proof.
  intros Hk. unfold base_values, _point_in_set. by rewrite Hk.
Qed.

(** The constraint of a region for the negated formula and the opposite
    requirement is the constraint for the formula. *)
Lemma get_constraint_negated s1 s2 i :
  ast s2 = NotNode (ast s1) → formula_true s2 = negb (formula_true s1) →
  known_sets s1 = known_sets s2 → target_set s1 = target_set s2 →
  _get_constraint_for_interval s2 i = _get_constraint_for_interval s1 i.
Proof.
  intros Ha Hf Hk Ht. unfold _get_constraint_for_interval.
  rewrite Ha, Hf, <- Ht, <- (base_values_indep s1 s2 _ Hk).
  cbn [evaluate].
  destruct (evaluate (ast s1) _) as [r0|]; [|done]. cbn [res_bind].
  destruct (evaluate (ast s1) _) as [r1|]; [|done]. cbn [res_bind].
  by destruct r0, r1, (formula_true s1).
Qed.

Lemma analyze_negated s1 s2 :
  ast s2 = NotNode (ast s1) → formula_true s2 = negb (formula_true s1) →
  known_sets s1 = known_sets s2 → target_set s1 = target_set s2 →
  _analyze_intervals s2 = _analyze_intervals s1.
Proof.
  intros Ha Hf Hk Ht. unfold _analyze_intervals, _get_critical_points.
  rewrite <- Hk.
  generalize (_build_intervals
                (sorted Fin
                   (collect_points (map_to_list (known_sets s1)).*2 []))).
  intros l. induction l as [|i l IH]; [done|].
  cbn [_analyze_loop]. by rewrite IH, (get_constraint_negated s1 s2).
Qed.

Lemma collect_included_indep s1 s2 l :
  maximize s1 = maximize s2 → collect_included s1 l = collect_included s2 l.
Proof.
  intros Hm. induction l as [|ci l IH]; [done|].
  cbn [collect_included]. unfold should_include. by rewrite Hm, IH.
Qed.

(** The result of [_optimize] depends on the solver object only through
    the target name and the maximize flag. *)
Lemma optimize_indep str_float s1 s2 l :
  maximize s1 = maximize s2 → target_set s1 = target_set s2 →
  (_optimize str_float s1 l).1 = (_optimize str_float s2 l).1.
Proof.
  intros Hm Ht. unfold _optimize.
  destruct (first_impossible l); [done|].
  rewrite (collect_included_indep s1 s2 l Hm).
  destruct (_merge_intervals _) as [|i m]; [done|].
  unfold _format_result. rewrite Ht.
  destruct (foldl _ _ (i :: m)) as [[parts pmax] pmin].
  by destruct (negb (existsb _ (i :: m))).
Qed.

(** X17.  Asking for the formula to be false is asking for its negation
    to be true, and the other way round: whenever a solver is constructed
    for a formula text, one is constructed for [¬(text)] with the opposite
    [formula_true], and it has the same analysis and the same result of
    [solve]: success flag, intervals, total length and message. *)
Theorem negated_formula_solver str_float s ks target mx ft self1 :
  LogicSolver_init s ks target mx ft = OK self1 → whole s →
  ∃ self2,
    LogicSolver_init ("¬" +:+ "(" +:+ s +:+ ")") ks target mx (negb ft)
    = OK self2
    ∧ get_analysis self2 = get_analysis self1
    ∧ ∀ r self1',
        solve str_float self1 = OK (r, self1') →
        ∃ self2', solve str_float self2 = OK (r, self2').
Proof.
  unfold LogicSolver_init. intros Hinit Hs.
  destruct (parse_formula s) as [t|] eqn:Hp; [|done].
  cbn [res_bind] in Hinit.
  destruct (_validate (mkSolver s t ks target mx ft None None)) eqn:Hv;
    [|done].
  cbn [res_bind] in Hinit. injection Hinit as <-.
  pose proof (parse_formula_negated s t Hp Hs) as Hn.
  unfold parenthesised in Hn. rewrite Hn. cbn [res_bind].
  set (self1 := mkSolver s t ks target mx ft None None) in *.
  set (self2 := mkSolver ("¬" +:+ "(" +:+ s +:+ ")") (NotNode t) ks target mx
                  (negb ft) None None).
  rewrite (validate_indep self2 self1), Hv by done. cbn [res_bind].
  exists self2. split; [done|].
  assert (_analyze_intervals self2 = _analyze_intervals self1) as Ha
    by by apply analyze_negated.
  split; [done|]. intros r self1' Hsolve.
  apply solve_inv in Hsolve as (analysis & Han & Ho).
  unfold solve. rewrite Ha, Han. cbn [res_bind].
  pose proof (optimize_indep str_float self2 self1 analysis eq_refl eq_refl)
    as Hopt.
  rewrite Ho in Hopt. cbn [fst] in Hopt.
  destruct (_optimize str_float self2 analysis) as [r2 self2'].
  cbn [fst] in Hopt. subst r2. by exists self2'.
Qed.

Lemma negated_formula_solver_witness :
  (LogicSolver_init implies_formula implies_known_sets "A" false true
   = OK (implies_solver false None None)
   ∧ whole implies_formula)
  ∧ ∃ self2,
      LogicSolver_init ("¬" +:+ "(" +:+ implies_formula +:+ ")")
        implies_known_sets "A" false (negb true)
      = OK self2
      ∧ get_analysis self2 = get_analysis (implies_solver false None None)
      ∧ ∀ r self1',
          solve example_str_float (implies_solver false None None)
          = OK (r, self1') →
          ∃ self2', solve example_str_float self2 = OK (r, self2').
Proof.
  assert (whole implies_formula) as Hs by reflexivity.
  split; [split; [exact (implies_init false)|exact Hs]|].
  exact (negated_formula_solver example_str_float _ _ _ _ _ _
           (implies_init false) Hs).
Defined.
